(** * Fixture difficulty rating engine of fpl-viz

    A shallow embedding of [FixtureDifficultyService]
    (services/fixtureDifficultyService.ts) and of the properties its
    specification states about it.

    Numbers.  A TypeScript [number] that carries a rate, a rating or a
    score is embedded as an exact rational ([Q]); identifiers, gameweeks
    and counts, which are integral in the source, as [Z], a gameweek that
    may be [null] as [option Z].  Rounding of IEEE doubles, [NaN] and the
    infinities are outside the rational model: a statement over [Q] is a
    statement of exact arithmetic.  Equality of rationals is [Qeq]
    ([==]), as [Q] is not a canonical representation.  Where rounding
    decides a property, the two scalers are embedded a second time on
    binary64 floats (module [Doubles]), the numbers the program runs on. *)

From Stdlib Require Import QArith Qminmax Qround Lqa ZArith Lia List Sorted.
From Stdlib Require Import PrimFloat.
From stdpp Require Import gmap strings list fin_maps sorting.

Local Open Scope Q_scope.

(** ** Scaling and bucketing (lines 265-295) *)

Module Scale.

(** [scaleTo100]: higher value, higher rating. *)
Definition scaleTo100 (value min max : Q) : Q :=
  if Qeq_bool max min then 50
  else ((value - min) / (max - min)) * 100.

(** [scaleTo100Inverted]: lower value, higher rating. *)
Definition scaleTo100Inverted (value min max : Q) : Q :=
  if Qeq_bool max min then 50
  else ((max - value) / (max - min)) * 100.

(** [scaleToDifficulty]: 0-100 scale to the integer 1-5 rating. *)
Definition scaleToDifficulty (rating : Q) : Z :=
  if Qle_bool rating 20 then 1%Z
  else if Qle_bool rating 40 then 2%Z
  else if Qle_bool rating 60 then 3%Z
  else if Qle_bool rating 80 then 4%Z
  else 5%Z.

(** The bucket table as the specification words it. *)
Inductive bucket_of (raw : Q) : Z -> Prop :=
| bucket_1 : raw <= 20 -> bucket_of raw 1
| bucket_2 : 20 < raw -> raw <= 40 -> bucket_of raw 2
| bucket_3 : 40 < raw -> raw <= 60 -> bucket_of raw 3
| bucket_4 : 60 < raw -> raw <= 80 -> bucket_of raw 4
| bucket_5 : 80 < raw -> bucket_of raw 5.

End Scale.

(** The two scalers on binary64 floats, operation for operation as lines
    265-278 evaluate them; [=?] is the equality of IEEE 754, as [===] on
    numbers is. *)
Module Doubles.

Definition scaleTo100 (value min max : float) : float :=
  if (max =? min)%float then 50%float
  else (((value - min) / (max - min)) * 100)%float.

Definition scaleTo100Inverted (value min max : float) : float :=
  if (max =? min)%float then 50%float
  else (((max - value) / (max - min)) * 100)%float.

End Doubles.

(** ** Data model (lines 7-55) *)

Record TeamStrength := {
  teamId : Z;
  teamName : string;
  xGPer90 : Q;
  xGAPer90 : Q;
  gfPer90 : Q;
  gaPer90 : Q;
  xGPer90Home : Q;
  xGAPer90Home : Q;
  xGPer90Away : Q;
  xGAPer90Away : Q;
  gfPer90Home : Q;
  gaPer90Home : Q;
  gfPer90Away : Q;
  gaPer90Away : Q;
  homeAttackBonus : Q;
  homeDefenseBonus : Q;
  formFactor : Q
}.

(** A gameweek is the [event] of a fixture of the backend, a number or
    [null] for a match that has no gameweek yet ([event: number | null]
    in the types of the FPL payload); the service copies it unchanged. *)
Record FixtureDifficulty := {
  gameweek : option Z;
  opponentTeamId : Z;
  opponentTeamName : string;
  isHome : bool;
  attackDifficulty : Z;
  defenseDifficulty : Z;
  attackDifficultyRaw : Q;
  defenseDifficultyRaw : Q
}.

(** The fields of [FPLFixture] that the service reads. *)
Record FPLFixture := {
  fixture_id : Z;
  event : option Z;
  team_h : Z;
  team_a : Z;
  finished : bool
}.

(** An element of the [upcomingFixtures] argument. *)
Record Upcoming := {
  up_gameweek : option Z;
  up_opponentTeamId : Z;
  up_isHome : bool
}.

(** A team of the bootstrap payload. *)
Record Team := {
  team_id : Z;
  team_name : string
}.

(** A row of the Understat payload.  Every statistic may be missing;
    the source reads each one as [row.field || 0]. *)
Record UnderstatTeam := {
  u_team_id : option Z;
  u_team_name : string;
  xg_per90 : option Q;
  xga_per90 : option Q;
  gf_per90 : option Q;
  ga_per90 : option Q;
  home_xg_per90 : option Q;
  home_xga_per90 : option Q;
  away_xg_per90 : option Q;
  away_xga_per90 : option Q;
  home_gf_per90 : option Q;
  home_ga_per90 : option Q;
  away_gf_per90 : option Q;
  away_ga_per90 : option Q;
  home_attack_bonus : option Q;
  home_defense_bonus : option Q;
  form_factor : option Q
}.

(** What a rejected promise carries: a failed request, or the
    [Error('No team data received from Understat')] of line 123. *)
Inductive error :=
| NetworkError
| NoTeamData.

(** The lines the strengths computation and the scoring loop write with
    [console.warn] (lines 193 and 364).  The warning of line 80 and what
    the service writes with [console.log] and [console.error] are left
    out. *)
Inductive log_entry :=
| WarnNoUnderstat (name : string) (id : Z)
| WarnNoStrength (id : Z).

(** A nullable number as an operand of [-]: [null] converts to [0]. *)
Definition toNumber (x : option Z) : Z := default 0%Z x.

(** ** The scorer: the body of [calculateFixtureDifficulty] (lines 314-445) *)

Module Scorer.
Import Scale.

Definition ALPHA : Q := 0.7.
Definition BETA : Q := 0.7.

(** [Math.min(...l)] and [Math.max(...l)].  On the empty array JavaScript
    answers with an infinity, which [Q] does not have; [0] stands in for
    it.  The arrays are empty only when the strengths map is, and then
    every fixture is skipped before a bound is read. *)
Definition Math_min (l : list Q) : Q :=
  match l with
  | [] => 0
  | x :: xs => fold_left Qmin xs x
  end.

Definition Math_max (l : list Q) : Q :=
  match l with
  | [] => 0
  | x :: xs => fold_left Qmax xs x
  end.

Definition homeAttack (s : TeamStrength) : Q :=
  (ALPHA * xGPer90Home s) + ((1 - ALPHA) * gfPer90Home s).
Definition awayAttack (s : TeamStrength) : Q :=
  (ALPHA * xGPer90Away s) + ((1 - ALPHA) * gfPer90Away s).
Definition homeDefense (s : TeamStrength) : Q :=
  (BETA * xGAPer90Home s) + ((1 - BETA) * gaPer90Home s).
Definition awayDefense (s : TeamStrength) : Q :=
  (BETA * xGAPer90Away s) + ((1 - BETA) * gaPer90Away s).

(** The five arrays filled by [teamStrengths.forEach], and their bounds. *)
Record Bounds := {
  minHomeAttack : Q; maxHomeAttack : Q;
  minAwayAttack : Q; maxAwayAttack : Q;
  minHomeDefense : Q; maxHomeDefense : Q;
  minAwayDefense : Q; maxAwayDefense : Q;
  minForm : Q; maxForm : Q
}.

Definition strengthValues (teamStrengths : gmap Z TeamStrength) : list TeamStrength :=
  (map_to_list teamStrengths).*2.

Definition computeBounds (teamStrengths : gmap Z TeamStrength) : Bounds :=
  let all := strengthValues teamStrengths in
  let allHomeAttackRatings := map homeAttack all in
  let allAwayAttackRatings := map awayAttack all in
  let allHomeDefenseRatings := map homeDefense all in
  let allAwayDefenseRatings := map awayDefense all in
  let allFormFactors := map formFactor all in
  {| minHomeAttack := Math_min allHomeAttackRatings;
     maxHomeAttack := Math_max allHomeAttackRatings;
     minAwayAttack := Math_min allAwayAttackRatings;
     maxAwayAttack := Math_max allAwayAttackRatings;
     minHomeDefense := Math_min allHomeDefenseRatings;
     maxHomeDefense := Math_max allHomeDefenseRatings;
     minAwayDefense := Math_min allAwayDefenseRatings;
     maxAwayDefense := Math_max allAwayDefenseRatings;
     minForm := Math_min allFormFactors;
     maxForm := Math_max allFormFactors |}.

(** The opponent's venue is the inverse of ours (lines 374-389). *)
Definition opponentAttackRating (fixture : Upcoming) (o : TeamStrength) : Q :=
  let opponentXG := if up_isHome fixture then xGPer90Away o else xGPer90Home o in
  let opponentGF := if up_isHome fixture then gfPer90Away o else gfPer90Home o in
  (ALPHA * opponentXG) + ((1 - ALPHA) * opponentGF).

Definition opponentDefenseRating (fixture : Upcoming) (o : TeamStrength) : Q :=
  let opponentXGA := if up_isHome fixture then xGAPer90Away o else xGAPer90Home o in
  let opponentGA := if up_isHome fixture then gaPer90Away o else gaPer90Home o in
  (BETA * opponentXGA) + ((1 - BETA) * opponentGA).

(** Lines 392-398. *)
Definition attackRatingScaled (b : Bounds) (fixture : Upcoming) (o : TeamStrength) : Q :=
  let minAttack := if up_isHome fixture then minAwayAttack b else minHomeAttack b in
  let maxAttack := if up_isHome fixture then maxAwayAttack b else maxHomeAttack b in
  scaleTo100 (opponentAttackRating fixture o) minAttack maxAttack.

Definition defenseRatingScaled (b : Bounds) (fixture : Upcoming) (o : TeamStrength) : Q :=
  let minDefense := if up_isHome fixture then minAwayDefense b else minHomeDefense b in
  let maxDefense := if up_isHome fixture then maxAwayDefense b else maxHomeDefense b in
  scaleTo100Inverted (opponentDefenseRating fixture o) minDefense maxDefense.

(** Lines 402-407. *)
Definition homeAwayFactorScaled (fixture : Upcoming) (o : TeamStrength) : Q :=
  let homeAwayBonus :=
    if up_isHome fixture then homeDefenseBonus o else - homeAttackBonus o in
  Qmax 0 (Qmin 100 (50 + (homeAwayBonus * 20))).

(** Line 410. *)
Definition formFactorScaled (b : Bounds) (o : TeamStrength) : Q :=
  scaleTo100 (formFactor o) (minForm b) (maxForm b).

(** Lines 415-419 and 423-427, over the four scaled values. *)
Definition attackRaw (defenseScaled attackScaled homeAway form : Q) : Q :=
  (defenseScaled * 0.70) + (attackScaled * 0.20) + (homeAway * 0.05) + (form * 0.05).

Definition defenseRaw (defenseScaled attackScaled homeAway form : Q) : Q :=
  (attackScaled * 0.70) + (defenseScaled * 0.20) + (homeAway * 0.05) + (form * 0.05).

(** One pass of the loop body for an opponent that has a strength record
    and a bootstrap team (lines 374-442). *)
Definition rate (b : Bounds) (fixture : Upcoming) (o : TeamStrength) (opponentTeam : Team)
  : FixtureDifficulty :=
  let attackScaled := attackRatingScaled b fixture o in
  let defenseScaled := defenseRatingScaled b fixture o in
  let homeAway := homeAwayFactorScaled fixture o in
  let form := formFactorScaled b o in
  let attackDifficultyRaw := attackRaw defenseScaled attackScaled homeAway form in
  let defenseDifficultyRaw := defenseRaw defenseScaled attackScaled homeAway form in
  {| gameweek := up_gameweek fixture;
     opponentTeamId := up_opponentTeamId fixture;
     opponentTeamName := team_name opponentTeam;
     isHome := up_isHome fixture;
     attackDifficulty := scaleToDifficulty attackDifficultyRaw;
     defenseDifficulty := scaleToDifficulty defenseDifficultyRaw;
     attackDifficultyRaw := attackDifficultyRaw;
     defenseDifficultyRaw := defenseDifficultyRaw |}.

(** [teams.find(t => t.id === id)]. *)
Definition findTeam (teams : list Team) (id : Z) : option Team :=
  List.find (fun t => Z.eqb (team_id t) id) teams.

(** The [for ... of] loop (lines 361-443): the ratings pushed and the
    warnings written, both in fixture order. *)
Fixpoint scoreLoop (teamStrengths : gmap Z TeamStrength) (teams : list Team) (b : Bounds)
    (upcomingFixtures : list Upcoming) : list FixtureDifficulty * list log_entry :=
  match upcomingFixtures with
  | [] => ([], [])
  | fixture :: rest =>
      let '(difficulties, warnings) := scoreLoop teamStrengths teams b rest in
      match teamStrengths !! up_opponentTeamId fixture with
      | None => (difficulties, WarnNoStrength (up_opponentTeamId fixture) :: warnings)
      | Some opponentStrength =>
          match findTeam teams (up_opponentTeamId fixture) with
          | None => (difficulties, warnings)
          | Some opponentTeam =>
              (rate b fixture opponentStrength opponentTeam :: difficulties, warnings)
          end
      end
  end.

(** [calculateFixtureDifficulty] once the strengths and the bootstrap
    teams are at hand. *)
Definition score (teamStrengths : gmap Z TeamStrength) (teams : list Team)
    (upcomingFixtures : list Upcoming) : list FixtureDifficulty * list log_entry :=
  scoreLoop teamStrengths teams (computeBounds teamStrengths) upcomingFixtures.

End Scorer.

(** ** The league-wide computation: [_calculateTeamStrengths] (lines 113-257) *)

(** What the backend answers to the three requests of the service.  A
    request either fails or delivers a payload of the declared shape;
    [response.data || []] makes a missing array the empty one. *)
Record Upstream := {
  understat : error + list UnderstatTeam;
  bootstrap : error + list Team;
  fixtures : error + list FPLFixture
}.

Module Strengths.

(** [x || 0] on a statistic. *)
Definition or0 (x : option Q) : Q := default 0 x.

Definition fplToUnderstatMap : gmap string string :=
  list_to_map
    [("Arsenal", "Arsenal"); ("Aston Villa", "Aston Villa");
     ("Bournemouth", "Bournemouth"); ("Brentford", "Brentford");
     ("Brighton", "Brighton"); ("Burnley", "Burnley");
     ("Chelsea", "Chelsea"); ("Crystal Palace", "Crystal Palace");
     ("Everton", "Everton"); ("Fulham", "Fulham"); ("Ipswich", "Ipswich");
     ("Leeds", "Leeds United"); ("Leicester", "Leicester");
     ("Liverpool", "Liverpool"); ("Man City", "Manchester City");
     ("Man Utd", "Manchester United"); ("Newcastle", "Newcastle United");
     ("Nott'm Forest", "Nottingham Forest"); ("Southampton", "Southampton");
     ("Spurs", "Tottenham"); ("Sunderland", "Sunderland");
     ("West Ham", "West Ham"); ("Wolves", "Wolverhampton Wanderers")]%string.

(** Lines 161-171: a row is indexed by id when [team.team_id] is truthy,
    and always by name; a later row replaces an earlier one. *)
Definition understatMapById (understatData : list UnderstatTeam) : gmap Z UnderstatTeam :=
  fold_left
    (fun m team =>
       match u_team_id team with
       | Some id => if Z.eqb id 0 then m else <[id := team]> m
       | None => m
       end)
    understatData ∅.

Definition understatMapByName (understatData : list UnderstatTeam) : gmap string UnderstatTeam :=
  fold_left (fun m team => <[u_team_name team := team]> m) understatData ∅.

(** Lines 184-190: by id first, by mapped name as the fallback. *)
Definition findUnderstat (byId : gmap Z UnderstatTeam) (byName : gmap string UnderstatTeam)
    (team : Team) : option UnderstatTeam :=
  match byId !! team_id team with
  | Some understatTeam => Some understatTeam
  | None =>
      match fplToUnderstatMap !! team_name team with
      | Some understatName => byName !! understatName
      | None => None
      end
  end.

(** Lines 198-222. *)
Definition toStrength (team : Team) (u : UnderstatTeam) : TeamStrength :=
  {| teamId := team_id team;
     teamName := team_name team;
     xGPer90 := or0 (xg_per90 u);
     xGAPer90 := or0 (xga_per90 u);
     gfPer90 := or0 (gf_per90 u);
     gaPer90 := or0 (ga_per90 u);
     xGPer90Home := or0 (home_xg_per90 u);
     xGAPer90Home := or0 (home_xga_per90 u);
     xGPer90Away := or0 (away_xg_per90 u);
     xGAPer90Away := or0 (away_xga_per90 u);
     gfPer90Home := or0 (home_gf_per90 u);
     gaPer90Home := or0 (home_ga_per90 u);
     gfPer90Away := or0 (away_gf_per90 u);
     gaPer90Away := or0 (away_ga_per90 u);
     homeAttackBonus := or0 (home_attack_bonus u);
     homeDefenseBonus := or0 (home_defense_bonus u);
     formFactor := or0 (form_factor u) |}.

(** [teams.forEach] (lines 182-227): [this.teamStrengths.set] per matched
    team, a warning per unmatched one. *)
Definition processTeams (byId : gmap Z UnderstatTeam) (byName : gmap string UnderstatTeam)
    (teams : list Team) (teamStrengths : gmap Z TeamStrength)
  : gmap Z TeamStrength * list log_entry :=
  fold_left
    (fun '(m, warnings) team =>
       match findUnderstat byId byName team with
       | None => (m, warnings ++ [WarnNoUnderstat (team_name team) (team_id team)])
       | Some understatTeam =>
           (<[team_id team := toStrength team understatTeam]> m, warnings)
       end)
    teams (teamStrengths, []).

(** The whole body.  It either throws, leaving [this.teamStrengths]
    as it was, or returns [this.teamStrengths] after the updates. *)
Definition _calculateTeamStrengths (up : Upstream) (teamStrengths : gmap Z TeamStrength)
  : error + (gmap Z TeamStrength * list log_entry) :=
  match understat up with
  | inl e => inl e
  | inr understatData =>
      if (length understatData =? 0)%nat then inl NoTeamData
      else
        match bootstrap up with
        | inl e => inl e
        | inr teams =>
            inr (processTeams (understatMapById understatData)
                   (understatMapByName understatData) teams teamStrengths)
        end
  end.

End Strengths.

(** ** The service object and its event loop (lines 57-111) *)

Definition caller := nat.

(** A pending promise, with the callers awaiting it in arrival order. *)
Record Pending := { awaiting : list caller }.

(** What a caller's promise settles to. *)
Inductive settled :=
| Fulfilled (result : gmap Z TeamStrength)
| Rejected (e : error).

Record Service := {
  teamStrengths : gmap Z TeamStrength;
  calculatingTeamStrengths : option Pending;
  fixturesCache : option (list FPLFixture);
  bootstrapCache : option (list Team)
}.

Module Loop.
Import Strengths.

(** The service together with what an observer can count: how often
    [_calculateTeamStrengths] was entered, what every call of
    [calculateTeamStrengths] settled to, and the console. *)
Record World := {
  svc : Service;
  computeCalls : nat;
  outcomes : list (caller * settled);
  console : list log_entry
}.

(** JavaScript runs one job at a time, so the interleavings of the
    callers are the sequences of two kinds of job: a caller entering
    [calculateTeamStrengths] (lines 89-101, up to its [await]), and the
    in-flight computation running to its end on the backend's answers,
    followed by the continuation of line 104 (lines 105-110). *)
Inductive job :=
| Call (c : caller)
| Settle (up : Upstream).

Definition newService : Service :=
  {| teamStrengths := ∅; calculatingTeamStrengths := None;
     fixturesCache := None; bootstrapCache := None |}.

Definition newWorld : World :=
  {| svc := newService; computeCalls := 0; outcomes := []; console := [] |}.

Definition setStrengths (s : Service) (m : gmap Z TeamStrength) (p : option Pending) : Service :=
  {| teamStrengths := m; calculatingTeamStrengths := p;
     fixturesCache := fixturesCache s; bootstrapCache := bootstrapCache s |}.

Definition call (c : caller) (w : World) : World :=
  let s := svc w in
  if (0 <? size (teamStrengths s))%nat then
    (* line 92: the cached map *)
    {| svc := s; computeCalls := computeCalls w;
       outcomes := outcomes w ++ [(c, Fulfilled (teamStrengths s))];
       console := console w |}
  else
    match calculatingTeamStrengths s with
    | Some p =>
        (* line 97: the promise already in flight *)
        {| svc := setStrengths s (teamStrengths s) (Some {| awaiting := awaiting p ++ [c] |});
           computeCalls := computeCalls w;
           outcomes := outcomes w; console := console w |}
    | None =>
        (* line 101: enter the computation and keep its promise *)
        {| svc := setStrengths s (teamStrengths s) (Some {| awaiting := [c] |});
           computeCalls := S (computeCalls w);
           outcomes := outcomes w; console := console w |}
    end.

Definition settle (up : Upstream) (w : World) : World :=
  let s := svc w in
  match calculatingTeamStrengths s with
  | None => w
  | Some p =>
      match _calculateTeamStrengths up (teamStrengths s) with
      | inl e =>
          (* line 108 *)
          {| svc := setStrengths s (teamStrengths s) None;
             computeCalls := computeCalls w;
             outcomes := outcomes w ++ map (fun c => (c, Rejected e)) (awaiting p);
             console := console w |}
      | inr (m, warnings) =>
          (* line 105 *)
          {| svc := setStrengths s m None;
             computeCalls := computeCalls w;
             outcomes := outcomes w ++ map (fun c => (c, Fulfilled m)) (awaiting p);
             console := console w ++ warnings |}
      end
  end.

Definition step (j : job) (w : World) : World :=
  match j with
  | Call c => call c w
  | Settle up => settle up w
  end.

(** A schedule gives every job the wall-clock time at which it runs.
    The service never reads a clock, so [run] does not look at it. *)
Definition run (schedule : list (Z * job)) (w : World) : World :=
  fold_left (fun w tj => step (snd tj) w) schedule w.

End Loop.

(** ** The facade (lines 300-312 and 451-480) *)

Module Facade.
Import Scorer.

(** What the comparator of line 467 subtracts: the gameweek, [0] for a
    fixture whose [event] is [null]. *)
Definition eventKey (f : FPLFixture) : Z := toNumber (event f).

(** [array.sort((a, b) => a.event - b.event)]: ascending by gameweek,
    fixtures without a gameweek first.  ECMAScript sorts stably, so the
    outcome is that of any stable sort; insertion from the right is one. *)
Fixpoint insertByEvent (f : FPLFixture) (l : list FPLFixture) : list FPLFixture :=
  match l with
  | [] => [f]
  | g :: rest =>
      if (eventKey f <=? eventKey g)%Z then f :: g :: rest
      else g :: insertByEvent f rest
  end.

Definition sortByEvent (l : list FPLFixture) : list FPLFixture :=
  foldr insertByEvent [] l.

(** [array.slice(0, count)]: a negative [count] counts from the end. *)
Definition slice0 {A} (l : list A) (count : Z) : list A :=
  if (count <? 0)%Z
  then take (Z.to_nat (Z.max (Z.of_nat (length l) + count) 0)) l
  else take (Z.to_nat count) l.

Definition involves (teamId : Z) (f : FPLFixture) : bool :=
  negb (finished f) && (Z.eqb (team_h f) teamId || Z.eqb (team_a f) teamId).

Definition toUpcoming (teamId : Z) (f : FPLFixture) : Upcoming :=
  {| up_gameweek := event f;
     up_opponentTeamId := if Z.eqb (team_h f) teamId then team_a f else team_h f;
     up_isHome := Z.eqb (team_h f) teamId |}.

(** Lines 462-473. *)
Definition teamFixtures (allFixtures : list FPLFixture) (teamId count : Z) : list Upcoming :=
  map (toUpcoming teamId)
    (slice0 (sortByEvent (filter (fun f => involves teamId f = true) allFixtures)) count).

Definition setCaches (s : Service) (fc : option (list FPLFixture)) (bc : option (list Team))
  : Service :=
  {| teamStrengths := teamStrengths s;
     calculatingTeamStrengths := calculatingTeamStrengths s;
     fixturesCache := fc; bootstrapCache := bc |}.

(** [calculateFixtureDifficulty].  [strengths] is what
    [await this.calculateTeamStrengths()] yields (line 304). *)
Definition calculateFixtureDifficulty (s : Service) (strengths : settled) (up : Upstream)
    (upcomingFixtures : list Upcoming)
  : (error + (list FixtureDifficulty * list log_entry)) * Service :=
  match strengths with
  | Rejected e => (inl e, s)
  | Fulfilled teamStrengths =>
      match bootstrapCache s with
      | Some teams => (inr (score teamStrengths teams upcomingFixtures), s)
      | None =>
          match bootstrap up with
          | inl e => (inl e, s)
          | inr teams =>
              (inr (score teamStrengths teams upcomingFixtures),
               setCaches s (fixturesCache s) (Some teams))
          end
      end
  end.

(** The default of the [count] parameter (line 451). *)
Definition defaultCount : Z := 10.

(** Lines 454-459: the fixture list, from the cache or from the backend. *)
Definition loadFixtures (s : Service) (up : Upstream)
  : error + (list FPLFixture * Service) :=
  match fixturesCache s with
  | Some allFixtures => inr (allFixtures, s)
  | None =>
      match fixtures up with
      | inl e => inl e
      | inr allFixtures =>
          inr (allFixtures, setCaches s (Some allFixtures) (bootstrapCache s))
      end
  end.

(** [getTeamUpcomingFixtures] around the [await] of line 304, whose
    value is [strengths]; [count] is [None] when the caller omits it.  Any
    failure ends in the [catch] of line 476.  The warnings are those of
    the scoring loop; what the strengths computation itself warns of goes
    to the console in [Loop.settle], and [Session.getTeamUpcomingFixtures]
    below runs the whole call, the [await] included. *)
Definition getTeamUpcomingFixtures (s : Service) (strengths : settled) (up : Upstream)
    (teamId : Z) (count : option Z)
  : list FixtureDifficulty * list log_entry * Service :=
  let count := default defaultCount count in
  match loadFixtures s up with
  | inl _ => ([], [], s)
  | inr (allFixtures, s1) =>
      match calculateFixtureDifficulty s1 strengths up (teamFixtures allFixtures teamId count) with
      | (inl _, s2) => ([], [], s2)
      | (inr (difficulties, warnings), s2) => (difficulties, warnings, s2)
      end
  end.

End Facade.

(** ** The specification's wording of the properties *)

Module Spec.
Import Scorer Loop.

(** Section 4.3, step 7: the weighted composite and its default weights. *)
Record Weights := { w1 : Q; w2 : Q; w3 : Q; w4 : Q }.

Definition defaultWeights : Weights :=
  {| w1 := 0.70; w2 := 0.20; w3 := 0.05; w4 := 0.05 |}.

Definition composite (w : Weights) (primary context homeAway form : Q) : Q :=
  primary * w1 w + context * w2 w + homeAway * w3 w + form * w4 w.

(** The fixture a rating was computed from. *)
Definition fixtureOf (r : FixtureDifficulty) : Upcoming :=
  {| up_gameweek := gameweek r;
     up_opponentTeamId := opponentTeamId r;
     up_isHome := isHome r |}.

(** Sections 4.3 and 7: a fixture is rated when its opponent has a
    strength record (and a bootstrap team to take the name from), and
    gets no rating otherwise. *)
Definition ratingOf (teamStrengths : gmap Z TeamStrength) (teams : list Team) (b : Bounds)
    (fixture : Upcoming) : option FixtureDifficulty :=
  match teamStrengths !! up_opponentTeamId fixture with
  | None => None
  | Some o =>
      match findTeam teams (up_opponentTeamId fixture) with
      | None => None
      | Some t => Some (rate b fixture o t)
      end
  end.

Definition warningOf (teamStrengths : gmap Z TeamStrength) (fixture : Upcoming)
  : option log_entry :=
  match teamStrengths !! up_opponentTeamId fixture with
  | None => Some (WarnNoStrength (up_opponentTeamId fixture))
  | Some _ => None
  end.

(** Section 4.5: scheduled order is gameweek order; a fixture without a
    gameweek sorts as gameweek 0. *)
Definition earlier (f g : FPLFixture) : Prop :=
  (Facade.eventKey f <= Facade.eventKey g)%Z.

(** The same order on the gameweeks the ratings carry. *)
Definition gameweekLe (a b : option Z) : Prop := (toNumber a <= toNumber b)%Z.

(** The bootstrap teams a call takes the opponents' names from: the ones
    the service holds, else the backend's answer. *)
Definition teamsOf (s : Service) (up : Upstream) : error + list Team :=
  match bootstrapCache s with
  | Some teams => inr teams
  | None => bootstrap up
  end.

(** What a call that awaits the strengths leaves on the console before it
    scores: nothing when the map is stored already, else the warnings of
    the computation, which has written none when it throws (the last
    [throw] can only come from line 129, the first warning from line 193). *)
Definition computationWarnings (up : Upstream) (w : World) : list log_entry :=
  if (0 <? size (teamStrengths (svc w)))%nat then []
  else
    match Strengths._calculateTeamStrengths up (teamStrengths (svc w)) with
    | inl _ => []
    | inr (_, warnings) => warnings
    end.

(** The unfinished fixtures of a team. *)
Definition unfinishedOf (teamId : Z) (allFixtures : list FPLFixture) : list FPLFixture :=
  filter (fun f => Facade.involves teamId f = true) allFixtures.

(** Callers entering [calculateTeamStrengths] one after the other, each
    at its time, with no other job in between. *)
Definition callsAt (calls : list (Z * caller)) : list (Z * job) :=
  map (fun tc => (tc.1, Call tc.2)) calls.

(** Section 4.4, lazy expiry, for a time-to-live [ttl]: a call that comes
    more than [ttl] after a non-empty result was stored enters the
    computation again. *)
Definition lazyExpiry (ttl : Z) : Prop :=
  forall (up : Upstream) (c1 c2 : caller) (stored now : Z),
    let w := run [(stored, Call c1); (stored, Settle up)] newWorld in
    (0 < size (teamStrengths (svc w)))%nat ->
    (ttl < now - stored)%Z ->
    computeCalls (run [(now, Call c2)] w) = S (computeCalls w).

End Spec.

(** ** A three-team league to evaluate the definitions on *)

Module Sample.
Import Loop.

(** A row whose home and away rates coincide: attack rate [att],
    concession rate [def], no home bonus, level form. *)
Definition row (id : Z) (name : string) (att def : Q) : UnderstatTeam :=
  {| u_team_id := Some id; u_team_name := name;
     xg_per90 := Some att; xga_per90 := Some def;
     gf_per90 := Some att; ga_per90 := Some def;
     home_xg_per90 := Some att; home_xga_per90 := Some def;
     away_xg_per90 := Some att; away_xga_per90 := Some def;
     home_gf_per90 := Some att; home_ga_per90 := Some def;
     away_gf_per90 := Some att; away_ga_per90 := Some def;
     home_attack_bonus := None; home_defense_bonus := None;
     form_factor := None |}.

Definition rows : list UnderstatTeam :=
  [row 1 "Arsenal" 0 8; row 2 "Chelsea" 7 10; row 3 "Everton" 10 0].

Definition teams : list Team :=
  [ {| team_id := 1; team_name := "Arsenal" |};
    {| team_id := 2; team_name := "Chelsea" |};
    {| team_id := 3; team_name := "Everton" |} ].

Definition fx (id gw h a : Z) (fin : bool) : FPLFixture :=
  {| fixture_id := id; event := Some gw; team_h := h; team_a := a; finished := fin |}.

(** Everton's programme: one played match, six to come, listed out of
    order, and one match of other teams. *)
Definition allFixtures : list FPLFixture :=
  [ fx 10 1 3 1 true; fx 16 7 2 3 false; fx 11 2 3 1 false;
    fx 12 3 2 3 false; fx 20 2 1 2 false; fx 13 4 3 2 false;
    fx 14 5 1 3 false; fx 15 6 3 1 false ].

Definition upstream : Upstream :=
  {| understat := inr rows; bootstrap := inr teams; fixtures := inr allFixtures |}.

(** A match of Everton that has lost its gameweek, listed last. *)
Definition postponed : FPLFixture :=
  {| fixture_id := 30; event := None; team_h := 1; team_a := 3; finished := false |}.

Definition rescheduling : Upstream :=
  {| understat := inr rows; bootstrap := inr teams;
     fixtures := inr (allFixtures ++ [postponed]) |}.

Definition offline : Upstream :=
  {| understat := inl NetworkError; bootstrap := inl NetworkError;
     fixtures := inl NetworkError |}.

(** The strengths the service computes from [upstream]. *)
Definition strengths : gmap Z TeamStrength :=
  teamStrengths (svc (run [(0%Z, Call 0%nat); (0%Z, Settle upstream)] newWorld)).

Definition away (gw opp : Z) : Upcoming :=
  {| up_gameweek := Some gw; up_opponentTeamId := opp; up_isHome := false |}.

End Sample.

(** ** The player-centred entry points (lines 68-83 and 485-517) *)

(** The fields of [Player] (types/fpl.ts) that the services read, and
    the player's name. *)
Record Player := {
  player_id : Z;
  player_name : string;
  player_team : string
}.

(** A fixture of the element-summary payload; [is_home] may be absent. *)
Record SummaryFixture := {
  sf_event : option Z;
  sf_team_h : Z;
  sf_team_a : Z;
  sf_finished : bool;
  sf_is_home : option bool
}.

Module PlayerView.
Import Scorer Facade.

(** [getPlayerHistory] on its cache, [summary] being the backend's answer
    for this player; [response.data.history || []]. *)
Definition getPlayerHistory {H : Type} (playerHistoryCache : gmap Z (list H))
    (summary : error + option (list H)) (playerId : Z)
  : list H * gmap Z (list H) :=
  match playerHistoryCache !! playerId with
  | Some history => (history, playerHistoryCache)
  | None =>
      match summary with
      | inl _ => ([], playerHistoryCache)
      | inr data =>
          let history := default [] data in
          (history, <[playerId := history]> playerHistoryCache)
      end
  end.

(** The default of the [count] parameter (line 485). *)
Definition defaultPlayerCount : Z := 5.

(** Lines 503-510. *)
Definition toPlayerUpcoming (playerTeamId : Z) (f : SummaryFixture) : Upcoming :=
  {| up_gameweek := sf_event f;
     up_opponentTeamId := if Z.eqb (sf_team_h f) playerTeamId then sf_team_a f else sf_team_h f;
     up_isHome :=
       match sf_is_home f with
       | Some h => h
       | None => Z.eqb (sf_team_h f) playerTeamId
       end |}.

Definition playerFixtures (fixtures : list SummaryFixture) (playerTeamId count : Z)
  : list Upcoming :=
  map (toPlayerUpcoming playerTeamId)
    (slice0 (filter (fun f => sf_finished f = false) fixtures) count).

End PlayerView.

(** ** A whole call, from the request to the ratings *)

Module Session.
Import Strengths Loop Facade PlayerView.

Definition withSvc (w : World) (s : Service) : World :=
  {| svc := s; computeCalls := computeCalls w;
     outcomes := outcomes w; console := console w |}.

(** [console.warn] for every line of [lines]. *)
Definition warn (w : World) (lines : list log_entry) : World :=
  {| svc := svc w; computeCalls := computeCalls w;
     outcomes := outcomes w; console := console w ++ lines |}.

(** [await this.calculateTeamStrengths()] (line 304) for caller [c], no
    job of another caller running before the promise settles: the call
    of lines 89-101 and, unless the stored map answered it (line 92), the
    computation in flight run to its end on the backend's answers [up].
    The value is what the promise of [c] settles to; callers found
    awaiting the same promise are settled with it, as in [Loop.settle]. *)
Definition awaitStrengths (c : caller) (up : Upstream) (w : World) : settled * World :=
  let w1 := call c w in
  if (0 <? size (teamStrengths (svc w)))%nat then
    (Fulfilled (teamStrengths (svc w)), w1)
  else
    (match _calculateTeamStrengths up (teamStrengths (svc w1)) with
     | inl e => Rejected e
     | inr (m, _) => Fulfilled m
     end,
     settle up w1).

(** [calculateFixtureDifficulty] (lines 300-446), the [await] included. *)
Definition calculateFixtureDifficulty (c : caller) (up : Upstream)
    (upcomingFixtures : list Upcoming) (w : World)
  : (error + list FixtureDifficulty) * World :=
  let (strengths, w1) := awaitStrengths c up w in
  match Facade.calculateFixtureDifficulty (svc w1) strengths up upcomingFixtures with
  | (inl e, s2) => (inl e, withSvc w1 s2)
  | (inr (difficulties, warnings), s2) => (inr difficulties, warn (withSvc w1 s2) warnings)
  end.

(** [getTeamUpcomingFixtures] (lines 451-480); [count] is [None] when
    the caller omits it.  Any failure ends in the [catch] of line 476. *)
Definition getTeamUpcomingFixtures (c : caller) (up : Upstream) (teamId : Z)
    (count : option Z) (w : World) : list FixtureDifficulty * World :=
  let count := default defaultCount count in
  match loadFixtures (svc w) up with
  | inl _ => ([], w)
  | inr (allFixtures, s1) =>
      match calculateFixtureDifficulty c up (teamFixtures allFixtures teamId count)
              (withSvc w s1) with
      | (inl _, w2) => ([], w2)
      | (inr difficulties, w2) => (difficulties, w2)
      end
  end.

(** [getPlayerUpcomingFixtures] (lines 485-517).  [summary] and [players]
    are the answers of the element-summary request and of
    [dataService.getPlayers()]; the bootstrap request of line 497 goes
    past [bootstrapCache]. *)
Definition getPlayerUpcomingFixtures (c : caller) (up : Upstream)
    (summary : error + option (list SummaryFixture)) (players : error + list Player)
    (playerId : Z) (count : option Z) (w : World) : list FixtureDifficulty * World :=
  let count := default defaultPlayerCount count in
  match summary with
  | inl _ => ([], w)
  | inr data =>
      let fixtures := default [] data in
      match players with
      | inl _ => ([], w)
      | inr players =>
          match List.find (fun p => Z.eqb (player_id p) playerId) players with
          | None => ([], w)
          | Some player =>
              match bootstrap up with
              | inl _ => ([], w)
              | inr teams =>
                  match List.find (fun t => String.eqb (team_name t) (player_team player)) teams with
                  | None => ([], w)
                  | Some playerTeam =>
                      match calculateFixtureDifficulty c up
                              (playerFixtures fixtures (team_id playerTeam) count) w with
                      | (inl _, w2) => ([], w2)
                      | (inr difficulties, w2) => (difficulties, w2)
                      end
                  end
              end
          end
      end
  end.

End Session.

(** ** [RecommendationsService] *)

Record UpcomingFixture := {
  opponent_id : Z;
  is_home : bool;
  uf_gameweek : Z
}.

Inductive buy_reason := trending_up | good_form.
Inductive sell_reason := trending_down | declining_form.

Record BuyRecommendation := {
  buy_player : Player;
  buyScore : Q;
  breakoutScore : Q;
  buy_trendRatio : Q;
  buy_recentXGI : Q;
  fixtureEase : Q;
  buy_upcomingFixtures : list UpcomingFixture;
  buy_reason_of : buy_reason
}.

Record SellRecommendation := {
  sell_player : Player;
  sellScore : Q;
  downfallScore : Q;
  sell_trendRatio : Q;
  sell_recentXGI : Q;
  seasonXGI : Q;
  fixtureDifficulty : Q;
  sell_upcomingFixtures : list UpcomingFixture;
  sell_reason_of : sell_reason
}.

Record CachedBuyRec := {
  cb_player_id : Z;
  cb_name : string;
  cb_web_name : string;
  cb_team : string;
  cb_team_id : Z;
  cb_position : string;
  buy_score : Q;
  breakout_score : Q;
  cb_trend_ratio : Q;
  cb_recent_xgi_per90 : Q;
  fixture_ease : Q;
  cb_upcoming_fixtures : option (list UpcomingFixture);
  cb_reason : buy_reason
}.

Record CachedSellRec := {
  cs_player_id : Z;
  cs_name : string;
  cs_web_name : string;
  cs_team : string;
  cs_team_id : Z;
  cs_position : string;
  sell_score : Q;
  downfall_score : Q;
  cs_trend_ratio : Q;
  cs_recent_xgi_per90 : Q;
  season_xgi_per90 : Q;
  fixture_difficulty : Q;
  cs_upcoming_fixtures : option (list UpcomingFixture);
  cs_reason : sell_reason
}.

(** The payload of [/api/recommendations]; either array may be missing. *)
Record RecPayload := {
  payload_buy : option (list CachedBuyRec);
  payload_sell : option (list CachedSellRec)
}.

Record RecService := {
  cachedBuy : option (list BuyRecommendation);
  cachedSell : option (list SellRecommendation);
  cacheTimestamp : Z
}.

Module Recs.

Definition CACHE_TTL : Z := 5 * 60 * 1000.

Definition newRecService : RecService :=
  {| cachedBuy := None; cachedSell := None; cacheTimestamp := 0 |}.

(** [new Map(allPlayers.map(p => [p.id, p]))]: a later player replaces an
    earlier one of the same id. *)
Definition playerMap (allPlayers : list Player) : gmap Z Player :=
  fold_left (fun m p => <[player_id p := p]> m) allPlayers ∅.

Definition toBuy (m : gmap Z Player) (cached : CachedBuyRec) : option BuyRecommendation :=
  match m !! cb_player_id cached with
  | None => None
  | Some player =>
      Some {| buy_player := player;
              buyScore := buy_score cached;
              breakoutScore := breakout_score cached;
              buy_trendRatio := cb_trend_ratio cached;
              buy_recentXGI := cb_recent_xgi_per90 cached;
              fixtureEase := fixture_ease cached;
              buy_upcomingFixtures := default [] (cb_upcoming_fixtures cached);
              buy_reason_of := cb_reason cached |}
  end.

Definition toSell (m : gmap Z Player) (cached : CachedSellRec) : option SellRecommendation :=
  match m !! cs_player_id cached with
  | None => None
  | Some player =>
      Some {| sell_player := player;
              sellScore := sell_score cached;
              downfallScore := downfall_score cached;
              sell_trendRatio := cs_trend_ratio cached;
              sell_recentXGI := cs_recent_xgi_per90 cached;
              seasonXGI := season_xgi_per90 cached;
              fixtureDifficulty := fixture_difficulty cached;
              sell_upcomingFixtures := default [] (cs_upcoming_fixtures cached);
              sell_reason_of := cs_reason cached |}
  end.

(** Line 597: the cached pair, if both lists are there and younger than
    the time-to-live. *)
Definition cachedAt (now : Z) (st : RecService)
  : option (list BuyRecommendation * list SellRecommendation) :=
  match cachedBuy st, cachedSell st with
  | Some buy, Some sell =>
      if (now - cacheTimestamp st <? CACHE_TTL)%Z then Some (buy, sell) else None
  | _, _ => None
  end.

(** [getRecommendations] called at time [now] ([Date.now()]); [response]
    and [players] are the answers of the backend and of
    [dataService.getPlayers()].  [.map(...).filter(p => p !== null)] is
    [omap]; any failure ends in the [catch] of line 658. *)
Definition getRecommendations (now : Z) (response : error + RecPayload)
    (players : error + list Player) (st : RecService)
  : (list BuyRecommendation * list SellRecommendation) * RecService :=
  match cachedAt now st with
  | Some cached => (cached, st)
  | None =>
      match response with
      | inl _ => (([], []), st)
      | inr data =>
          match players with
          | inl _ => (([], []), st)
          | inr allPlayers =>
              let m := playerMap allPlayers in
              let buyRecs := omap (toBuy m) (default [] (payload_buy data)) in
              let sellRecs := omap (toSell m) (default [] (payload_sell data)) in
              ((buyRecs, sellRecs),
               {| cachedBuy := Some buyRecs; cachedSell := Some sellRecs;
                  cacheTimestamp := now |})
          end
      end
  end.

Definition clearCache (st : RecService) : RecService :=
  {| cachedBuy := None; cachedSell := None; cacheTimestamp := 0 |}.

End Recs.

(** ** What the fixture-difficulty views compute from the ratings *)

Module View.
Import Facade.

(** [getDifficultyColor] and [getDifficultyLabel] (FixtureDifficulty.tsx,
    lines 14-28). *)
Definition getDifficultyColor (difficulty : Q) : string :=
  if Qle_bool difficulty 1.5 then "bg-green-100 text-green-800 border-green-300"
  else if Qle_bool difficulty 2.5 then "bg-lime-100 text-lime-800 border-lime-300"
  else if Qle_bool difficulty 3.5 then "bg-yellow-100 text-yellow-800 border-yellow-300"
  else if Qle_bool difficulty 4.5 then "bg-orange-100 text-orange-800 border-orange-300"
  else "bg-red-100 text-red-800 border-red-300".

Definition getDifficultyLabel (difficulty : Q) : string :=
  if Qle_bool difficulty 1.5 then "Very Easy"
  else if Qle_bool difficulty 2.5 then "Easy"
  else if Qle_bool difficulty 3.5 then "Medium"
  else if Qle_bool difficulty 4.5 then "Hard"
  else "Very Hard".

(** [getRelevantDifficulty] (lines 30-41); [!playerPosition] holds for a
    missing position and for the empty string. *)
Definition getRelevantDifficulty (playerPosition : option string) (fixture : FixtureDifficulty)
  : Q :=
  match playerPosition with
  | None => (inject_Z (attackDifficulty fixture) + inject_Z (defenseDifficulty fixture)) / 2
  | Some position =>
      if String.eqb position "" then
        (inject_Z (attackDifficulty fixture) + inject_Z (defenseDifficulty fixture)) / 2
      else if String.eqb position "FWD" || String.eqb position "MID" then
        inject_Z (attackDifficulty fixture)
      else inject_Z (defenseDifficulty fixture)
  end.

(** [Math.round]: to the nearest integer, a half going up. *)
Definition Math_round (x : Q) : Z := Qfloor (x + 0.5).

(** The cell of the league table: the rounded mean of the two ratings. *)
Definition avgDifficulty (fixture : FixtureDifficulty) : Z :=
  Math_round ((inject_Z (attackDifficulty fixture) + inject_Z (defenseDifficulty fixture)) / 2).

(** One entry of [teamAverages]: the means over the first [maxFixtures]
    ratings, and 0 for a team without any. *)
Definition teamAverage (fixtures : list FixtureDifficulty) (maxFixtures : Z) : Q * Q :=
  let nextFixtures := slice0 fixtures maxFixtures in
  if (length nextFixtures =? 0)%nat then (0, 0)
  else
    let n := inject_Z (Z.of_nat (length nextFixtures)) in
    (fold_left (fun sum f => sum + inject_Z (attackDifficulty f)) nextFixtures 0 / n,
     fold_left (fun sum f => sum + inject_Z (defenseDifficulty f)) nextFixtures 0 / n).

(** [toggleTeamVisibility] on the set of hidden teams. *)
Definition toggleTeamVisibility (hiddenTeams : gset Z) (teamId : Z) : gset Z :=
  if decide (teamId ∈ hiddenTeams) then hiddenTeams ∖ {[teamId]}
  else hiddenTeams ∪ {[teamId]}.

(** [gameweeks.add(x)] on the elements of a [Set] in insertion order: a
    value the set holds already is not added again. *)
Definition setAdd (gameweeks : list (option Z)) (x : option Z) : list (option Z) :=
  if decide (x ∈ gameweeks) then gameweeks else gameweeks ++ [x].

(** [array.sort((a, b) => a - b)], stable as every ECMAScript sort;
    [null] counts as [0] in the subtraction. *)
Fixpoint insertNumber (x : option Z) (l : list (option Z)) : list (option Z) :=
  match l with
  | [] => [x]
  | y :: rest =>
      if (toNumber x <=? toNumber y)%Z then x :: y :: rest
      else y :: insertNumber x rest
  end.

Definition sortNumbers (l : list (option Z)) : list (option Z) :=
  foldr insertNumber [] l.

(** [allGameweeks]: the distinct gameweeks of all ratings, ascending, cut
    to [maxFixtures]. *)
Definition allGameweeks (teamFixtures : list (list FixtureDifficulty)) (maxFixtures : Z)
  : list (option Z) :=
  slice0 (sortNumbers (fold_left setAdd (gameweek <$> concat teamFixtures) []))
    maxFixtures.

(** The batches of [loadAllTeamFixtures]: [teams.slice(i, i + batchSize)]
    for [i = 0, batchSize, ...] below [teams.length].  [fuel] bounds the
    number of rounds; [length teams] rounds always suffice. *)
Fixpoint batchesFrom {A} (fuel : nat) (batchSize i : nat) (teams : list A) : list (list A) :=
  match fuel with
  | O => []
  | S fuel' =>
      if (i <? length teams)%nat
      then take batchSize (drop i teams) :: batchesFrom fuel' batchSize (i + batchSize) teams
      else []
  end.

Definition batchSize : nat := 3.

Definition batches {A} (teams : list A) : list (list A) :=
  batchesFrom (length teams) batchSize 0 teams.

End View.

(** ** Reading a schedule and a world *)

Module Observe.
Import Loop.

(** The callers of the [Call] jobs of a schedule, in order. *)
Definition callersOf (schedule : list (Z * job)) : list caller :=
  omap (fun tj => match tj.2 with Call c => Some c | Settle _ => None end) schedule.

(** The number of [Settle] jobs of a schedule. *)
Definition settlesIn (schedule : list (Z * job)) : nat :=
  length (omap (fun tj => match tj.2 with Call _ => None | Settle up => Some up end) schedule).

(** The callers waiting on the promise in flight. *)
Definition pending (w : World) : list caller :=
  match calculatingTeamStrengths (svc w) with
  | Some p => awaiting p
  | None => []
  end.

(** 1 while a computation is in flight. *)
Definition inFlight (w : World) : nat :=
  match calculatingTeamStrengths (svc w) with
  | Some _ => 1
  | None => 0
  end.

(** No promise is stored while the map is non-empty. *)
Definition settledWhenFilled (w : World) : Prop :=
  (0 < size (teamStrengths (svc w)))%nat -> calculatingTeamStrengths (svc w) = None.

End Observe.

(** * Properties *)

(** ** Scaling and bucketing *)

Section ScaleFacts.
Import Scale.

Lemma Qeq_bool_false_neq (x y : Q) : Qeq_bool x y = false -> ~ x == y.
Proof. intros H E. apply Qeq_bool_iff in E. congruence. Qed.

Lemma Qle_bool_false_lt (x y : Q) : Qle_bool x y = false -> y < x.
Proof.
  intros H. apply Qnot_le_lt. intros E. apply Qle_bool_iff in E. congruence.
Qed.

Lemma scaleTo100_degenerate (v m : Q) : scaleTo100 v m m = 50.
Proof. unfold scaleTo100. now rewrite Qeq_bool_refl. Qed.

Lemma scaleTo100Inverted_degenerate (v m : Q) : scaleTo100Inverted v m m = 50.
Proof. unfold scaleTo100Inverted. now rewrite Qeq_bool_refl. Qed.

Lemma scaleTo100_regular (v mn mx : Q) :
  ~ mx == mn -> scaleTo100 v mn mx = ((v - mn) / (mx - mn)) * 100.
Proof.
  intros H. unfold scaleTo100.
  destruct (Qeq_bool mx mn) eqn:E; [|reflexivity].
  apply Qeq_bool_iff in E. contradiction.
Qed.

Lemma scaleTo100Inverted_regular (v mn mx : Q) :
  ~ mx == mn -> scaleTo100Inverted v mn mx = ((mx - v) / (mx - mn)) * 100.
Proof.
  intros H. unfold scaleTo100Inverted.
  destruct (Qeq_bool mx mn) eqn:E; [|reflexivity].
  apply Qeq_bool_iff in E. contradiction.
Qed.

(** Both scalings stay within 0..100 on values between the bounds. *)
Lemma scaleTo100_range (v mn mx : Q) :
  mn <= v -> v <= mx -> 0 <= scaleTo100 v mn mx /\ scaleTo100 v mn mx <= 100.
Proof.
  intros Hlo Hhi. unfold scaleTo100.
  destruct (Qeq_bool mx mn) eqn:E; [split; lra|].
  apply Qeq_bool_false_neq in E.
  assert (Hpos : 0 < mx - mn) by lra.
  assert (H0 : 0 <= (v - mn) / (mx - mn)) by (apply Qle_shift_div_l; [exact Hpos|lra]).
  assert (H1 : (v - mn) / (mx - mn) <= 1) by (apply Qle_shift_div_r; [exact Hpos|lra]).
  split; lra.
Qed.

Lemma scaleTo100Inverted_range (v mn mx : Q) :
  mn <= v -> v <= mx ->
  0 <= scaleTo100Inverted v mn mx /\ scaleTo100Inverted v mn mx <= 100.
Proof.
  intros Hlo Hhi. unfold scaleTo100Inverted.
  destruct (Qeq_bool mx mn) eqn:E; [split; lra|].
  apply Qeq_bool_false_neq in E.
  assert (Hpos : 0 < mx - mn) by lra.
  assert (H0 : 0 <= (mx - v) / (mx - mn)) by (apply Qle_shift_div_l; [exact Hpos|lra]).
  assert (H1 : (mx - v) / (mx - mn) <= 1) by (apply Qle_shift_div_r; [exact Hpos|lra]).
  split; lra.
Qed.

Lemma scaleToDifficulty_bucket (raw : Q) : bucket_of raw (scaleToDifficulty raw).
Proof.
  unfold scaleToDifficulty.
  destruct (Qle_bool raw 20) eqn:E1.
  { apply bucket_1. now apply Qle_bool_iff. }
  apply Qle_bool_false_lt in E1.
  destruct (Qle_bool raw 40) eqn:E2.
  { apply bucket_2; [exact E1|now apply Qle_bool_iff]. }
  apply Qle_bool_false_lt in E2.
  destruct (Qle_bool raw 60) eqn:E3.
  { apply bucket_3; [exact E2|now apply Qle_bool_iff]. }
  apply Qle_bool_false_lt in E3.
  destruct (Qle_bool raw 80) eqn:E4.
  { apply bucket_4; [exact E3|now apply Qle_bool_iff]. }
  apply Qle_bool_false_lt in E4.
  now apply bucket_5.
Qed.

Lemma bucket_of_unique (raw : Q) (a b : Z) :
  bucket_of raw a -> bucket_of raw b -> a = b.
Proof. intros Ha Hb. destruct Ha; destruct Hb; try reflexivity; lra. Qed.

(** C3: the integer bucket of a raw composite is 1 up to 20, 2 up to 40,
    3 up to 60, 4 up to 80 and 5 above, each boundary belonging to the
    lower bucket; so 20 gives 1, 20.01 gives 2, 40 gives 2, 60 gives 3,
    80 gives 4, 80.01 gives 5, 100 gives 5 and 0 gives 1. *)
Theorem scaleToDifficulty_table :
  (forall (raw : Q) (d : Z), scaleToDifficulty raw = d <-> bucket_of raw d) /\
  scaleToDifficulty 20 = 1%Z /\
  scaleToDifficulty 20.01 = 2%Z /\
  scaleToDifficulty 40 = 2%Z /\
  scaleToDifficulty 60 = 3%Z /\
  scaleToDifficulty 80 = 4%Z /\
  scaleToDifficulty 80.01 = 5%Z /\
  scaleToDifficulty 100 = 5%Z /\
  scaleToDifficulty 0 = 1%Z.
Proof.
  split; [|repeat split; reflexivity].
  intros raw d. split.
  - intros <-. apply scaleToDifficulty_bucket.
  - intros H. exact (bucket_of_unique raw _ _ (scaleToDifficulty_bucket raw) H).
Qed.




End ScaleFacts.

(** ** The scorer *)

Section ScorerFacts.
Import Scale Scorer Spec.

Lemma fold_Qmin_le_init (xs : list Q) (x : Q) : fold_left Qmin xs x <= x.
Proof.
  revert x. induction xs as [|y ys IH]; intros x; simpl.
  - lra.
  - specialize (IH (Qmin x y)). pose proof (Q.le_min_l x y). lra.
Qed.

Lemma fold_Qmin_le_elem (xs : list Q) (x y : Q) : y ∈ xs -> fold_left Qmin xs x <= y.
Proof.
  revert x. induction xs as [|z zs IH]; intros x Hin.
  - inversion Hin.
  - simpl. apply elem_of_cons in Hin as [->|Hin].
    + pose proof (fold_Qmin_le_init zs (Qmin x z)).
      pose proof (Q.le_min_r x z). lra.
    + now apply IH.
Qed.

Lemma fold_Qmax_ge_init (xs : list Q) (x : Q) : x <= fold_left Qmax xs x.
Proof.
  revert x. induction xs as [|y ys IH]; intros x; simpl.
  - lra.
  - specialize (IH (Qmax x y)). pose proof (Q.le_max_l x y). lra.
Qed.

Lemma fold_Qmax_ge_elem (xs : list Q) (x y : Q) : y ∈ xs -> y <= fold_left Qmax xs x.
Proof.
  revert x. induction xs as [|z zs IH]; intros x Hin.
  - inversion Hin.
  - simpl. apply elem_of_cons in Hin as [->|Hin].
    + pose proof (fold_Qmax_ge_init zs (Qmax x z)).
      pose proof (Q.le_max_r x z). lra.
    + now apply IH.
Qed.

(** A member of an array lies between its [Math.min] and [Math.max]. *)
Lemma Math_min_max_bound (l : list Q) (y : Q) :
  y ∈ l -> Math_min l <= y /\ y <= Math_max l.
Proof.
  destruct l as [|x xs]; intros Hin; [inversion Hin|].
  simpl. apply elem_of_cons in Hin as [->|Hin].
  - split; [apply fold_Qmin_le_init|apply fold_Qmax_ge_init].
  - split; [now apply fold_Qmin_le_elem|now apply fold_Qmax_ge_elem].
Qed.

Lemma strengthValues_lookup (m : gmap Z TeamStrength) (id : Z) (o : TeamStrength) :
  m !! id = Some o -> o ∈ strengthValues m.
Proof.
  intros H. unfold strengthValues.
  apply list_elem_of_fmap. exists (id, o). split; [reflexivity|].
  now apply elem_of_map_to_list.
Qed.

Lemma pool_bound (f : TeamStrength -> Q) (m : gmap Z TeamStrength) (id : Z) (o : TeamStrength) :
  m !! id = Some o ->
  Math_min (map f (strengthValues m)) <= f o /\ f o <= Math_max (map f (strengthValues m)).
Proof.
  intros H. apply Math_min_max_bound.
  apply (list_elem_of_fmap_2 f). now apply (strengthValues_lookup m id).
Qed.

(** The opponent's venue-correct ratings are members of the pools whose
    bounds they are scaled with. *)
Lemma attackRatingScaled_range (m : gmap Z TeamStrength) (id : Z) (fixture : Upcoming)
    (o : TeamStrength) :
  m !! id = Some o ->
  0 <= attackRatingScaled (computeBounds m) fixture o /\
  attackRatingScaled (computeBounds m) fixture o <= 100.
Proof.
  intros H. unfold attackRatingScaled, opponentAttackRating.
  destruct (up_isHome fixture); simpl.
  - destruct (pool_bound awayAttack m id o H). now apply scaleTo100_range.
  - destruct (pool_bound homeAttack m id o H). now apply scaleTo100_range.
Qed.

Lemma defenseRatingScaled_range (m : gmap Z TeamStrength) (id : Z) (fixture : Upcoming)
    (o : TeamStrength) :
  m !! id = Some o ->
  0 <= defenseRatingScaled (computeBounds m) fixture o /\
  defenseRatingScaled (computeBounds m) fixture o <= 100.
Proof.
  intros H. unfold defenseRatingScaled, opponentDefenseRating.
  destruct (up_isHome fixture); simpl.
  - destruct (pool_bound awayDefense m id o H). now apply scaleTo100Inverted_range.
  - destruct (pool_bound homeDefense m id o H). now apply scaleTo100Inverted_range.
Qed.

Lemma formFactorScaled_range (m : gmap Z TeamStrength) (id : Z) (o : TeamStrength) :
  m !! id = Some o ->
  0 <= formFactorScaled (computeBounds m) o /\ formFactorScaled (computeBounds m) o <= 100.
Proof.
  intros H. unfold formFactorScaled. simpl.
  destruct (pool_bound formFactor m id o H). now apply scaleTo100_range.
Qed.

Lemma homeAwayFactorScaled_range (fixture : Upcoming) (o : TeamStrength) :
  0 <= homeAwayFactorScaled fixture o /\ homeAwayFactorScaled fixture o <= 100.
Proof.
  unfold homeAwayFactorScaled. split.
  - apply Q.le_max_l.
  - apply Q.max_lub; [lra|apply Q.le_min_l].
Qed.

(** With no strengths at all nothing is rated, so the stand-in bounds of
    the empty arrays are never used. *)
Lemma ratingOf_empty (m : gmap Z TeamStrength) (teams : list Team) (b : Bounds)
    (fixture : Upcoming) :
  strengthValues m = [] -> ratingOf m teams b fixture = None.
Proof.
  intros Hempty. unfold ratingOf.
  destruct (m !! up_opponentTeamId fixture) as [o|] eqn:Ho; [|reflexivity].
  apply strengthValues_lookup in Ho. rewrite Hempty in Ho. inversion Ho.
Qed.

(** The loop rates exactly the fixtures [ratingOf] rates, in order, and
    warns exactly where [warningOf] does. *)
Lemma scoreLoop_ratings (m : gmap Z TeamStrength) (teams : list Team) (b : Bounds)
    (l : list Upcoming) :
  (scoreLoop m teams b l).1 = omap (ratingOf m teams b) l.
Proof.
  induction l as [|fixture rest IH]; [reflexivity|].
  simpl. destruct (scoreLoop m teams b rest) as [ds ws]. simpl in IH.
  unfold ratingOf.
  destruct (m !! up_opponentTeamId fixture); [|exact IH].
  destruct (findTeam teams (up_opponentTeamId fixture)); simpl; [|exact IH].
  now rewrite IH.
Qed.

Lemma scoreLoop_warnings (m : gmap Z TeamStrength) (teams : list Team) (b : Bounds)
    (l : list Upcoming) :
  (scoreLoop m teams b l).2 = omap (warningOf m) l.
Proof.
  induction l as [|fixture rest IH]; [reflexivity|].
  simpl. destruct (scoreLoop m teams b rest) as [ds ws]. simpl in IH.
  unfold warningOf.
  destruct (m !! up_opponentTeamId fixture); simpl; [|now rewrite IH].
  destruct (findTeam teams (up_opponentTeamId fixture)); simpl; exact IH.
Qed.

Lemma score_empty (m : gmap Z TeamStrength) (teams : list Team) (l : list Upcoming) :
  strengthValues m = [] -> (score m teams l).1 = [].
Proof.
  intros Hempty. unfold score. rewrite scoreLoop_ratings.
  induction l as [|f rest IH]; simpl; [reflexivity|].
  now rewrite (ratingOf_empty m teams _ f Hempty).
Qed.

(** Where a rating comes from. *)
Lemma score_origin (m : gmap Z TeamStrength) (teams : list Team) (l : list Upcoming)
    (r : FixtureDifficulty) :
  r ∈ (score m teams l).1 ->
  exists fixture o t,
    fixture ∈ l /\ m !! up_opponentTeamId fixture = Some o /\
    findTeam teams (up_opponentTeamId fixture) = Some t /\
    r = rate (computeBounds m) fixture o t.
Proof.
  unfold score. rewrite scoreLoop_ratings. intros Hin.
  apply list_elem_of_omap in Hin as (fixture & Hf & Hr).
  unfold ratingOf in Hr.
  destruct (m !! up_opponentTeamId fixture) as [o|] eqn:Ho; [|discriminate].
  destruct (findTeam teams (up_opponentTeamId fixture)) as [t|] eqn:Ht; [|discriminate].
  exists fixture, o, t. repeat split; try assumption. congruence.
Qed.

End ScorerFacts.

Section ScorerClaims.
Import Scale Scorer Spec Facade.

Lemma attackRaw_composite (d a h f : Q) :
  attackRaw d a h f = composite defaultWeights d a h f.
Proof. reflexivity. Qed.

Lemma defenseRaw_composite (d a h f : Q) :
  defenseRaw d a h f = composite defaultWeights a d h f.
Proof. reflexivity. Qed.

Lemma composite_range (w : Weights) (p c h f : Q) :
  0 <= w1 w -> 0 <= w2 w -> 0 <= w3 w -> 0 <= w4 w ->
  w1 w + w2 w + w3 w + w4 w == 1 ->
  0 <= p <= 100 -> 0 <= c <= 100 -> 0 <= h <= 100 -> 0 <= f <= 100 ->
  0 <= composite w p c h f <= 100.
Proof.
  intros H1 H2 H3 H4 Hsum [Hp0 Hp] [Hc0 Hc] [Hh0 Hh] [Hf0 Hf].
  unfold composite. split.
  - pose proof (Qmult_le_0_compat p (w1 w) Hp0 H1).
    pose proof (Qmult_le_0_compat c (w2 w) Hc0 H2).
    pose proof (Qmult_le_0_compat h (w3 w) Hh0 H3).
    pose proof (Qmult_le_0_compat f (w4 w) Hf0 H4).
    lra.
  - assert (p * w1 w <= 100 * w1 w) by (apply Qmult_le_compat_r; assumption).
    assert (c * w2 w <= 100 * w2 w) by (apply Qmult_le_compat_r; assumption).
    assert (h * w3 w <= 100 * w3 w) by (apply Qmult_le_compat_r; assumption).
    assert (f * w4 w <= 100 * w4 w) by (apply Qmult_le_compat_r; assumption).
    lra.
Qed.

Lemma fixtureOf_rate (b : Bounds) (fixture : Upcoming) (o : TeamStrength) (t : Team) :
  fixtureOf (rate b fixture o t) = fixture.
Proof. destruct fixture. reflexivity. Qed.

(** C1: the raw attack difficulty of every scored fixture is the weighted
    composite of the opponent's scaled defense rating (weight 0.70), scaled
    attack rating (0.20), the home/away factor (0.05) and the scaled form
    (0.05); these default weights sum to 1. *)
Theorem attackDifficultyRaw_weighted (m : gmap Z TeamStrength) (teams : list Team)
    (upcoming : list Upcoming) (r : FixtureDifficulty) :
  r ∈ (score m teams upcoming).1 ->
  (w1 defaultWeights == 0.70 /\ w2 defaultWeights == 0.20 /\
   w3 defaultWeights == 0.05 /\ w4 defaultWeights == 0.05 /\
   w1 defaultWeights + w2 defaultWeights + w3 defaultWeights + w4 defaultWeights == 1) /\
  exists fixture o,
    fixture ∈ upcoming /\ fixtureOf r = fixture /\
    m !! up_opponentTeamId fixture = Some o /\
    attackDifficultyRaw r ==
      defenseRatingScaled (computeBounds m) fixture o * 0.70 +
      attackRatingScaled (computeBounds m) fixture o * 0.20 +
      homeAwayFactorScaled fixture o * 0.05 +
      formFactorScaled (computeBounds m) o * 0.05 /\
    attackDifficultyRaw r ==
      composite defaultWeights
        (defenseRatingScaled (computeBounds m) fixture o)
        (attackRatingScaled (computeBounds m) fixture o)
        (homeAwayFactorScaled fixture o)
        (formFactorScaled (computeBounds m) o).
Proof.
  intros Hin. split; [repeat split; reflexivity|].
  destruct (score_origin m teams upcoming r Hin) as (fixture & o & t & Hf & Ho & _ & ->).
  exists fixture, o. rewrite fixtureOf_rate.
  repeat split; try assumption; reflexivity.
Qed.

Lemma attackDifficultyRaw_weighted_witness :
  let chelsea := {| team_id := 2; team_name := "Chelsea" |} in
  let upcoming := [Sample.away 1 1; Sample.away 2 2] in
  let r := rate (computeBounds Sample.strengths) (Sample.away 2 2)
             (Strengths.toStrength chelsea (Sample.row 2 "Chelsea" 7 10)) chelsea in
  r ∈ (score Sample.strengths Sample.teams upcoming).1 /\
  exists fixture o,
    fixture ∈ upcoming /\
    Sample.strengths !! up_opponentTeamId fixture = Some o /\
    attackDifficultyRaw r ==
      composite defaultWeights
        (defenseRatingScaled (computeBounds Sample.strengths) fixture o)
        (attackRatingScaled (computeBounds Sample.strengths) fixture o)
        (homeAwayFactorScaled fixture o)
        (formFactorScaled (computeBounds Sample.strengths) o).
Proof.
  intros chelsea upcoming r.
  assert (Hin : r ∈ (score Sample.strengths Sample.teams upcoming).1).
  { vm_compute. apply list_elem_of_further, list_elem_of_here. }
  split; [exact Hin|].
  destruct (attackDifficultyRaw_weighted _ _ _ _ Hin)
    as (_ & fixture & o & Hf & _ & Ho & _ & Hc).
  exists fixture, o. split; [exact Hf|]. split; [exact Ho|exact Hc].
Defined.

(** C2: defense difficulty mirrors attack difficulty.  For every scored
    fixture the raw defense difficulty is the same composite with the
    opponent's scaled attack as the 0.70 term and the scaled defense as
    the 0.20 term, the home/away and form terms unchanged, so swapping the
    two scaled inputs of one composite gives the other; and it is no
    function of the attack difficulty: two fixtures of one league have
    equal raw attack difficulty and different raw defense difficulty. *)
Theorem defenseDifficultyRaw_mirror (m : gmap Z TeamStrength) (teams : list Team)
    (upcoming : list Upcoming) (r : FixtureDifficulty) :
  (forall d a h f : Q, defenseRaw d a h f == attackRaw a d h f) /\
  (r ∈ (score m teams upcoming).1 ->
   exists fixture o,
     fixture ∈ upcoming /\ fixtureOf r = fixture /\
     m !! up_opponentTeamId fixture = Some o /\
     let d := defenseRatingScaled (computeBounds m) fixture o in
     let a := attackRatingScaled (computeBounds m) fixture o in
     let h := homeAwayFactorScaled fixture o in
     let f := formFactorScaled (computeBounds m) o in
     attackDifficultyRaw r == d * 0.70 + a * 0.20 + h * 0.05 + f * 0.05 /\
     defenseDifficultyRaw r == a * 0.70 + d * 0.20 + h * 0.05 + f * 0.05 /\
     attackDifficultyRaw r == composite defaultWeights d a h f /\
     defenseDifficultyRaw r == composite defaultWeights a d h f) /\
  (exists r1 r2,
     r1 ∈ (score Sample.strengths Sample.teams [Sample.away 1 1; Sample.away 2 2]).1 /\
     r2 ∈ (score Sample.strengths Sample.teams [Sample.away 1 1; Sample.away 2 2]).1 /\
     attackDifficultyRaw r1 == attackDifficultyRaw r2 /\
     ~ defenseDifficultyRaw r1 == defenseDifficultyRaw r2).
Proof.
  split; [|split].
  - intros d a h f. reflexivity.
  - intros Hin.
    destruct (score_origin m teams upcoming r Hin) as (fixture & o & t & Hf & Ho & _ & ->).
    exists fixture, o. rewrite fixtureOf_rate.
    repeat split; try assumption; reflexivity.
  - destruct (score Sample.strengths Sample.teams [Sample.away 1 1; Sample.away 2 2]).1
      as [|r1 [|r2 rest]] eqn:E; try (vm_compute in E; discriminate).
    exists r1, r2. split; [apply list_elem_of_here|].
    split; [apply list_elem_of_further, list_elem_of_here|].
    vm_compute in E. injection E as <- <- _.
    split; [reflexivity|]. intros Heq. vm_compute in Heq. discriminate.
Qed.

Lemma defenseDifficultyRaw_mirror_witness :
  let arsenal := {| team_id := 1; team_name := "Arsenal" |} in
  let upcoming := [Sample.away 1 1; Sample.away 2 2] in
  let r := rate (computeBounds Sample.strengths) (Sample.away 1 1)
             (Strengths.toStrength arsenal (Sample.row 1 "Arsenal" 0 8)) arsenal in
  r ∈ (score Sample.strengths Sample.teams upcoming).1 /\
  exists fixture o,
    fixture ∈ upcoming /\
    Sample.strengths !! up_opponentTeamId fixture = Some o /\
    defenseDifficultyRaw r ==
      composite defaultWeights
        (attackRatingScaled (computeBounds Sample.strengths) fixture o)
        (defenseRatingScaled (computeBounds Sample.strengths) fixture o)
        (homeAwayFactorScaled fixture o)
        (formFactorScaled (computeBounds Sample.strengths) o).
Proof.
  intros arsenal upcoming r.
  assert (Hin : r ∈ (score Sample.strengths Sample.teams upcoming).1).
  { vm_compute. apply list_elem_of_here. }
  split; [exact Hin|].
  destruct (proj1 (proj2 (defenseDifficultyRaw_mirror _ _ _ _)) Hin)
    as (fixture & o & Hf & _ & Ho & _ & _ & _ & Hc).
  exists fixture, o. split; [exact Hf|]. split; [exact Ho|exact Hc].
Defined.

(** C9: every rating returned for a fixture whose opponent is in the
    strengths map has both raw difficulties between 0 and 100: the
    opponent's blended ratings and form lie within the bounds of their
    pools, the home/away factor is clamped, and the weights are
    non-negative and sum to 1. *)
Theorem raw_difficulty_range (m : gmap Z TeamStrength) (teams : list Team)
    (upcoming : list Upcoming) (r : FixtureDifficulty) :
  r ∈ (score m teams upcoming).1 ->
  (0 <= attackDifficultyRaw r /\ attackDifficultyRaw r <= 100) /\
  (0 <= defenseDifficultyRaw r /\ defenseDifficultyRaw r <= 100).
Proof.
  intros Hin.
  destruct (score_origin m teams upcoming r Hin) as (fixture & o & t & Hf & Ho & _ & ->).
  pose proof (attackRatingScaled_range m _ fixture o Ho) as Ha.
  pose proof (defenseRatingScaled_range m _ fixture o Ho) as Hd.
  pose proof (formFactorScaled_range m _ o Ho) as Hform.
  pose proof (homeAwayFactorScaled_range fixture o) as Hh.
  assert (Hw : w1 defaultWeights + w2 defaultWeights + w3 defaultWeights
               + w4 defaultWeights == 1) by reflexivity.
  simpl attackDifficultyRaw. simpl defenseDifficultyRaw.
  rewrite attackRaw_composite, defenseRaw_composite.
  split; apply composite_range; try assumption; simpl; lra.
Qed.

Lemma raw_difficulty_range_witness :
  let everton := {| team_id := 3; team_name := "Everton" |} in
  let upcoming := [Sample.away 4 9; Sample.away 3 3] in
  let r := rate (computeBounds Sample.strengths) (Sample.away 3 3)
             (Strengths.toStrength everton (Sample.row 3 "Everton" 10 0)) everton in
  r ∈ (score Sample.strengths Sample.teams upcoming).1 /\
  (0 <= attackDifficultyRaw r /\ attackDifficultyRaw r <= 100) /\
  (0 <= defenseDifficultyRaw r /\ defenseDifficultyRaw r <= 100).
Proof.
  intros everton upcoming r.
  assert (Hin : r ∈ (score Sample.strengths Sample.teams upcoming).1).
  { vm_compute. apply list_elem_of_here. }
  split; [exact Hin|].
  exact (raw_difficulty_range _ _ _ _ Hin).
Defined.

End ScorerClaims.

Section SkipClaims.
Import Scale Scorer Spec Facade.

Lemma score_ratings_skip (m : gmap Z TeamStrength) (teams : list Team)
    (l1 l2 : list Upcoming) (f : Upcoming) :
  m !! up_opponentTeamId f = None ->
  (score m teams (l1 ++ f :: l2)).1 = (score m teams (l1 ++ l2)).1.
Proof.
  intros Hnone. unfold score. rewrite !scoreLoop_ratings, !omap_app.
  f_equal. simpl. unfold ratingOf at 1. now rewrite Hnone.
Qed.

Lemma score_warns_unmapped (m : gmap Z TeamStrength) (teams : list Team)
    (l : list Upcoming) (f : Upcoming) :
  f ∈ l -> m !! up_opponentTeamId f = None ->
  WarnNoStrength (up_opponentTeamId f) ∈ (score m teams l).2.
Proof.
  intros Hin Hnone. unfold score. rewrite scoreLoop_warnings.
  apply list_elem_of_omap. exists f. split; [exact Hin|].
  unfold warningOf. now rewrite Hnone.
Qed.

Lemma score_rates_mapped (m : gmap Z TeamStrength) (teams : list Team)
    (l : list Upcoming) (g : Upcoming) (o : TeamStrength) (t : Team) :
  g ∈ l -> m !! up_opponentTeamId g = Some o ->
  findTeam teams (up_opponentTeamId g) = Some t ->
  rate (computeBounds m) g o t ∈ (score m teams l).1.
Proof.
  intros Hin Ho Ht. unfold score. rewrite scoreLoop_ratings.
  apply list_elem_of_omap. exists g. split; [exact Hin|].
  unfold ratingOf. now rewrite Ho, Ht.
Qed.

(** C10: a fixture whose opponent has no entry in the strengths map is
    skipped: the call still succeeds, its ratings are those of the list
    without that fixture, none of them is for the unmapped opponent, a
    warning naming the opponent is written, and every other fixture whose
    opponent is known is rated. *)
Theorem unmapped_opponent_skipped (s : Service) (m : gmap Z TeamStrength) (up : Upstream)
    (teams : list Team) (l1 l2 : list Upcoming) (f : Upcoming) :
  m !! up_opponentTeamId f = None ->
  (bootstrapCache s = Some teams \/
   (bootstrapCache s = None /\ bootstrap up = inr teams)) ->
  exists ds ws s',
    calculateFixtureDifficulty s (Fulfilled m) up (l1 ++ f :: l2) = (inr (ds, ws), s') /\
    ds = (score m teams (l1 ++ l2)).1 /\
    WarnNoStrength (up_opponentTeamId f) ∈ ws /\
    (forall r, r ∈ ds -> opponentTeamId r <> up_opponentTeamId f) /\
    (forall g o t,
       g ∈ l1 ++ l2 -> m !! up_opponentTeamId g = Some o ->
       findTeam teams (up_opponentTeamId g) = Some t ->
       rate (computeBounds m) g o t ∈ ds).
Proof.
  intros Hnone Hteams.
  assert (Hcall : exists s',
    calculateFixtureDifficulty s (Fulfilled m) up (l1 ++ f :: l2)
    = (inr (score m teams (l1 ++ f :: l2)), s')).
  { unfold calculateFixtureDifficulty.
    destruct Hteams as [-> | [-> ->]]; eexists; reflexivity. }
  destruct Hcall as [s' Hcall].
  exists (score m teams (l1 ++ f :: l2)).1, (score m teams (l1 ++ f :: l2)).2, s'.
  split; [rewrite Hcall; now destruct (score m teams (l1 ++ f :: l2))|].
  split; [now apply score_ratings_skip|].
  split.
  { apply score_warns_unmapped; [|exact Hnone].
    apply elem_of_app. right. apply list_elem_of_here. }
  rewrite score_ratings_skip by exact Hnone.
  split.
  - intros r Hr Heq.
    destruct (score_origin m teams _ r Hr) as (g & o & t & _ & Ho & _ & ->).
    simpl in Heq. rewrite Heq in Ho. congruence.
  - intros g o t Hg Ho Ht. now apply score_rates_mapped.
Qed.

Lemma unmapped_opponent_skipped_witness :
  Sample.strengths !! up_opponentTeamId (Sample.away 4 9) = None /\
  exists ds ws s',
    calculateFixtureDifficulty Loop.newService (Fulfilled Sample.strengths) Sample.upstream
      ([Sample.away 1 1] ++ Sample.away 4 9 :: [Sample.away 3 3]) = (inr (ds, ws), s') /\
    ds = (score Sample.strengths Sample.teams ([Sample.away 1 1] ++ [Sample.away 3 3])).1 /\
    WarnNoStrength 9 ∈ ws.
Proof.
  assert (Hnone : Sample.strengths !! up_opponentTeamId (Sample.away 4 9) = None)
    by (vm_compute; reflexivity).
  split; [exact Hnone|].
  destruct (unmapped_opponent_skipped Loop.newService Sample.strengths Sample.upstream
              Sample.teams [Sample.away 1 1] [Sample.away 3 3] (Sample.away 4 9) Hnone)
    as (ds & ws & s' & Hcall & Hds & Hw & _).
  { right. split; reflexivity. }
  exists ds, ws, s'. split; [exact Hcall|]. split; [exact Hds|exact Hw].
Defined.

End SkipClaims.

(** ** The shared computation of the strengths *)

Section LoopFacts.
Import Strengths Loop Spec.

Lemma run_app (l1 l2 : list (Z * job)) (w : World) :
  run (l1 ++ l2) w = run l2 (run l1 w).
Proof. unfold run. apply fold_left_app. Qed.

Lemma run_cons (tj : Z * job) (l : list (Z * job)) (w : World) :
  run (tj :: l) w = run l (step tj.2 w).
Proof. reflexivity. Qed.

(** Line 92. *)
Lemma call_cached (c : caller) (w : World) :
  (0 < size (teamStrengths (svc w)))%nat ->
  call c w =
    {| svc := svc w; computeCalls := computeCalls w;
       outcomes := outcomes w ++ [(c, Fulfilled (teamStrengths (svc w)))];
       console := console w |}.
Proof.
  intros H. unfold call.
  destruct (0 <? size (teamStrengths (svc w)))%nat eqn:E; [reflexivity|].
  apply Nat.ltb_ge in E. lia.
Qed.

(** Line 101. *)
Lemma call_first (c : caller) (w : World) :
  size (teamStrengths (svc w)) = 0%nat ->
  calculatingTeamStrengths (svc w) = None ->
  call c w =
    {| svc := setStrengths (svc w) (teamStrengths (svc w)) (Some {| awaiting := [c] |});
       computeCalls := S (computeCalls w);
       outcomes := outcomes w; console := console w |}.
Proof. intros Hsize Hnone. unfold call. now rewrite Hsize, Hnone. Qed.

(** Line 97. *)
Lemma call_joins (c : caller) (w : World) (p : Pending) :
  size (teamStrengths (svc w)) = 0%nat ->
  calculatingTeamStrengths (svc w) = Some p ->
  call c w =
    {| svc := setStrengths (svc w) (teamStrengths (svc w))
                (Some {| awaiting := awaiting p ++ [c] |});
       computeCalls := computeCalls w;
       outcomes := outcomes w; console := console w |}.
Proof. intros Hsize Hsome. unfold call. now rewrite Hsize, Hsome. Qed.

(** Callers that arrive while a computation is in flight all join it. *)
Lemma calls_join (calls : list (Z * caller)) (w : World) (p : Pending) :
  size (teamStrengths (svc w)) = 0%nat ->
  calculatingTeamStrengths (svc w) = Some p ->
  run (callsAt calls) w =
    {| svc := setStrengths (svc w) (teamStrengths (svc w))
                (Some {| awaiting := awaiting p ++ calls.*2 |});
       computeCalls := computeCalls w;
       outcomes := outcomes w; console := console w |}.
Proof.
  revert w p. induction calls as [|[t c] calls IH]; intros w p Hsize Hsome.
  - simpl. rewrite app_nil_r. destruct w as [[m q fc bc] n o k]. simpl in *.
    subst q. unfold setStrengths. simpl. now destruct p.
  - unfold callsAt. simpl map. rewrite run_cons. simpl step.
    rewrite (call_joins c w p Hsize Hsome).
    fold (callsAt calls). rewrite (IH _ {| awaiting := awaiting p ++ [c] |}); try reflexivity.
    + simpl. unfold setStrengths. simpl. now rewrite <- app_assoc.
    + exact Hsize.
Qed.

(** The first of several callers enters the computation, the rest join. *)
Lemma calls_single_entry (calls : list (Z * caller)) (w : World) :
  size (teamStrengths (svc w)) = 0%nat ->
  calculatingTeamStrengths (svc w) = None ->
  calls <> [] ->
  run (callsAt calls) w =
    {| svc := setStrengths (svc w) (teamStrengths (svc w))
                (Some {| awaiting := calls.*2 |});
       computeCalls := S (computeCalls w);
       outcomes := outcomes w; console := console w |}.
Proof.
  intros Hsize Hnone Hne. destruct calls as [|[t c] calls]; [congruence|].
  unfold callsAt. simpl map. rewrite run_cons. simpl step.
  rewrite (call_first c w Hsize Hnone). fold (callsAt calls).
  rewrite (calls_join calls _ {| awaiting := [c] |}); [reflexivity|exact Hsize|reflexivity].
Qed.

End LoopFacts.

Section LoopClaims.
Import Strengths Loop Spec.

Lemma settle_pending (up : Upstream) (w : World) (p : Pending) :
  calculatingTeamStrengths (svc w) = Some p ->
  exists o : settled,
    computeCalls (settle up w) = computeCalls w /\
    calculatingTeamStrengths (svc (settle up w)) = None /\
    outcomes (settle up w) = outcomes w ++ map (fun c => (c, o)) (awaiting p) /\
    match o with
    | Fulfilled m => teamStrengths (svc (settle up w)) = m
    | Rejected e =>
        _calculateTeamStrengths up (teamStrengths (svc w)) = inl e /\
        teamStrengths (svc (settle up w)) = teamStrengths (svc w)
    end.
Proof.
  intros Hsome. unfold settle. rewrite Hsome.
  destruct (_calculateTeamStrengths up (teamStrengths (svc w))) as [e|[m ws]] eqn:E.
  - exists (Rejected e). repeat split; reflexivity.
  - exists (Fulfilled m). repeat split; reflexivity.
Qed.

Lemma map_callers {A} (calls : list (Z * caller)) (o : A) :
  map (fun c => (c, o)) calls.*2 = map (fun tc : Z * caller => (tc.2, o)) calls.
Proof. induction calls as [|[t c] calls IH]; simpl; [reflexivity|now rewrite <- IH]. Qed.

(** C4: when N callers ask for the strengths before the computation in
    flight resolves, the computation is entered exactly once, every caller
    holds the one pending promise, and when it settles all N receive the
    same outcome. *)
Theorem single_flight (w : World) (calls : list (Z * caller)) (t : Z) (up : Upstream) :
  size (teamStrengths (svc w)) = 0%nat ->
  calculatingTeamStrengths (svc w) = None ->
  calls <> [] ->
  let w1 := run (callsAt calls) w in
  let w2 := run [(t, Settle up)] w1 in
  computeCalls w1 = S (computeCalls w) /\
  calculatingTeamStrengths (svc w1) = Some {| awaiting := calls.*2 |} /\
  outcomes w1 = outcomes w /\
  computeCalls w2 = S (computeCalls w) /\
  exists o : settled,
    outcomes w2 = outcomes w ++ map (fun tc => (tc.2, o)) calls.
Proof.
  intros Hsize Hnone Hne w1 w2.
  assert (E1 : w1 = _) by exact (calls_single_entry calls w Hsize Hnone Hne).
  assert (Hp : calculatingTeamStrengths (svc w1) = Some {| awaiting := calls.*2 |})
    by (rewrite E1; reflexivity).
  assert (Hc : computeCalls w1 = S (computeCalls w)) by (rewrite E1; reflexivity).
  assert (Ho : outcomes w1 = outcomes w) by (rewrite E1; reflexivity).
  destruct (settle_pending up w1 _ Hp) as (o & Hcs & _ & Hout & _).
  repeat split; try assumption.
  - unfold w2. simpl. now rewrite Hcs.
  - exists o. unfold w2. simpl. rewrite Hout, Ho. simpl. now rewrite map_callers.
Qed.

Lemma single_flight_witness :
  let calls := [(0%Z, 1%nat); (1%Z, 2%nat); (2%Z, 3%nat)] in
  let w1 := run (callsAt calls) newWorld in
  let w2 := run [(5%Z, Settle Sample.upstream)] w1 in
  computeCalls w1 = 1%nat /\ computeCalls w2 = 1%nat /\
  exists o : settled, outcomes w2 = [(1%nat, o); (2%nat, o); (3%nat, o)].
Proof.
  intros calls w1 w2.
  destruct (single_flight newWorld calls 5 Sample.upstream)
    as (H1 & _ & _ & H2 & o & Ho); [reflexivity|reflexivity|discriminate|].
  split; [exact H1|]. split; [exact H2|]. exists o. exact Ho.
Defined.

(** C5: when the computation fails, the pending promise is cleared, every
    caller waiting on it receives the error, the strengths map is left as
    it was (empty: nothing partial is kept), and the very next call enters
    the computation again. *)
Theorem failed_computation_retried (w : World) (calls : list (Z * caller)) (t : Z)
    (up : Upstream) (e : error) :
  size (teamStrengths (svc w)) = 0%nat ->
  calculatingTeamStrengths (svc w) = None ->
  calls <> [] ->
  _calculateTeamStrengths up (teamStrengths (svc w)) = inl e ->
  let w2 := run (callsAt calls ++ [(t, Settle up)]) w in
  calculatingTeamStrengths (svc w2) = None /\
  teamStrengths (svc w2) = teamStrengths (svc w) /\
  size (teamStrengths (svc w2)) = 0%nat /\
  outcomes w2 = outcomes w ++ map (fun tc => (tc.2, Rejected e)) calls /\
  computeCalls w2 = S (computeCalls w) /\
  forall (t' : Z) (c' : caller),
    computeCalls (run [(t', Call c')] w2) = S (computeCalls w2).
Proof.
  intros Hsize Hnone Hne Hfail w2.
  assert (E2 : w2 =
    {| svc := setStrengths (svc w) (teamStrengths (svc w)) None;
       computeCalls := S (computeCalls w);
       outcomes := outcomes w ++ map (fun tc => (tc.2, Rejected e)) calls;
       console := console w |}).
  { unfold w2. rewrite run_app, (calls_single_entry calls w Hsize Hnone Hne).
    simpl. unfold settle. simpl. rewrite Hfail. simpl. now rewrite map_callers. }
  rewrite E2. simpl. repeat split; try assumption.
  intros t' c'. rewrite call_first; simpl; try reflexivity. exact Hsize.
Qed.

Lemma failed_computation_retried_witness :
  let calls := [(0%Z, 1%nat); (1%Z, 2%nat)] in
  let w2 := run (callsAt calls ++ [(3%Z, Settle Sample.offline)]) newWorld in
  calculatingTeamStrengths (svc w2) = None /\
  teamStrengths (svc w2) = ∅ /\
  outcomes w2 = [(1%nat, Rejected NetworkError); (2%nat, Rejected NetworkError)] /\
  computeCalls (run [(4%Z, Call 3%nat)] w2) = 2%nat.
Proof.
  intros calls w2.
  destruct (failed_computation_retried newWorld calls 3 Sample.offline NetworkError)
    as (H1 & H2 & _ & H3 & H4 & H5);
    [reflexivity|reflexivity|discriminate|reflexivity|].
  split; [exact H1|]. split; [exact H2|]. split; [exact H3|].
  fold w2 in H4, H5. rewrite (H5 4%Z 3%nat), H4. reflexivity.
Defined.

(** C6, as the code has it: the strengths cache has no time-based
    invalidation.  Once a non-empty strengths map is stored, a call at any
    time returns that map and does not enter the computation. *)
Theorem cache_never_expires (w : World) (now : Z) (c : caller) :
  (0 < size (teamStrengths (svc w)))%nat ->
  let w' := run [(now, Call c)] w in
  computeCalls w' = computeCalls w /\
  outcomes w' = outcomes w ++ [(c, Fulfilled (teamStrengths (svc w)))] /\
  svc w' = svc w.
Proof.
  intros Hready w'. unfold w'. simpl. rewrite (call_cached c w Hready).
  repeat split; reflexivity.
Qed.

Lemma cache_never_expires_witness :
  let w := run [(0%Z, Call 1%nat); (0%Z, Settle Sample.upstream)] newWorld in
  let w' := run [(86400000%Z, Call 2%nat)] w in
  (0 < size (teamStrengths (svc w)))%nat /\
  computeCalls w' = computeCalls w /\
  outcomes w' = outcomes w ++ [(2%nat, Fulfilled (teamStrengths (svc w)))].
Proof.
  intros w w'.
  assert (Hready : (0 < size (teamStrengths (svc w)))%nat) by (vm_compute; lia).
  split; [exact Hready|].
  destruct (cache_never_expires w 86400000 2%nat Hready) as (H1 & H2 & _).
  split; [exact H1|exact H2].
Defined.

(** C6, as the specification states it, fails for every time-to-live: a
    call made later than any [ttl] after the result was stored does not
    enter the computation again. *)
Lemma lazyExpiry_fails : ~ exists ttl : Z, lazyExpiry ttl.
Proof.
  intros [ttl H].
  specialize (H Sample.upstream 1%nat 2%nat 0%Z (ttl + 1)%Z).
  cbv zeta in H.
  set (w := run [(0%Z, Call 1%nat); (0%Z, Settle Sample.upstream)] newWorld) in H.
  assert (Hready : (0 < size (teamStrengths (svc w)))%nat) by (vm_compute; lia).
  specialize (H Hready ltac:(lia)).
  simpl in H. rewrite (call_cached 2%nat w Hready) in H. simpl in H. lia.
Qed.

End LoopClaims.

(** ** The facade *)

Section FacadeFacts.
Import Scorer Facade Spec.

Lemma insertByEvent_Forall (P : FPLFixture -> Prop) (f : FPLFixture) (l : list FPLFixture) :
  P f -> Forall P l -> Forall P (insertByEvent f l).
Proof.
  intros Hf Hl. induction Hl as [|g rest Hg Hrest IH]; simpl.
  - now constructor.
  - destruct (eventKey f <=? eventKey g)%Z; repeat constructor; assumption.
Qed.

Lemma insertByEvent_sorted (f : FPLFixture) (l : list FPLFixture) :
  StronglySorted earlier l -> StronglySorted earlier (insertByEvent f l).
Proof.
  intros Hs. induction Hs as [|g rest Hs IH Hall]; simpl.
  - repeat constructor.
  - destruct (eventKey f <=? eventKey g)%Z eqn:E.
    + apply Z.leb_le in E. constructor; [now constructor|].
      constructor; [exact E|].
      eapply Forall_impl; [exact Hall|]. unfold earlier. intros; lia.
    + apply Z.leb_gt in E. constructor; [exact IH|].
      apply insertByEvent_Forall; [unfold earlier; lia|exact Hall].
Qed.

Lemma insertByEvent_perm (f : FPLFixture) (l : list FPLFixture) :
  insertByEvent f l ≡ₚ f :: l.
Proof.
  induction l as [|g rest IH]; simpl; [reflexivity|].
  destruct (eventKey f <=? eventKey g)%Z; [reflexivity|].
  rewrite IH. apply Permutation_swap.
Qed.

Lemma sortByEvent_sorted (l : list FPLFixture) : StronglySorted earlier (sortByEvent l).
Proof.
  induction l as [|f rest IH]; simpl; [constructor|now apply insertByEvent_sorted].
Qed.

Lemma sortByEvent_perm (l : list FPLFixture) : sortByEvent l ≡ₚ l.
Proof.
  induction l as [|f rest IH]; simpl; [reflexivity|].
  now rewrite insertByEvent_perm, IH.
Qed.

(** The sort is stable: fixtures of one gameweek keep their order. *)
Lemma insertByEvent_stable (k : Z) (f : FPLFixture) (l : list FPLFixture) :
  filter (fun g => eventKey g = k) (insertByEvent f l) =
  filter (fun g => eventKey g = k) (f :: l).
Proof.
  induction l as [|g rest IH]; simpl; [reflexivity|].
  destruct (eventKey f <=? eventKey g)%Z eqn:E; [reflexivity|].
  apply Z.leb_gt in E.
  rewrite (filter_cons _ g), IH, !filter_cons.
  repeat case_decide; try reflexivity; lia.
Qed.

Lemma sortByEvent_stable (k : Z) (l : list FPLFixture) :
  filter (fun g => eventKey g = k) (sortByEvent l) = filter (fun g => eventKey g = k) l.
Proof.
  induction l as [|f rest IH]; simpl; [reflexivity|].
  rewrite insertByEvent_stable, !filter_cons, IH. reflexivity.
Qed.

Lemma StronglySorted_sublist {A} (R : A -> A -> Prop) (l k : list A) :
  l `sublist_of` k -> StronglySorted R k -> StronglySorted R l.
Proof.
  intros Hsub. induction Hsub as [|x l k Hsub IH|x l k Hsub IH]; intros Hs.
  - constructor.
  - apply StronglySorted_inv in Hs as [Hk Hall]. constructor; [now apply IH|].
    rewrite Forall_forall in Hall |- *. intros y Hy.
    apply Hall. now apply (elem_of_sublist l k).
  - apply StronglySorted_inv in Hs as [Hk _]. now apply IH.
Qed.

Lemma slice0_nonneg {A} (l : list A) (count : Z) :
  (0 <= count)%Z -> slice0 l count = take (Z.to_nat count) l.
Proof. intros H. unfold slice0. destruct (count <? 0)%Z eqn:E; [lia|reflexivity]. Qed.

Lemma slice0_sublist {A} (l : list A) (count : Z) : slice0 l count `sublist_of` l.
Proof. unfold slice0. destruct (count <? 0)%Z; apply sublist_take. Qed.

(** The ratings follow the fixtures they were computed from, in order. *)
Lemma score_sublist (m : gmap Z TeamStrength) (teams : list Team) (l : list Upcoming) :
  fixtureOf <$> (score m teams l).1 `sublist_of` l.
Proof.
  unfold score. rewrite scoreLoop_ratings.
  induction l as [|f rest IH]; simpl; [constructor|].
  unfold ratingOf at 1.
  destruct (m !! up_opponentTeamId f); [|now apply sublist_cons].
  destruct (findTeam teams (up_opponentTeamId f)); [|now apply sublist_cons].
  simpl. rewrite fixtureOf_rate. now apply sublist_skip.
Qed.

End FacadeFacts.

Section FacadeClaims.
Import Scorer Strengths Loop Facade Spec.

(** Whatever happens, the ratings returned are those of the scorer on the
    selected fixtures, or there are none. *)
Lemma getTeamUpcomingFixtures_ratings (s : Service) (strengths : settled) (up : Upstream)
    (teamId : Z) (count : option Z) :
  let ds := (getTeamUpcomingFixtures s strengths up teamId count).1.1 in
  ds = [] \/
  exists allFixtures s1 m teams,
    loadFixtures s up = inr (allFixtures, s1) /\
    ds = (score m teams (teamFixtures allFixtures teamId (default defaultCount count))).1.
Proof.
  unfold getTeamUpcomingFixtures.
  destruct (loadFixtures s up) as [e|[allFixtures s1]] eqn:El; [now left|].
  unfold calculateFixtureDifficulty.
  destruct strengths as [m|e]; [|now left].
  destruct (bootstrapCache s1) as [teams|].
  - right. exists allFixtures, s1, m, teams. split; [reflexivity|].
    now destruct (score m teams _) as [ds ws].
  - destruct (bootstrap up) as [e|teams]; [now left|].
    right. exists allFixtures, s1, m, teams. split; [reflexivity|].
    now destruct (score m teams _) as [ds ws].
Qed.

Lemma teamFixtures_take (allFixtures : list FPLFixture) (teamId n : Z) :
  (0 <= n)%Z ->
  teamFixtures allFixtures teamId n =
  toUpcoming teamId <$> take (Z.to_nat n) (sortByEvent (unfinishedOf teamId allFixtures)).
Proof. intros Hn. unfold teamFixtures. now rewrite slice0_nonneg. Qed.

Lemma gameweek_fixtureOf (ds : list FixtureDifficulty) :
  gameweek <$> ds = up_gameweek <$> (fixtureOf <$> ds).
Proof. rewrite <- list_fmap_compose. reflexivity. Qed.

Lemma teamFixtures_sorted (allFixtures : list FPLFixture) (teamId n : Z) :
  StronglySorted gameweekLe (up_gameweek <$> teamFixtures allFixtures teamId n).
Proof.
  unfold teamFixtures.
  rewrite <- list_fmap_compose.
  apply (StronglySorted_fmap _ earlier); [intros x y H; exact H|].
  apply (StronglySorted_sublist _ _ _ (slice0_sublist _ n)).
  apply sortByEvent_sorted.
Qed.

(** The await of line 304 leaves the two caches alone. *)
Lemma awaitStrengths_caches (c : caller) (up : Upstream) (w : World) :
  fixturesCache (svc (Session.awaitStrengths c up w).2) = fixturesCache (svc w) /\
  bootstrapCache (svc (Session.awaitStrengths c up w).2) = bootstrapCache (svc w).
Proof.
  unfold Session.awaitStrengths, call, settle.
  destruct (0 <? size (teamStrengths (svc w)))%nat; simpl; [now split|].
  destruct (calculatingTeamStrengths (svc w)); simpl;
    destruct (_calculateTeamStrengths up (teamStrengths (svc w))) as [e|[m ws]];
    simpl; now split.
Qed.

(** What the caller's promise settles to is what the loop records for it. *)
Lemma awaitStrengths_outcome (c : caller) (up : Upstream) (w : World) :
  last (outcomes (Session.awaitStrengths c up w).2)
  = Some (c, (Session.awaitStrengths c up w).1).
Proof.
  unfold Session.awaitStrengths, call, settle.
  destruct (0 <? size (teamStrengths (svc w)))%nat; simpl; [apply last_snoc|].
  destruct (calculatingTeamStrengths (svc w)) as [p|]; simpl;
    destruct (_calculateTeamStrengths up (teamStrengths (svc w))) as [e|[m ws]];
    simpl; rewrite ?map_app; simpl; rewrite ?app_assoc; apply last_snoc.
Qed.

Lemma awaitStrengths_console (c : caller) (up : Upstream) (w : World) :
  console (Session.awaitStrengths c up w).2 = console w ++ computationWarnings up w.
Proof.
  unfold Session.awaitStrengths, computationWarnings, call, settle.
  destruct (0 <? size (teamStrengths (svc w)))%nat; simpl; [now rewrite app_nil_r|].
  destruct (calculatingTeamStrengths (svc w)) as [p|]; simpl;
    destruct (_calculateTeamStrengths up (teamStrengths (svc w))) as [e|[m ws]];
    simpl; now rewrite ?app_nil_r.
Qed.

(** [calculateFixtureDifficulty] as a function of what its await yields
    and of the bootstrap teams at hand. *)
Lemma Session_calculateFixtureDifficulty_result (c : caller) (up : Upstream)
    (l : list Upcoming) (w : World) :
  (Session.calculateFixtureDifficulty c up l w).1 =
  match (Session.awaitStrengths c up w).1, teamsOf (svc w) up with
  | Fulfilled m, inr teams => inr (omap (ratingOf m teams (computeBounds m)) l)
  | Fulfilled _, inl e => inl e
  | Rejected e, _ => inl e
  end.
Proof.
  unfold Session.calculateFixtureDifficulty, teamsOf.
  pose proof (awaitStrengths_caches c up w) as [_ Hb].
  destruct (Session.awaitStrengths c up w) as [strengths w1]. simpl in *.
  unfold calculateFixtureDifficulty. rewrite Hb.
  destruct strengths as [m|e]; [|reflexivity].
  destruct (bootstrapCache (svc w)) as [teams|].
  - destruct (score m teams l) as [ds ws] eqn:E. simpl.
    f_equal. change ds with (ds, ws).1. rewrite <- E.
    unfold score. apply scoreLoop_ratings.
  - destruct (bootstrap up) as [e|teams]; [reflexivity|].
    destruct (score m teams l) as [ds ws] eqn:E. simpl.
    f_equal. change ds with (ds, ws).1. rewrite <- E.
    unfold score. apply scoreLoop_ratings.
Qed.

Lemma Session_calculateFixtureDifficulty_console (c : caller) (up : Upstream)
    (l : list Upcoming) (w : World) :
  console (Session.calculateFixtureDifficulty c up l w).2 =
  console w ++ computationWarnings up w ++
  match (Session.awaitStrengths c up w).1, teamsOf (svc w) up with
  | Fulfilled m, inr teams => omap (warningOf m) l
  | _, _ => []
  end.
Proof.
  unfold Session.calculateFixtureDifficulty, teamsOf.
  pose proof (awaitStrengths_caches c up w) as [_ Hb].
  pose proof (awaitStrengths_console c up w) as Hc.
  destruct (Session.awaitStrengths c up w) as [strengths w1]. simpl in *.
  unfold calculateFixtureDifficulty. rewrite Hb.
  destruct strengths as [m|e]; [|simpl; now rewrite Hc, app_nil_r].
  destruct (bootstrapCache (svc w)) as [teams|].
  - destruct (score m teams l) as [ds ws] eqn:E. simpl.
    rewrite Hc, <- app_assoc. do 2 f_equal. change ws with (ds, ws).2. rewrite <- E.
    unfold score. apply scoreLoop_warnings.
  - destruct (bootstrap up) as [e|teams]; [simpl; now rewrite Hc, app_nil_r|].
    destruct (score m teams l) as [ds ws] eqn:E. simpl.
    rewrite Hc, <- app_assoc. do 2 f_equal. change ws with (ds, ws).2. rewrite <- E.
    unfold score. apply scoreLoop_warnings.
Qed.

Lemma omap_ratingOf_sublist (m : gmap Z TeamStrength) (teams : list Team)
    (l : list Upcoming) :
  fixtureOf <$> omap (ratingOf m teams (computeBounds m)) l `sublist_of` l.
Proof.
  rewrite <- scoreLoop_ratings. apply score_sublist.
Qed.

(** The ratings of a whole [getTeamUpcomingFixtures] call. *)
Lemma Session_getTeamUpcomingFixtures_result (c : caller) (up : Upstream) (teamId : Z)
    (count : option Z) (w : World) :
  (Session.getTeamUpcomingFixtures c up teamId count w).1 =
  match loadFixtures (svc w) up with
  | inl _ => []
  | inr (allFixtures, s1) =>
      match (Session.awaitStrengths c up (Session.withSvc w s1)).1, teamsOf s1 up with
      | Fulfilled m, inr teams =>
          omap (ratingOf m teams (computeBounds m))
            (teamFixtures allFixtures teamId (default defaultCount count))
      | _, _ => []
      end
  end.
Proof.
  unfold Session.getTeamUpcomingFixtures.
  destruct (loadFixtures (svc w) up) as [e|[allFixtures s1]]; [reflexivity|].
  pose proof (Session_calculateFixtureDifficulty_result c up
                (teamFixtures allFixtures teamId (default defaultCount count))
                (Session.withSvc w s1)) as H.
  destruct (Session.calculateFixtureDifficulty c up _ (Session.withSvc w s1)) as [r w2].
  simpl in H. subst r.
  destruct (Session.awaitStrengths c up (Session.withSvc w s1)).1 as [m|e];
    [|reflexivity].
  now destruct (teamsOf s1 up).
Qed.

(** C7, as the code has it: for a non-negative [horizonCount] the ratings
    returned are those of the team's first [horizonCount] unfinished
    fixtures in ascending gameweek order, a fixture without a gameweek
    counting as gameweek 0 and fixtures of one gameweek keeping the order
    of the fixture list: one rating for every such fixture whose opponent
    has a strength record and a bootstrap team, in that order, so at most
    [horizonCount] of them, and none when the fixture list, the strengths
    or the bootstrap teams cannot be had.  An omitted [horizonCount] is
    10. *)
Theorem upcoming_fixtures_horizon (c : caller) (up : Upstream) (teamId : Z)
    (count : option Z) (w : World) :
  let n := default 10%Z count in
  let ds := (Session.getTeamUpcomingFixtures c up teamId count w).1 in
  (0 <= n)%Z ->
  Session.getTeamUpcomingFixtures c up teamId None w
  = Session.getTeamUpcomingFixtures c up teamId (Some 10%Z) w /\
  (length ds <= Z.to_nat n)%nat /\
  StronglySorted gameweekLe (gameweek <$> ds) /\
  ((exists e, loadFixtures (svc w) up = inl e) -> ds = []) /\
  forall allFixtures s1,
    loadFixtures (svc w) up = inr (allFixtures, s1) ->
    let sorted := sortByEvent (unfinishedOf teamId allFixtures) in
    let next := toUpcoming teamId <$> take (Z.to_nat n) sorted in
    StronglySorted earlier sorted /\
    sorted ≡ₚ unfinishedOf teamId allFixtures /\
    (forall k, filter (fun f => eventKey f = k) sorted
               = filter (fun f => eventKey f = k) (unfinishedOf teamId allFixtures)) /\
    (forall f, f ∈ unfinishedOf teamId allFixtures <->
               f ∈ allFixtures /\ finished f = false /\
               (team_h f = teamId \/ team_a f = teamId)) /\
    fixtureOf <$> ds `sublist_of` next /\
    match (Session.awaitStrengths c up (Session.withSvc w s1)).1, teamsOf s1 up with
    | Fulfilled m, inr teams => ds = omap (ratingOf m teams (computeBounds m)) next
    | _, _ => ds = []
    end.
Proof.
  intros n ds Hn.
  assert (Hds : ds =
    match loadFixtures (svc w) up with
    | inl _ => []
    | inr (allFixtures, s1) =>
        match (Session.awaitStrengths c up (Session.withSvc w s1)).1, teamsOf s1 up with
        | Fulfilled m, inr teams =>
            omap (ratingOf m teams (computeBounds m))
              (toUpcoming teamId <$>
                 take (Z.to_nat n) (sortByEvent (unfinishedOf teamId allFixtures)))
        | _, _ => []
        end
    end).
  { unfold ds. rewrite Session_getTeamUpcomingFixtures_result.
    destruct (loadFixtures (svc w) up) as [e|[af s1]]; [reflexivity|].
    change (default defaultCount count) with n.
    now rewrite (teamFixtures_take af teamId n Hn). }
  assert (Hsub : ds = [] \/ exists allFixtures s1,
            loadFixtures (svc w) up = inr (allFixtures, s1) /\
            fixtureOf <$> ds `sublist_of`
              (toUpcoming teamId <$>
                 take (Z.to_nat n) (sortByEvent (unfinishedOf teamId allFixtures)))).
  { rewrite Hds. destruct (loadFixtures (svc w) up) as [e|[af s1]]; [now left|].
    destruct (Session.awaitStrengths c up (Session.withSvc w s1)).1 as [m|e];
      [|now left].
    destruct (teamsOf s1 up) as [e|teams]; [now left|].
    right. exists af, s1. split; [reflexivity|]. apply omap_ratingOf_sublist. }
  split; [reflexivity|].
  split; [|split; [|split]].
  - destruct Hsub as [->|(af & s1 & _ & Hs)]; [simpl; lia|].
    apply sublist_length in Hs. rewrite !length_fmap, length_take in Hs. lia.
  - destruct Hsub as [->|(af & s1 & _ & Hs)]; [constructor|].
    rewrite gameweek_fixtureOf.
    apply (StronglySorted_sublist _ _ (up_gameweek <$> teamFixtures af teamId n)).
    + apply fmap_sublist. now rewrite (teamFixtures_take af teamId n Hn).
    + apply teamFixtures_sorted.
  - intros [e He]. rewrite Hds, He. reflexivity.
  - intros af s1 El sorted next.
    split; [apply sortByEvent_sorted|].
    split; [apply sortByEvent_perm|].
    split; [intros k; apply sortByEvent_stable|].
    split.
    + intros f. unfold unfinishedOf. rewrite list_elem_of_filter.
      unfold involves. rewrite andb_true_iff, negb_true_iff, orb_true_iff, !Z.eqb_eq.
      tauto.
    + rewrite El in Hds. split.
      * destruct Hsub as [->|(af' & s1' & El' & Hs)]; [apply sublist_nil_l|].
        rewrite El in El'. injection El' as <- <-. exact Hs.
      * destruct (Session.awaitStrengths c up (Session.withSvc w s1)).1 as [m|e];
          [|exact Hds].
        destruct (teamsOf s1 up); exact Hds.
Qed.

Lemma upcoming_fixtures_horizon_witness :
  let ds := (Session.getTeamUpcomingFixtures 1%nat Sample.rescheduling 3 None newWorld).1 in
  let allFixtures := Sample.allFixtures ++ [Sample.postponed] in
  let s1 := setCaches newService (Some allFixtures) None in
  let next := toUpcoming 3 <$> take 10 (sortByEvent (unfinishedOf 3 allFixtures)) in
  (0 <= default 10 None)%Z /\
  loadFixtures (svc newWorld) Sample.rescheduling = inr (allFixtures, s1) /\
  (length ds <= 10)%nat /\
  StronglySorted gameweekLe (gameweek <$> ds) /\
  ds = omap (ratingOf Sample.strengths Sample.teams (computeBounds Sample.strengths)) next /\
  gameweek <$> ds = [None; Some 2; Some 3; Some 4; Some 5; Some 6; Some 7]%Z.
Proof.
  intros ds allFixtures s1 next.
  assert (Hn : (0 <= default 10 None)%Z) by (vm_compute; discriminate).
  assert (Hload : loadFixtures (svc newWorld) Sample.rescheduling = inr (allFixtures, s1))
    by reflexivity.
  assert (Hm : (Session.awaitStrengths 1%nat Sample.rescheduling
                  (Session.withSvc newWorld s1)).1 = Fulfilled Sample.strengths)
    by (vm_compute; reflexivity).
  split; [exact Hn|]. split; [exact Hload|].
  destruct (upcoming_fixtures_horizon 1%nat Sample.rescheduling 3 None newWorld Hn)
    as (_ & Hlen & Hsorted & _ & Hexact).
  destruct (Hexact allFixtures s1 Hload) as (_ & _ & _ & _ & _ & Hds).
  rewrite Hm in Hds.
  split; [exact Hlen|]. split; [exact Hsorted|]. split; [exact Hds|].
  vm_compute. reflexivity.
Defined.

(** C7, as the specification states it, fails: with [horizonCount] omitted
    a team with six unfinished fixtures gets six ratings, where a horizon
    of 5 gives five. *)
Lemma default_horizon_not_five :
  let omitted := (Session.getTeamUpcomingFixtures 1%nat Sample.upstream 3 None newWorld).1 in
  let five :=
    (Session.getTeamUpcomingFixtures 1%nat Sample.upstream 3 (Some 5%Z) newWorld).1 in
  length omitted = 6%nat /\ length five = 5%nat /\ omitted <> five.
Proof.
  intros omitted five.
  assert (H6 : length omitted = 6%nat) by (vm_compute; reflexivity).
  assert (H5 : length five = 5%nat) by (vm_compute; reflexivity).
  split; [exact H6|]. split; [exact H5|].
  intros E. rewrite E in H6. congruence.
Qed.

End FacadeClaims.

(** * Further properties of the code *)

(** ** Scaling and bucketing *)

Section ScaleMore.
Import Scale.

Lemma scaleTo100_linear (v mn mx : Q) :
  mn < mx -> scaleTo100 v mn mx == (v - mn) * (100 / (mx - mn)).
Proof.
  intros H. rewrite scaleTo100_regular by lra. field. lra.
Qed.

Lemma scaleTo100Inverted_linear (v mn mx : Q) :
  mn < mx -> scaleTo100Inverted v mn mx == (mx - v) * (100 / (mx - mn)).
Proof.
  intros H. rewrite scaleTo100Inverted_regular by lra. field. lra.
Qed.

Lemma slope_pos (mn mx : Q) : mn < mx -> 0 < 100 / (mx - mn).
Proof. intros H. apply Qlt_shift_div_l; lra. Qed.

Lemma scaleTo100_le (v1 v2 mn mx : Q) :
  mn <= mx -> v1 <= v2 -> scaleTo100 v1 mn mx <= scaleTo100 v2 mn mx.
Proof.
  intros Hb Hv. destruct (Qlt_le_dec mn mx) as [Hlt|Hge].
  - rewrite !scaleTo100_linear by exact Hlt.
    apply Qmult_le_compat_r; [lra|]. apply Qlt_le_weak. now apply slope_pos.
  - assert (E : Qeq_bool mx mn = true) by (apply Qeq_bool_iff; lra).
    unfold scaleTo100. rewrite E. lra.
Qed.

Lemma scaleTo100Inverted_ge (v1 v2 mn mx : Q) :
  mn <= mx -> v1 <= v2 -> scaleTo100Inverted v2 mn mx <= scaleTo100Inverted v1 mn mx.
Proof.
  intros Hb Hv. destruct (Qlt_le_dec mn mx) as [Hlt|Hge].
  - rewrite !scaleTo100Inverted_linear by exact Hlt.
    apply Qmult_le_compat_r; [lra|]. apply Qlt_le_weak. now apply slope_pos.
  - assert (E : Qeq_bool mx mn = true) by (apply Qeq_bool_iff; lra).
    unfold scaleTo100Inverted. rewrite E. lra.
Qed.

(** X1: for bounds with [min <= max], [scaleTo100] never decreases and
    [scaleTo100Inverted] never increases as the value grows. *)
Theorem scaling_monotone (v1 v2 min max : Q) :
  min <= max -> v1 <= v2 ->
  scaleTo100 v1 min max <= scaleTo100 v2 min max /\
  scaleTo100Inverted v2 min max <= scaleTo100Inverted v1 min max.
Proof.
  intros Hb Hv. split; [now apply scaleTo100_le|now apply scaleTo100Inverted_ge].
Qed.

Lemma scaling_monotone_witness :
  (0 <= 2 /\ 0.5 <= 1.5) /\
  scaleTo100 0.5 0 2 <= scaleTo100 1.5 0 2 /\
  scaleTo100Inverted 1.5 0 2 <= scaleTo100Inverted 0.5 0 2.
Proof.
  assert (H1 : 0 <= 2) by (vm_compute; discriminate).
  assert (H2 : 0.5 <= 1.5) by (vm_compute; discriminate).
  split; [split; assumption|]. exact (scaling_monotone 0.5 1.5 0 2 H1 H2).
Defined.

Lemma scaleToDifficulty_range (raw : Q) :
  (1 <= scaleToDifficulty raw <= 5)%Z.
Proof. destruct (scaleToDifficulty_bucket raw); lia. Qed.

Lemma scaleToDifficulty_le (raw1 raw2 : Q) :
  raw1 <= raw2 -> (scaleToDifficulty raw1 <= scaleToDifficulty raw2)%Z.
Proof.
  intros H.
  destruct (scaleToDifficulty_bucket raw1); destruct (scaleToDifficulty_bucket raw2);
    try lia; lra.
Qed.

Lemma scaleToDifficulty_of_bucket (raw : Q) (d : Z) :
  bucket_of raw d -> scaleToDifficulty raw = d.
Proof. intros H. exact (bucket_of_unique raw _ _ (scaleToDifficulty_bucket raw) H). Qed.

(** X3: the 1-5 rating is monotone in the raw score: a higher raw score
    never gets a lower rating, and every rating is between 1 and 5. *)
Theorem scaleToDifficulty_monotone (raw1 raw2 : Q) :
  raw1 <= raw2 ->
  (scaleToDifficulty raw1 <= scaleToDifficulty raw2)%Z /\
  (1 <= scaleToDifficulty raw1 <= 5)%Z.
Proof.
  intros H. split; [now apply scaleToDifficulty_le|apply scaleToDifficulty_range].
Qed.

Lemma scaleToDifficulty_monotone_witness :
  39.5 <= 60.5 /\ (scaleToDifficulty 39.5 <= scaleToDifficulty 60.5)%Z.
Proof.
  assert (H : 39.5 <= 60.5) by (vm_compute; discriminate).
  split; [exact H|]. exact (proj1 (scaleToDifficulty_monotone 39.5 60.5 H)).
Defined.

End ScaleMore.

(** ** The scorer *)

Section ScorerMore.
Import Scale Scorer Spec.

(** X4: in every rating returned, each integer difficulty is the bucket of
    its raw value and lies between 1 and 5, the opponent has a strength
    record, and the opponent's name is that of the first bootstrap team
    carrying the opponent's id. *)
Theorem rating_consistent (m : gmap Z TeamStrength) (teams : list Team)
    (upcoming : list Upcoming) (r : FixtureDifficulty) :
  r ∈ (score m teams upcoming).1 ->
  attackDifficulty r = scaleToDifficulty (attackDifficultyRaw r) /\
  defenseDifficulty r = scaleToDifficulty (defenseDifficultyRaw r) /\
  (1 <= attackDifficulty r <= 5)%Z /\ (1 <= defenseDifficulty r <= 5)%Z /\
  is_Some (m !! opponentTeamId r) /\
  exists t, findTeam teams (opponentTeamId r) = Some t /\
            team_id t = opponentTeamId r /\ opponentTeamName r = team_name t.
Proof.
  intros Hin.
  destruct (score_origin m teams upcoming r Hin) as (f & o & t & _ & Ho & Ht & ->).
  simpl. repeat split; try apply scaleToDifficulty_range.
  - now exists o.
  - exists t. split; [exact Ht|]. split; [|reflexivity].
    unfold findTeam in Ht. apply find_some in Ht as [_ Ht]. now apply Z.eqb_eq.
Qed.

Lemma rating_consistent_witness :
  exists r,
    r ∈ (score Sample.strengths Sample.teams [Sample.away 2 2]).1 /\
    attackDifficulty r = scaleToDifficulty (attackDifficultyRaw r) /\
    (1 <= defenseDifficulty r <= 5)%Z.
Proof.
  destruct (score Sample.strengths Sample.teams [Sample.away 2 2]).1 as [|r rest] eqn:E;
    [vm_compute in E; discriminate|].
  exists r.
  assert (Hin : r ∈ r :: rest) by apply list_elem_of_here.
  split; [exact Hin|]. rewrite <- E in Hin.
  destruct (rating_consistent _ _ _ _ Hin) as (H1 & _ & _ & H2 & _).
  split; [exact H1|exact H2].
Defined.

(** X5: every fixture ends in at most one of a rating and a warning, so
    ratings and warnings together never outnumber the fixtures; they
    account for all of them when every opponent with a strength record
    is also a bootstrap team.  An opponent with a strength record but no
    bootstrap team is dropped without a warning. *)
Theorem ratings_and_warnings_count (m : gmap Z TeamStrength) (teams : list Team)
    (upcoming : list Upcoming) :
  let ds := (score m teams upcoming).1 in
  let ws := (score m teams upcoming).2 in
  (length ds + length ws <= length upcoming)%nat /\
  ((forall f, f ∈ upcoming -> is_Some (m !! up_opponentTeamId f) ->
              is_Some (findTeam teams (up_opponentTeamId f))) ->
   (length ds + length ws = length upcoming)%nat) /\
  (forall f o, m !! up_opponentTeamId f = Some o ->
               findTeam teams (up_opponentTeamId f) = None ->
               (score m teams [f]) = ([], [])).
Proof.
  intros ds ws. unfold ds, ws, score. clear ds ws.
  rewrite scoreLoop_ratings, scoreLoop_warnings.
  split; [|split].
  - induction upcoming as [|f rest IH]; csimpl; [lia|].
    unfold ratingOf at 1, warningOf at 1.
    destruct (m !! up_opponentTeamId f); [|csimpl; lia].
    destruct (findTeam teams (up_opponentTeamId f)); csimpl; lia.
  - induction upcoming as [|f rest IH]; intros Hall; csimpl; [reflexivity|].
    assert (IH' := IH (fun g Hg => Hall g (list_elem_of_further _ _ _ Hg))).
    unfold ratingOf at 1, warningOf at 1.
    destruct (m !! up_opponentTeamId f) as [o|] eqn:Ho; [|csimpl; lia].
    destruct (Hall f (list_elem_of_here _ _)) as [t Ht]; [now exists o|].
    rewrite Ht. csimpl. lia.
  - intros f o Ho Ht. csimpl. now rewrite Ho, Ht.
Qed.

Lemma ratings_and_warnings_count_witness :
  let upcoming := [Sample.away 1 1; Sample.away 4 9; Sample.away 3 3] in
  (forall f, f ∈ upcoming -> is_Some (Sample.strengths !! up_opponentTeamId f) ->
             is_Some (findTeam Sample.teams (up_opponentTeamId f))) /\
  (length (score Sample.strengths Sample.teams upcoming).1
   + length (score Sample.strengths Sample.teams upcoming).2 = 3)%nat.
Proof.
  intros upcoming.
  assert (Hall : forall f, f ∈ upcoming ->
            is_Some (Sample.strengths !! up_opponentTeamId f) ->
            is_Some (findTeam Sample.teams (up_opponentTeamId f))).
  { intros f Hf Hs. unfold upcoming in Hf.
    repeat (apply elem_of_cons in Hf as [->|Hf]);
      try (vm_compute; eexists; reflexivity).
    - vm_compute in Hs. destruct Hs as [x Hx]. discriminate.
    - inversion Hf. }
  split; [exact Hall|].
  exact (proj1 (proj2 (ratings_and_warnings_count Sample.strengths Sample.teams upcoming)) Hall).
Defined.

Lemma pool_ordered (f : TeamStrength -> Q) (m : gmap Z TeamStrength) (id : Z)
    (o : TeamStrength) :
  m !! id = Some o ->
  Math_min (map f (strengthValues m)) <= Math_max (map f (strengthValues m)).
Proof. intros H. destruct (pool_bound f m id o H). lra. Qed.

(** X6: a stronger opponent is never rated easier to attack.  For two
    opponents of one league at one venue, if the first concedes no more,
    scores no less, and has no lower form and home/away factor than the
    second, its raw attack difficulty and its 1-5 attack rating are at
    least those of the second. *)
Theorem stronger_opponent_harder (m : gmap Z TeamStrength) (fixture1 fixture2 : Upcoming)
    (o1 o2 : TeamStrength) (t1 t2 : Team) :
  m !! up_opponentTeamId fixture1 = Some o1 ->
  m !! up_opponentTeamId fixture2 = Some o2 ->
  up_isHome fixture1 = up_isHome fixture2 ->
  opponentDefenseRating fixture1 o1 <= opponentDefenseRating fixture2 o2 ->
  opponentAttackRating fixture2 o2 <= opponentAttackRating fixture1 o1 ->
  formFactor o2 <= formFactor o1 ->
  homeAwayFactorScaled fixture2 o2 <= homeAwayFactorScaled fixture1 o1 ->
  let r1 := rate (computeBounds m) fixture1 o1 t1 in
  let r2 := rate (computeBounds m) fixture2 o2 t2 in
  attackDifficultyRaw r2 <= attackDifficultyRaw r1 /\
  (attackDifficulty r2 <= attackDifficulty r1)%Z.
Proof.
  intros Ho1 Ho2 Hvenue Hdef Hatt Hform Hha r1 r2.
  assert (Hraw : attackDifficultyRaw r2 <= attackDifficultyRaw r1).
  { unfold r1, r2. simpl. unfold attackRaw.
    assert (Hd : defenseRatingScaled (computeBounds m) fixture2 o2
                 <= defenseRatingScaled (computeBounds m) fixture1 o1).
    { unfold defenseRatingScaled. rewrite Hvenue.
      destruct (up_isHome fixture2); simpl; apply scaleTo100Inverted_ge; try exact Hdef.
      - exact (pool_ordered awayDefense m _ o1 Ho1).
      - exact (pool_ordered homeDefense m _ o1 Ho1). }
    assert (Ha : attackRatingScaled (computeBounds m) fixture2 o2
                 <= attackRatingScaled (computeBounds m) fixture1 o1).
    { unfold attackRatingScaled. rewrite Hvenue.
      destruct (up_isHome fixture2); simpl; apply scaleTo100_le; try exact Hatt.
      - exact (pool_ordered awayAttack m _ o1 Ho1).
      - exact (pool_ordered homeAttack m _ o1 Ho1). }
    assert (Hf : formFactorScaled (computeBounds m) o2
                 <= formFactorScaled (computeBounds m) o1).
    { unfold formFactorScaled. simpl. apply scaleTo100_le; [|exact Hform].
      exact (pool_ordered formFactor m _ o1 Ho1). }
    lra. }
  split; [exact Hraw|].
  unfold r1, r2 in *. simpl in *.
  now apply scaleToDifficulty_le.
Qed.

End ScorerMore.

Section ScorerEdge.
Import Scale Scorer Spec.

Lemma stronger_opponent_harder_witness :
  let teamE := {| team_id := 3; team_name := "Everton" |} in
  let teamC := {| team_id := 2; team_name := "Chelsea" |} in
  let everton := Strengths.toStrength teamE (Sample.row 3 "Everton" 10 0) in
  let chelsea := Strengths.toStrength teamC (Sample.row 2 "Chelsea" 7 10) in
  let b := computeBounds Sample.strengths in
  opponentDefenseRating (Sample.away 3 3) everton
    <= opponentDefenseRating (Sample.away 2 2) chelsea /\
  attackDifficultyRaw (rate b (Sample.away 2 2) chelsea teamC)
    <= attackDifficultyRaw (rate b (Sample.away 3 3) everton teamE).
Proof.
  intros teamE teamC everton chelsea b.
  assert (Hdef : opponentDefenseRating (Sample.away 3 3) everton
                 <= opponentDefenseRating (Sample.away 2 2) chelsea)
    by (vm_compute; discriminate).
  split; [exact Hdef|].
  refine (proj1 (stronger_opponent_harder Sample.strengths (Sample.away 3 3)
                   (Sample.away 2 2) everton chelsea teamE teamC _ _ _ Hdef _ _ _)).
  - vm_compute. reflexivity.
  - vm_compute. reflexivity.
  - reflexivity.
  - vm_compute. discriminate.
  - vm_compute. discriminate.
  - vm_compute. discriminate.
Defined.

Lemma strengthValues_singleton (id : Z) (o : TeamStrength) :
  strengthValues {[id := o]} = [o].
Proof. unfold strengthValues. now rewrite map_to_list_singleton. Qed.

(** X7: in a league of a single team every pool is degenerate, so each
    scaled rating is 50: both raw difficulties of every rating are 47.5
    plus a twentieth of the home/away factor, and both 1-5 ratings are 3. *)
Theorem single_team_league (id : Z) (o : TeamStrength) (teams : list Team)
    (upcoming : list Upcoming) (r : FixtureDifficulty) :
  r ∈ (score {[id := o]} teams upcoming).1 ->
  attackDifficultyRaw r == 47.5 + homeAwayFactorScaled (fixtureOf r) o * 0.05 /\
  defenseDifficultyRaw r == 47.5 + homeAwayFactorScaled (fixtureOf r) o * 0.05 /\
  attackDifficulty r = 3%Z /\ defenseDifficulty r = 3%Z.
Proof.
  intros Hin.
  destruct (score_origin _ teams upcoming r Hin) as (f & o' & t & _ & Ho & _ & ->).
  apply lookup_singleton_Some in Ho as [_ <-].
  rewrite fixtureOf_rate.
  assert (Ha : attackRatingScaled (computeBounds {[id := o]}) f o = 50).
  { unfold attackRatingScaled, opponentAttackRating, computeBounds.
    rewrite strengthValues_singleton. simpl.
    destruct (up_isHome f); apply scaleTo100_degenerate. }
  assert (Hd : defenseRatingScaled (computeBounds {[id := o]}) f o = 50).
  { unfold defenseRatingScaled, opponentDefenseRating, computeBounds.
    rewrite strengthValues_singleton. simpl.
    destruct (up_isHome f); apply scaleTo100Inverted_degenerate. }
  assert (Hf : formFactorScaled (computeBounds {[id := o]}) o = 50).
  { unfold formFactorScaled, computeBounds.
    rewrite strengthValues_singleton. simpl. apply scaleTo100_degenerate. }
  pose proof (homeAwayFactorScaled_range f o) as [Hh0 Hh1].
  simpl. rewrite Ha, Hd, Hf. unfold attackRaw, defenseRaw.
  set (h := homeAwayFactorScaled f o) in *.
  assert (E1 : 50 * 0.70 + 50 * 0.20 + h * 0.05 + 50 * 0.05 == 47.5 + h * 0.05) by ring.
  split; [exact E1|]. split; [exact E1|].
  split; apply scaleToDifficulty_of_bucket; apply bucket_3; lra.
Qed.

Lemma single_team_league_witness :
  let solo := Strengths.toStrength {| team_id := 7; team_name := "Fulham" |}
                (Sample.row 7 "Fulham" 1.3 1.1) in
  let teams := [ {| team_id := 7; team_name := "Fulham" |} ] in
  exists r,
    r ∈ (score {[ 7%Z := solo ]} teams [Sample.away 1 7]).1 /\
    attackDifficulty r = 3%Z /\ defenseDifficulty r = 3%Z.
Proof.
  intros solo teams.
  destruct (score {[ 7%Z := solo ]} teams [Sample.away 1 7]).1 as [|r rest] eqn:E;
    [vm_compute in E; discriminate|].
  exists r.
  assert (Hin : r ∈ r :: rest) by apply list_elem_of_here.
  split; [exact Hin|]. rewrite <- E in Hin.
  destruct (single_team_league 7 solo teams _ r Hin) as (_ & _ & H1 & H2).
  split; [exact H1|exact H2].
Defined.

End ScorerEdge.

(** ** The league-wide computation *)

Section StrengthsMore.
Import Strengths.

Lemma processTeams_step (byId : gmap Z UnderstatTeam) (byName : gmap string UnderstatTeam)
    (teams : list Team) (team : Team) (m : gmap Z TeamStrength) :
  processTeams byId byName (teams ++ [team]) m =
  let '(m', ws) := processTeams byId byName teams m in
  match findUnderstat byId byName team with
  | None => (m', ws ++ [WarnNoUnderstat (team_name team) (team_id team)])
  | Some u => (<[team_id team := toStrength team u]> m', ws)
  end.
Proof.
  unfold processTeams. rewrite fold_left_app. simpl.
  now destruct (fold_left _ teams (m, [])) as [m' ws].
Qed.

Lemma processTeams_provenance (byId : gmap Z UnderstatTeam)
    (byName : gmap string UnderstatTeam) (teams : list Team)
    (m m' : gmap Z TeamStrength) (ws : list log_entry) (k : Z) (s : TeamStrength) :
  processTeams byId byName teams m = (m', ws) ->
  m' !! k = Some s ->
  m !! k = Some s \/
  exists team u,
    team ∈ teams /\ team_id team = k /\
    findUnderstat byId byName team = Some u /\ s = toStrength team u.
Proof.
  revert m' ws s.
  induction teams as [|team teams IH] using rev_ind; intros m' ws s Hrun Hk.
  - injection Hrun as <- <-. now left.
  - rewrite processTeams_step in Hrun.
    destruct (processTeams byId byName teams m) as [m0 ws0].
    assert (Hprev : forall s0, m0 !! k = Some s0 ->
      m !! k = Some s0 \/
      exists team' u, team' ∈ teams ++ [team] /\ team_id team' = k /\
        findUnderstat byId byName team' = Some u /\ s0 = toStrength team' u).
    { intros s0 Hs0.
      destruct (IH m0 ws0 s0 eq_refl Hs0) as [H|(team' & u & Hin & Hid & Hfind & Hs)];
        [now left|].
      right. exists team', u. repeat split; try assumption.
      apply elem_of_app. now left. }
    destruct (findUnderstat byId byName team) as [u|] eqn:Ef.
    + injection Hrun as <- <-.
      destruct (decide (team_id team = k)) as [Hid|Hne].
      * rewrite Hid, lookup_insert_eq in Hk. injection Hk as <-.
        right. exists team, u. repeat split; try assumption.
        apply elem_of_app. right. apply list_elem_of_here.
      * rewrite lookup_insert_ne in Hk by exact Hne. now apply Hprev.
    + injection Hrun as <- <-. now apply Hprev.
Qed.

(** X8: the computation only adds strengths for bootstrap teams that have
    Understat data.  Every entry of the returned map was there before or
    is the strength built from a bootstrap team with that id and the
    Understat row found for it; in the latter case the record carries the
    key as its [teamId]. *)
Theorem strengths_provenance (up : Upstream) (m m' : gmap Z TeamStrength)
    (ws : list log_entry) (k : Z) (s : TeamStrength) :
  _calculateTeamStrengths up m = inr (m', ws) ->
  m' !! k = Some s ->
  m !! k = Some s \/
  exists understatData teams team u,
    understat up = inr understatData /\ bootstrap up = inr teams /\
    team ∈ teams /\ team_id team = k /\
    findUnderstat (understatMapById understatData) (understatMapByName understatData) team
      = Some u /\
    s = toStrength team u /\ teamId s = k.
Proof.
  unfold _calculateTeamStrengths.
  destruct (understat up) as [e|data] eqn:Eu; [discriminate|].
  destruct (length data =? 0)%nat; [discriminate|].
  destruct (bootstrap up) as [e|teams] eqn:Eb; [discriminate|].
  intros Hrun Hk. injection Hrun as Hrun.
  destruct (processTeams_provenance _ _ teams m m' ws k s Hrun Hk)
    as [H|(team & u & Hin & Hid & Hfind & ->)]; [now left|].
  right. exists data, teams, team, u. repeat split; assumption.
Qed.

Lemma strengths_provenance_witness :
  exists m' ws s,
    _calculateTeamStrengths Sample.upstream ∅ = inr (m', ws) /\
    m' !! 2%Z = Some s /\ teamName s = "Chelsea"%string /\ teamId s = 2%Z.
Proof.
  destruct (_calculateTeamStrengths Sample.upstream ∅) as [e|[m' ws]] eqn:E;
    [vm_compute in E; discriminate|].
  destruct (m' !! 2%Z) as [s|] eqn:Es;
    [|vm_compute in E; injection E as <- _; vm_compute in Es; discriminate].
  exists m', ws, s. split; [reflexivity|]. split; [exact Es|].
  destruct (strengths_provenance Sample.upstream ∅ m' ws 2 s E Es)
    as [H|(d & ts & team & u & _ & Hts & Hin & Hid & _ & Hs & Ht)].
  - rewrite lookup_empty in H. discriminate.
  - split; [|exact Ht]. subst s. simpl.
    injection Hts as <-. unfold Sample.teams in Hin.
    repeat (apply elem_of_cons in Hin as [->|Hin]); try (simpl in Hid; discriminate);
      [reflexivity|inversion Hin].
Defined.

Lemma processTeams_warns (byId : gmap Z UnderstatTeam) (byName : gmap string UnderstatTeam)
    (teams : list Team) (m : gmap Z TeamStrength) (team : Team) :
  team ∈ teams -> findUnderstat byId byName team = None ->
  WarnNoUnderstat (team_name team) (team_id team) ∈ (processTeams byId byName teams m).2.
Proof.
  intros Hin Hnone.
  induction teams as [|last teams IH] using rev_ind; [inversion Hin|].
  rewrite processTeams_step.
  destruct (processTeams byId byName teams m) as [m0 ws0]. simpl in IH.
  apply elem_of_app in Hin as [Hin|Hin].
  - destruct (findUnderstat byId byName last); simpl; [now apply IH|].
    apply elem_of_app. left. now apply IH.
  - apply list_elem_of_singleton in Hin as ->. rewrite Hnone. simpl.
    apply elem_of_app. right. apply list_elem_of_here.
Qed.

Lemma processTeams_keeps (byId : gmap Z UnderstatTeam) (byName : gmap string UnderstatTeam)
    (teams : list Team) (m : gmap Z TeamStrength) (k : Z) :
  (forall other, other ∈ teams -> team_id other = k ->
                 findUnderstat byId byName other = None) ->
  (processTeams byId byName teams m).1 !! k = m !! k.
Proof.
  induction teams as [|last teams IH] using rev_ind; intros Hall; [reflexivity|].
  rewrite processTeams_step.
  destruct (processTeams byId byName teams m) as [m0 ws0]. simpl in IH.
  assert (Hprev : m0 !! k = m !! k).
  { apply IH. intros other Ho. apply Hall. apply elem_of_app. now left. }
  destruct (findUnderstat byId byName last) as [u|] eqn:Ef; simpl; [|exact Hprev].
  destruct (decide (team_id last = k)) as [Hid|Hne].
  - rewrite (Hall last) in Ef; [discriminate| |exact Hid].
    apply elem_of_app. right. apply list_elem_of_here.
  - now rewrite lookup_insert_ne.
Qed.

(** A matched team is stored unless a later team of the same id replaces
    it. *)
Lemma processTeams_stores (byId : gmap Z UnderstatTeam) (byName : gmap string UnderstatTeam)
    (before after : list Team) (team : Team) (u : UnderstatTeam) (m : gmap Z TeamStrength) :
  findUnderstat byId byName team = Some u ->
  (forall other, other ∈ after -> team_id other = team_id team ->
                 findUnderstat byId byName other = None) ->
  (processTeams byId byName (before ++ team :: after) m).1 !! team_id team
  = Some (toStrength team u).
Proof.
  intros Hfind.
  induction after as [|last after IH] using rev_ind; intros Hall.
  - rewrite processTeams_step.
    destruct (processTeams byId byName before m) as [m0 ws0].
    rewrite Hfind. simpl. apply lookup_insert_eq.
  - replace (before ++ team :: after ++ [last]) with ((before ++ team :: after) ++ [last])
      by (now rewrite <- app_assoc).
    rewrite processTeams_step.
    destruct (processTeams byId byName (before ++ team :: after) m) as [m0 ws0].
    simpl in IH.
    assert (Hprev : m0 !! team_id team = Some (toStrength team u)).
    { apply IH. intros other Ho. apply Hall. apply elem_of_app. now left. }
    destruct (findUnderstat byId byName last) as [u'|] eqn:Ef; simpl; [|exact Hprev].
    destruct (decide (team_id last = team_id team)) as [Hid|Hne].
    + rewrite (Hall last) in Ef; [discriminate| |exact Hid].
      apply elem_of_app. right. apply list_elem_of_here.
    + now rewrite lookup_insert_ne.
Qed.

(** X9: a bootstrap team without Understat data gets a warning, and as
    long as no team of the same id is matched its entry in the map is
    left as it was: computed from the empty map, it has no strength. *)
Theorem unmatched_team_warned (up : Upstream) (m m' : gmap Z TeamStrength)
    (ws : list log_entry) (understatData : list UnderstatTeam) (teams : list Team)
    (team : Team) :
  _calculateTeamStrengths up m = inr (m', ws) ->
  understat up = inr understatData -> bootstrap up = inr teams ->
  team ∈ teams ->
  findUnderstat (understatMapById understatData) (understatMapByName understatData) team
    = None ->
  WarnNoUnderstat (team_name team) (team_id team) ∈ ws /\
  ((forall other, other ∈ teams -> team_id other = team_id team ->
      findUnderstat (understatMapById understatData) (understatMapByName understatData)
        other = None) ->
   m' !! team_id team = m !! team_id team).
Proof.
  unfold _calculateTeamStrengths. intros Hrun Eu Eb Hin Hnone.
  rewrite Eu, Eb in Hrun. destruct (length understatData =? 0)%nat; [discriminate|].
  injection Hrun as Hrun.
  split.
  - replace ws with (processTeams (understatMapById understatData)
                       (understatMapByName understatData) teams m).2
      by (now rewrite Hrun).
    now apply processTeams_warns.
  - intros Hall.
    replace m' with (processTeams (understatMapById understatData)
                       (understatMapByName understatData) teams m).1
      by (now rewrite Hrun).
    now apply processTeams_keeps.
Qed.

(** X10: a bootstrap team with Understat data is stored under its id with
    the strength built from its row, unless a later bootstrap team of the
    same id is matched too. *)
Theorem matched_team_stored (up : Upstream) (m m' : gmap Z TeamStrength)
    (ws : list log_entry) (understatData : list UnderstatTeam)
    (before after : list Team) (team : Team) (u : UnderstatTeam) :
  _calculateTeamStrengths up m = inr (m', ws) ->
  understat up = inr understatData -> bootstrap up = inr (before ++ team :: after) ->
  findUnderstat (understatMapById understatData) (understatMapByName understatData) team
    = Some u ->
  (forall other, other ∈ after -> team_id other = team_id team ->
      findUnderstat (understatMapById understatData) (understatMapByName understatData)
        other = None) ->
  m' !! team_id team = Some (toStrength team u).
Proof.
  unfold _calculateTeamStrengths. intros Hrun Eu Eb Hfind Hall.
  rewrite Eu, Eb in Hrun. destruct (length understatData =? 0)%nat; [discriminate|].
  injection Hrun as Hrun.
  replace m' with (processTeams (understatMapById understatData)
                     (understatMapByName understatData) (before ++ team :: after) m).1
    by (now rewrite Hrun).
  now apply processTeams_stores.
Qed.

End StrengthsMore.



Section StrengthsMatching.
Import Strengths.

Lemma unmatched_team_warned_witness :
  let leeds := {| team_id := 4; team_name := "Leeds" |} in
  let up := {| understat := inr Sample.rows; bootstrap := inr (Sample.teams ++ [leeds]);
               fixtures := inr [] |} in
  exists m' ws,
    _calculateTeamStrengths up ∅ = inr (m', ws) /\
    WarnNoUnderstat "Leeds" 4 ∈ ws /\ m' !! 4%Z = None.
Proof.
  intros leeds up.
  destruct (_calculateTeamStrengths up ∅) as [e|[m' ws]] eqn:E;
    [vm_compute in E; discriminate|].
  exists m', ws. split; [reflexivity|].
  destruct (unmatched_team_warned up ∅ m' ws Sample.rows (Sample.teams ++ [leeds]) leeds E)
    as [Hw Hkeep]; try reflexivity.
  - apply elem_of_app. right. apply list_elem_of_here.
  - split; [exact Hw|]. change (m' !! team_id leeds = None).
    rewrite Hkeep; [apply lookup_empty|].
    intros other Ho Hid. apply elem_of_app in Ho as [Ho|Ho].
    + unfold Sample.teams in Ho.
      repeat (apply elem_of_cons in Ho as [->|Ho]); try (simpl in Hid; discriminate).
      inversion Ho.
    + apply list_elem_of_singleton in Ho as ->. reflexivity.
Defined.

Lemma matched_team_stored_witness :
  let arsenal := {| team_id := 1; team_name := "Arsenal" |} in
  let chelsea := {| team_id := 2; team_name := "Chelsea" |} in
  let everton := {| team_id := 3; team_name := "Everton" |} in
  exists m' ws,
    _calculateTeamStrengths Sample.upstream ∅ = inr (m', ws) /\
    m' !! 2%Z = Some (toStrength chelsea (Sample.row 2 "Chelsea" 7 10)).
Proof.
  intros arsenal chelsea everton.
  destruct (_calculateTeamStrengths Sample.upstream ∅) as [e|[m' ws]] eqn:E;
    [vm_compute in E; discriminate|].
  exists m', ws. split; [reflexivity|].
  apply (matched_team_stored Sample.upstream ∅ m' ws Sample.rows [arsenal] [everton]
           chelsea (Sample.row 2 "Chelsea" 7 10) E); try reflexivity.
  intros other Ho Hid. apply list_elem_of_singleton in Ho as ->.
  simpl in Hid. discriminate.
Defined.

Lemma understatMapById_snoc (l : list UnderstatTeam) (u : UnderstatTeam) :
  understatMapById (l ++ [u]) =
  match u_team_id u with
  | Some id => if Z.eqb id 0 then understatMapById l else <[id := u]> (understatMapById l)
  | None => understatMapById l
  end.
Proof. unfold understatMapById. now rewrite fold_left_app. Qed.

Lemma understatMapById_none (l : list UnderstatTeam) (k : Z) :
  (forall row, row ∈ l -> u_team_id row <> Some k) -> understatMapById l !! k = None.
Proof.
  induction l as [|u l IH] using rev_ind; intros Hall; [apply lookup_empty|].
  rewrite understatMapById_snoc.
  assert (Hprev : understatMapById l !! k = None).
  { apply IH. intros row Hr. apply Hall. apply elem_of_app. now left. }
  destruct (u_team_id u) as [id|] eqn:Eid; [|exact Hprev].
  destruct (Z.eqb id 0); [exact Hprev|].
  rewrite lookup_insert_ne; [exact Hprev|].
  intros ->. apply (Hall u); [|exact Eid].
  apply elem_of_app. right. apply list_elem_of_here.
Qed.

Lemma understatMapById_zero (l : list UnderstatTeam) : understatMapById l !! 0%Z = None.
Proof.
  induction l as [|u l IH] using rev_ind; [apply lookup_empty|].
  rewrite understatMapById_snoc.
  destruct (u_team_id u) as [id|]; [|exact IH].
  destruct (Z.eqb id 0) eqn:E; [exact IH|].
  apply Z.eqb_neq in E. now rewrite lookup_insert_ne.
Qed.

Lemma understatMapById_last (l1 l2 : list UnderstatTeam) (u : UnderstatTeam) (k : Z) :
  u_team_id u = Some k -> k <> 0%Z ->
  (forall row, row ∈ l2 -> u_team_id row <> Some k) ->
  understatMapById (l1 ++ u :: l2) !! k = Some u.
Proof.
  intros Hk Hnz.
  induction l2 as [|last l2 IH] using rev_ind; intros Hall.
  - rewrite understatMapById_snoc, Hk.
    apply Z.eqb_neq in Hnz. rewrite Hnz. apply lookup_insert_eq.
  - replace (l1 ++ u :: l2 ++ [last]) with ((l1 ++ u :: l2) ++ [last])
      by (now rewrite <- app_assoc).
    rewrite understatMapById_snoc.
    assert (Hprev : understatMapById (l1 ++ u :: l2) !! k = Some u).
    { apply IH. intros row Hr. apply Hall. apply elem_of_app. now left. }
    destruct (u_team_id last) as [id|] eqn:Eid; [|exact Hprev].
    destruct (Z.eqb id 0); [exact Hprev|].
    rewrite lookup_insert_ne; [exact Hprev|].
    intros ->. apply (Hall last); [|exact Eid].
    apply elem_of_app. right. apply list_elem_of_here.
Qed.

(** X11: matching is by id first and by name only through the fixed name
    table.  A team whose id is carried by an Understat row is matched to
    the last such row whatever the names are; a team whose id no row
    carries (or whose id is 0, which never counts as an id) and whose
    name is not in the table is not matched, even if a row has that very
    name. *)
Theorem matching_by_id_then_table (team : Team) (understatData : list UnderstatTeam) :
  (forall l1 l2 u,
     understatData = l1 ++ u :: l2 ->
     u_team_id u = Some (team_id team) -> team_id team <> 0%Z ->
     (forall row, row ∈ l2 -> u_team_id row <> Some (team_id team)) ->
     findUnderstat (understatMapById understatData) (understatMapByName understatData) team
     = Some u) /\
  (((forall row, row ∈ understatData -> u_team_id row <> Some (team_id team)) \/
    team_id team = 0%Z) ->
   fplToUnderstatMap !! team_name team = None ->
   findUnderstat (understatMapById understatData) (understatMapByName understatData) team
   = None).
Proof.
  split.
  - intros l1 l2 u -> Hid Hnz Hall. unfold findUnderstat.
    now rewrite (understatMapById_last l1 l2 u _ Hid Hnz Hall).
  - intros Hno Htable. unfold findUnderstat.
    assert (E : understatMapById understatData !! team_id team = None).
    { destruct Hno as [Hno| ->]; [now apply understatMapById_none|].
      apply understatMapById_zero. }
    now rewrite E, Htable.
Qed.

Lemma matching_by_id_then_table_witness :
  let sunder := {| team_id := 2; team_name := "Sunderland" |} in
  let promoted := {| team_id := 9; team_name := "Coventry" |} in
  let rows := Sample.rows ++ [Sample.row 0 "Coventry" 1 1] in
  findUnderstat (understatMapById rows) (understatMapByName rows) sunder
    = Some (Sample.row 2 "Chelsea" 7 10) /\
  findUnderstat (understatMapById rows) (understatMapByName rows) promoted = None.
Proof.
  intros sunder promoted rows. split.
  - apply (proj1 (matching_by_id_then_table sunder rows)
             [Sample.row 1 "Arsenal" 0 8]
             [Sample.row 3 "Everton" 10 0; Sample.row 0 "Coventry" 1 1]);
      try reflexivity; try discriminate.
    intros row Hr.
    repeat (apply elem_of_cons in Hr as [->|Hr]); try discriminate. inversion Hr.
  - apply (proj2 (matching_by_id_then_table promoted rows)); [|reflexivity].
    left. intros row Hr. unfold rows, Sample.rows in Hr. simpl in Hr.
    repeat (apply elem_of_cons in Hr as [->|Hr]); try discriminate. inversion Hr.
Defined.

End StrengthsMatching.

(** ** The event loop *)

Section LoopMore.
Import Strengths Loop Observe.

Lemma run_snoc (schedule : list (Z * job)) (tj : Z * job) (w : World) :
  run (schedule ++ [tj]) w = step tj.2 (run schedule w).
Proof. unfold run. now rewrite fold_left_app. Qed.

Lemma callersOf_snoc (schedule : list (Z * job)) (tj : Z * job) :
  callersOf (schedule ++ [tj]) =
  callersOf schedule ++ match tj.2 with Call c => [c] | Settle _ => [] end.
Proof. unfold callersOf. rewrite omap_app. simpl. now destruct tj.2. Qed.

Lemma settlesIn_snoc (schedule : list (Z * job)) (tj : Z * job) :
  settlesIn (schedule ++ [tj]) =
  (settlesIn schedule + match tj.2 with Call _ => 0 | Settle _ => 1 end)%nat.
Proof.
  unfold settlesIn. rewrite omap_app, length_app. simpl. now destruct tj.2.
Qed.

(** One job: who has an answer and who waits, before and after. *)
Lemma step_accounts (j : job) (w : World) :
  (outcomes (step j w)).*1 ++ pending (step j w) ≡ₚ
  ((outcomes w).*1 ++ pending w) ++ match j with Call c => [c] | Settle _ => [] end.
Proof.
  destruct j as [c|up]; simpl.
  - unfold call, pending.
    destruct (0 <? size (teamStrengths (svc w)))%nat; simpl.
    + rewrite fmap_app. simpl. rewrite <- !app_assoc.
      apply Permutation_app_head. apply Permutation_app_comm.
    + destruct (calculatingTeamStrengths (svc w)) as [p|]; simpl.
      * now rewrite app_assoc.
      * now rewrite !app_nil_r.
  - rewrite app_nil_r. unfold settle, pending.
    destruct (calculatingTeamStrengths (svc w)) as [p|] eqn:Ep.
    + destruct (_calculateTeamStrengths up (teamStrengths (svc w))) as [e|[m ws]];
        simpl; rewrite fmap_app, app_nil_r, <- list_fmap_compose; simpl;
        now rewrite list_fmap_id.
    + now rewrite Ep.
Qed.

(** X12: no caller is dropped and none is answered twice.  After any
    schedule, the callers that have received an outcome together with
    those waiting on the promise in flight are, up to order, those that
    had an outcome or were waiting before, plus the callers of the
    schedule. *)
Theorem callers_accounted (schedule : list (Z * job)) (w : World) :
  (outcomes (run schedule w)).*1 ++ pending (run schedule w) ≡ₚ
  ((outcomes w).*1 ++ pending w) ++ callersOf schedule.
Proof.
  induction schedule as [|tj schedule IH] using rev_ind.
  - simpl. now rewrite app_nil_r.
  - rewrite run_snoc, callersOf_snoc, step_accounts, IH.
    now rewrite <- !app_assoc.
Qed.

Lemma step_in_flight (j : job) (w : World) :
  (computeCalls (step j w) + inFlight w
   <= computeCalls w + inFlight (step j w)
      + match j with Call _ => 0 | Settle _ => 1 end)%nat /\
  (computeCalls (step j w)
   <= computeCalls w + match j with Call _ => 1 | Settle _ => 0 end)%nat.
Proof.
  destruct j as [c|up]; simpl.
  - unfold call, inFlight.
    destruct (0 <? size (teamStrengths (svc w)))%nat; simpl; [lia|].
    destruct (calculatingTeamStrengths (svc w)); simpl; lia.
  - unfold settle, inFlight.
    destruct (calculatingTeamStrengths (svc w)) as [p|] eqn:Ep; [|rewrite Ep; lia].
    destruct (_calculateTeamStrengths up (teamStrengths (svc w))) as [e|[m ws]];
      simpl; lia.
Qed.

Lemma run_in_flight (schedule : list (Z * job)) (w : World) :
  (computeCalls (run schedule w) + inFlight w
   <= computeCalls w + inFlight (run schedule w) + settlesIn schedule)%nat /\
  (computeCalls (run schedule w) <= computeCalls w + length (callersOf schedule))%nat.
Proof.
  induction schedule as [|tj schedule [IH1 IH2]] using rev_ind; [simpl; lia|].
  rewrite run_snoc, callersOf_snoc, settlesIn_snoc, length_app.
  destruct (step_in_flight tj.2 (run schedule w)) as [H1 H2].
  destruct tj.2; simpl in *; lia.
Qed.

(** X13: at most one computation is in flight.  Over any schedule run on
    a fresh service, the computation is entered at most once more than
    there are settlements, and never more often than there are calls. *)
Theorem computations_bounded (schedule : list (Z * job)) :
  (computeCalls (run schedule newWorld) <= S (settlesIn schedule))%nat /\
  (computeCalls (run schedule newWorld) <= length (callersOf schedule))%nat.
Proof.
  destruct (run_in_flight schedule newWorld) as [H1 H2]. simpl in H1, H2.
  assert (inFlight (run schedule newWorld) <= 1)%nat
    by (unfold inFlight; destruct (calculatingTeamStrengths _); lia).
  lia.
Qed.

End LoopMore.

Section LoopCache.
Import Strengths Loop Observe.

Lemma step_settledWhenFilled (j : job) (w : World) :
  settledWhenFilled w -> settledWhenFilled (step j w).
Proof.
  unfold settledWhenFilled. intros Hinv. destruct j as [c|up]; simpl.
  - unfold call.
    destruct (0 <? size (teamStrengths (svc w)))%nat eqn:E; simpl.
    + intros _. apply Hinv. now apply Nat.ltb_lt.
    + apply Nat.ltb_ge in E.
      destruct (calculatingTeamStrengths (svc w)); simpl; lia.
  - unfold settle.
    destruct (calculatingTeamStrengths (svc w)) as [p|] eqn:Ep; [|now rewrite Ep].
    destruct (_calculateTeamStrengths up (teamStrengths (svc w))) as [e|[m ws]];
      reflexivity.
Qed.

Lemma run_settledWhenFilled (schedule : list (Z * job)) (w : World) :
  settledWhenFilled w -> settledWhenFilled (run schedule w).
Proof.
  intros Hinv. induction schedule as [|tj schedule IH] using rev_ind; [exact Hinv|].
  rewrite run_snoc. now apply step_settledWhenFilled.
Qed.

Lemma run_filled (schedule : list (Z * job)) (w : World) :
  (0 < size (teamStrengths (svc w)))%nat ->
  calculatingTeamStrengths (svc w) = None ->
  svc (run schedule w) = svc w /\
  computeCalls (run schedule w) = computeCalls w /\
  outcomes (run schedule w) =
    outcomes w ++ map (fun c => (c, Fulfilled (teamStrengths (svc w)))) (callersOf schedule).
Proof.
  intros Hfilled Hnone.
  induction schedule as [|tj schedule (IHs & IHc & IHo)] using rev_ind.
  - simpl. now rewrite app_nil_r.
  - rewrite run_snoc, callersOf_snoc. destruct tj as [t [c|up]]; simpl.
    + rewrite call_cached by (now rewrite IHs).
      simpl. rewrite IHs, IHc, IHo, map_app. simpl.
      now rewrite <- app_assoc.
    + unfold settle. rewrite IHs, Hnone, app_nil_r. auto.
Qed.

(** X14: the strengths are computed at most once with success.  Once a
    fresh service holds a non-empty map, no later schedule changes it or
    enters the computation again, and every later call is answered with
    that map. *)
Theorem cache_write_once (before after : list (Z * job)) :
  let w := run before newWorld in
  let w' := run after w in
  (0 < size (teamStrengths (svc w)))%nat ->
  teamStrengths (svc w') = teamStrengths (svc w) /\
  computeCalls w' = computeCalls w /\
  outcomes w' =
    outcomes w ++ map (fun c => (c, Fulfilled (teamStrengths (svc w)))) (callersOf after).
Proof.
  intros w w' Hfilled.
  assert (Hnone : calculatingTeamStrengths (svc w) = None).
  { apply (run_settledWhenFilled before newWorld); [|exact Hfilled].
    intros H. simpl in H. rewrite map_size_empty in H. lia. }
  destruct (run_filled after w Hfilled Hnone) as (Hs & Hc & Ho).
  unfold w'. now rewrite Hs.
Qed.

Lemma cache_write_once_witness :
  let before := [(0%Z, Call 1%nat); (1%Z, Settle Sample.upstream)] in
  let after := [(2%Z, Settle Sample.offline); (3%Z, Call 2%nat);
                (4%Z, Settle Sample.offline); (5%Z, Call 3%nat)] in
  let w := run before newWorld in
  (0 < size (teamStrengths (svc w)))%nat /\
  computeCalls (run after w) = 1%nat /\
  teamStrengths (svc (run after w)) = teamStrengths (svc w).
Proof.
  intros before after w.
  assert (Hfilled : (0 < size (teamStrengths (svc w)))%nat) by (vm_compute; lia).
  split; [exact Hfilled|].
  destruct (cache_write_once before after Hfilled) as (Hs & Hc & _).
  split; [|exact Hs]. etrans; [exact Hc|reflexivity].
Defined.

(** X15: a computation that succeeds with an empty map is not cached.
    Its callers receive the empty map, and the next call enters the
    computation again. *)
Theorem empty_result_recomputed (w : World) (c c' : caller) (t t' t'' : Z) (up : Upstream)
    (m' : gmap Z TeamStrength) (ws : list log_entry) :
  size (teamStrengths (svc w)) = 0%nat ->
  calculatingTeamStrengths (svc w) = None ->
  _calculateTeamStrengths up (teamStrengths (svc w)) = inr (m', ws) ->
  size m' = 0%nat ->
  let w2 := run [(t, Call c); (t', Settle up)] w in
  outcomes w2 = outcomes w ++ [(c, Fulfilled m')] /\
  computeCalls w2 = S (computeCalls w) /\
  computeCalls (run [(t'', Call c')] w2) = S (S (computeCalls w)).
Proof.
  intros Hsize Hnone Hrun Hempty w2.
  assert (E2 : w2 =
    {| svc := setStrengths (svc w) m' None;
       computeCalls := S (computeCalls w);
       outcomes := outcomes w ++ [(c, Fulfilled m')];
       console := console w ++ ws |}).
  { unfold w2. simpl. rewrite (call_first c w Hsize Hnone).
    unfold settle. simpl. now rewrite Hrun. }
  rewrite E2. simpl. repeat split.
  now rewrite call_first.
Qed.

Lemma empty_result_recomputed_witness :
  let up := {| understat := inr Sample.rows; bootstrap := inr []; fixtures := inr [] |} in
  let w2 := run [(0%Z, Call 1%nat); (1%Z, Settle up)] newWorld in
  outcomes w2 = [(1%nat, Fulfilled ∅)] /\
  computeCalls (run [(2%Z, Call 2%nat)] w2) = 2%nat.
Proof.
  intros up w2.
  destruct (empty_result_recomputed newWorld 1%nat 2%nat 0 1 2 up ∅ [])
    as (H1 & _ & H2); try reflexivity.
  split; [exact H1|exact H2].
Defined.

End LoopCache.

(** ** The facade *)

Section FacadeMore.
Import Scorer Loop Facade Spec.

Lemma score_nil (m : gmap Z TeamStrength) (teams : list Team) : score m teams [] = ([], []).
Proof. reflexivity. Qed.

Lemma loadFixtures_keeps (s s1 : Service) (up : Upstream) (allFixtures : list FPLFixture) :
  loadFixtures s up = inr (allFixtures, s1) ->
  teamStrengths s1 = teamStrengths s /\
  calculatingTeamStrengths s1 = calculatingTeamStrengths s /\
  bootstrapCache s1 = bootstrapCache s.
Proof.
  unfold loadFixtures. destruct (fixturesCache s).
  - intros H. injection H as _ <-. now repeat split.
  - destruct (fixtures up); [discriminate|].
    intros H. injection H as _ <-. now repeat split.
Qed.

(** Every warning of the computation names a bootstrap team for which
    neither lookup found an Understat row. *)
Lemma computationWarnings_unmatched (up : Upstream) (w : World) :
  Forall (fun line =>
            exists understatData teams team,
              understat up = inr understatData /\ bootstrap up = inr teams /\
              team ∈ teams /\
              Strengths.findUnderstat (Strengths.understatMapById understatData)
                (Strengths.understatMapByName understatData) team = None /\
              line = WarnNoUnderstat (team_name team) (team_id team))
         (computationWarnings up w).
Proof.
  unfold computationWarnings.
  destruct (0 <? size (teamStrengths (svc w)))%nat; [constructor|].
  unfold Strengths._calculateTeamStrengths.
  destruct (understat up) as [e|understatData]; [constructor|].
  destruct (length understatData =? 0)%nat; [constructor|].
  destruct (bootstrap up) as [e|teams]; [constructor|].
  set (byId := Strengths.understatMapById understatData).
  set (byName := Strengths.understatMapByName understatData).
  assert (H : Forall (fun line => exists team, team ∈ teams /\
                        Strengths.findUnderstat byId byName team = None /\
                        line = WarnNoUnderstat (team_name team) (team_id team))
                (Strengths.processTeams byId byName teams (teamStrengths (svc w))).2).
  { generalize (teamStrengths (svc w)) as m. intros m.
    induction teams as [|last teams IH] using rev_ind; [constructor|].
    rewrite processTeams_step.
    destruct (Strengths.processTeams byId byName teams m) as [m0 ws0]. simpl in IH.
    assert (IH' : Forall (fun line => exists team, team ∈ teams ++ [last] /\
                        Strengths.findUnderstat byId byName team = None /\
                        line = WarnNoUnderstat (team_name team) (team_id team)) ws0).
    { eapply Forall_impl; [exact IH|]. intros line (team & Hin & Hnone & ->).
      exists team. split; [apply elem_of_app; now left|]. now split. }
    destruct (Strengths.findUnderstat byId byName last) eqn:E; simpl; [exact IH'|].
    apply Forall_app. split; [exact IH'|].
    constructor; [|constructor].
    exists last. split; [apply elem_of_app; right; apply list_elem_of_here|].
    now split. }
  destruct (Strengths.processTeams byId byName teams (teamStrengths (svc w))) as [m ws].
  simpl in *. eapply Forall_impl; [exact H|].
  intros line (team & Hin & Hnone & ->).
  exists understatData, teams, team. now repeat split.
Qed.

(** X16: [getTeamUpcomingFixtures] answers with no rating when the fixture
    list cannot be loaded, when the strengths are rejected, when the
    bootstrap teams cannot be loaded, and when the team has no unfinished
    fixture.  In the first case the service and the console stay as they
    were.  In the others the call has awaited the strengths: what it
    leaves on the console is what the strengths computation warned of,
    one line per bootstrap team without an Understat row, and nothing
    when the strengths were stored already; the scoring loop adds no
    line. *)
Theorem upcoming_fixtures_none (c : caller) (up : Upstream) (teamId : Z)
    (count : option Z) (w : World) :
  let r := Session.getTeamUpcomingFixtures c up teamId count w in
  ((exists e, loadFixtures (svc w) up = inl e) -> r = ([], w)) /\
  (forall allFixtures s1,
     loadFixtures (svc w) up = inr (allFixtures, s1) ->
     (exists e, (Session.awaitStrengths c up (Session.withSvc w s1)).1 = Rejected e) \/
     (exists e, teamsOf s1 up = inl e) \/
     unfinishedOf teamId allFixtures = [] ->
     r.1 = [] /\
     console r.2 = console w ++ computationWarnings up w /\
     ((0 < size (teamStrengths (svc w)))%nat -> console r.2 = console w) /\
     Forall (fun line =>
               exists understatData teams team,
                 understat up = inr understatData /\ bootstrap up = inr teams /\
                 team ∈ teams /\
                 Strengths.findUnderstat (Strengths.understatMapById understatData)
                   (Strengths.understatMapByName understatData) team = None /\
                 line = WarnNoUnderstat (team_name team) (team_id team))
            (computationWarnings up w)).
Proof.
  intros r. split.
  - intros [e He]. unfold r, Session.getTeamUpcomingFixtures. now rewrite He.
  - intros af s1 El Hcase.
    assert (Hcw : computationWarnings up (Session.withSvc w s1) = computationWarnings up w).
    { destruct (loadFixtures_keeps _ _ _ _ El) as (Hm & _ & _).
      unfold computationWarnings. simpl. now rewrite Hm. }
    set (l := teamFixtures af teamId (default defaultCount count)).
    assert (Hr : r.1 = [] /\ console r.2 = console w ++ computationWarnings up w).
    { pose proof (Session_calculateFixtureDifficulty_result c up l (Session.withSvc w s1))
        as Hres.
      pose proof (Session_calculateFixtureDifficulty_console c up l (Session.withSvc w s1))
        as Hcon.
      rewrite Hcw in Hcon. simpl svc in Hres, Hcon. simpl console in Hcon.
      unfold r, Session.getTeamUpcomingFixtures. rewrite El. fold l.
      destruct (Session.calculateFixtureDifficulty c up l (Session.withSvc w s1))
        as [res w2].
      simpl in Hres, Hcon.
      assert (Hl : unfinishedOf teamId af = [] -> l = []).
      { intros Hnone. unfold l, teamFixtures. fold (unfinishedOf teamId af).
        rewrite Hnone. simpl. unfold slice0.
        destruct (_ <? 0)%Z; now rewrite take_nil. }
      destruct (Session.awaitStrengths c up (Session.withSvc w s1)).1 as [m|e].
      + destruct (teamsOf s1 up) as [e|teams].
        * subst res. simpl. rewrite Hcon. now rewrite app_nil_r.
        * destruct Hcase as [[e He]|[[e He]|Hnone]]; try discriminate.
          rewrite (Hl Hnone) in Hres, Hcon. simpl in Hres, Hcon.
          subst res. simpl. rewrite Hcon. now rewrite app_nil_r.
      + subst res. simpl. rewrite Hcon.
        destruct (teamsOf s1 up); now rewrite app_nil_r. }
    destruct Hr as [Hr1 Hr2].
    split; [exact Hr1|]. split; [exact Hr2|]. split.
    + intros Hsize. rewrite Hr2. unfold computationWarnings.
      destruct (0 <? size (teamStrengths (svc w)))%nat eqn:E; [apply app_nil_r|].
      apply Nat.ltb_ge in E. lia.
    + apply computationWarnings_unmatched.
Qed.

Lemma upcoming_fixtures_none_witness :
  let leeds := {| team_id := 4; team_name := "Leeds" |} in
  let up := {| understat := inr Sample.rows; bootstrap := inr (Sample.teams ++ [leeds]);
               fixtures := inr Sample.allFixtures |} in
  let r := Session.getTeamUpcomingFixtures 1%nat up 42 None Loop.newWorld in
  unfinishedOf 42 Sample.allFixtures = [] /\
  r.1 = [] /\ console r.2 = [WarnNoUnderstat "Leeds" 4] /\
  Session.getTeamUpcomingFixtures 1%nat Sample.offline 3 None Loop.newWorld
  = ([], Loop.newWorld).
Proof.
  intros leeds up r.
  assert (Hnone : unfinishedOf 42 Sample.allFixtures = []) by reflexivity.
  split; [exact Hnone|].
  destruct (upcoming_fixtures_none 1%nat up 42 None Loop.newWorld) as [_ H].
  destruct (H Sample.allFixtures
              (setCaches Loop.newService (Some Sample.allFixtures) None) eq_refl
              (or_intror (or_intror Hnone))) as (H1 & H2 & _).
  split; [exact H1|]. split.
  - etrans; [exact H2|]. vm_compute. reflexivity.
  - apply (upcoming_fixtures_none 1%nat Sample.offline 3 None Loop.newWorld).
    now exists NetworkError.
Defined.

(** X17: the fixture list and the bootstrap teams are fetched once.  After
    a call that got both, the service holds them, and the same request is
    answered alike whatever the backend says afterwards, the service
    staying as it is. *)
Theorem facade_memoised (s s' : Service) (m : gmap Z TeamStrength) (up up' : Upstream)
    (teamId : Z) (count : option Z) (ds : list FixtureDifficulty) (ws : list log_entry) :
  getTeamUpcomingFixtures s (Fulfilled m) up teamId count = (ds, ws, s') ->
  (is_Some (fixturesCache s) \/ exists allFixtures, fixtures up = inr allFixtures) ->
  (is_Some (bootstrapCache s) \/ exists teams, bootstrap up = inr teams) ->
  is_Some (fixturesCache s') /\ is_Some (bootstrapCache s') /\
  getTeamUpcomingFixtures s' (Fulfilled m) up' teamId count = (ds, ws, s').
Proof.
  intros Hrun Hf Hb.
  assert (Hload : exists af s1, loadFixtures s up = inr (af, s1) /\
            fixturesCache s1 = Some af /\ bootstrapCache s1 = bootstrapCache s).
  { unfold loadFixtures. destruct (fixturesCache s) as [af|] eqn:Ef.
    - exists af, s. auto.
    - destruct Hf as [[x Hx]|[af Haf]]; [discriminate|]. rewrite Haf.
      eexists _, _. split; [reflexivity|]. split; reflexivity. }
  destruct Hload as (af & s1 & Hload & Hfc & Hbc).
  unfold getTeamUpcomingFixtures in Hrun. rewrite Hload in Hrun.
  unfold calculateFixtureDifficulty in Hrun.
  assert (Hteams : exists teams,
    s' = setCaches s1 (Some af) (Some teams) /\
    (ds, ws) = score m teams (teamFixtures af teamId (default defaultCount count))).
  { destruct (bootstrapCache s1) as [teams|] eqn:Eb.
    - exists teams. destruct (score m teams _) as [ds0 ws0].
      injection Hrun as <- <- <-. split; [|reflexivity].
      destruct s1; simpl in *. now subst.
    - destruct Hb as [[x Hx]|[teams Ht]]; [rewrite <- Hbc in Hx; discriminate|].
      rewrite Ht in Hrun. exists teams. destruct (score m teams _) as [ds0 ws0].
      injection Hrun as <- <- <-. split; [|reflexivity].
      unfold setCaches. simpl. now rewrite Hfc. }
  destruct Hteams as (teams & -> & Hscore).
  split; [now eexists|]. split; [now eexists|].
  unfold getTeamUpcomingFixtures, loadFixtures, calculateFixtureDifficulty. simpl.
  now rewrite <- Hscore.
Qed.

Lemma facade_memoised_witness :
  exists ds ws s',
    getTeamUpcomingFixtures Loop.newService (Fulfilled Sample.strengths) Sample.upstream
      3 (Some 2%Z) = (ds, ws, s') /\
    length ds = 2%nat /\
    getTeamUpcomingFixtures s' (Fulfilled Sample.strengths) Sample.offline
      3 (Some 2%Z) = (ds, ws, s').
Proof.
  destruct (getTeamUpcomingFixtures Loop.newService (Fulfilled Sample.strengths)
              Sample.upstream 3 (Some 2%Z)) as [[ds ws] s'] eqn:E.
  exists ds, ws, s'. split; [reflexivity|].
  split; [vm_compute in E; injection E as <- _ _; reflexivity|].
  destruct (facade_memoised _ s' _ _ Sample.offline _ _ ds ws E) as (_ & _ & H).
  - right. now eexists.
  - right. now eexists.
  - exact H.
Defined.

(** X18: venue and opponent are read off the fixture.  Every rating
    returned for a team comes from an unfinished fixture of the list, of
    that gameweek: a home rating from a fixture whose home team it is,
    with the away team as opponent, an away rating from a fixture whose
    away team (and not home team) it is, with the home team as opponent. *)
Theorem rating_from_fixture (s : Service) (strengths : settled) (up : Upstream)
    (teamId : Z) (count : option Z) (allFixtures : list FPLFixture) (s1 : Service)
    (r : FixtureDifficulty) :
  loadFixtures s up = inr (allFixtures, s1) ->
  r ∈ (getTeamUpcomingFixtures s strengths up teamId count).1.1 ->
  exists f,
    f ∈ allFixtures /\ finished f = false /\ gameweek r = event f /\
    (if isHome r
     then team_h f = teamId /\ opponentTeamId r = team_a f
     else team_a f = teamId /\ team_h f <> teamId /\ opponentTeamId r = team_h f).
Proof.
  intros Hload Hin.
  destruct (getTeamUpcomingFixtures_ratings s strengths up teamId count)
    as [E|(af & s1' & m & teams & El & E)].
  { simpl in E. rewrite E in Hin. inversion Hin. }
  rewrite Hload in El. injection El as <- <-.
  simpl in E. rewrite E in Hin.
  pose proof (score_sublist m teams (teamFixtures allFixtures teamId
                (default defaultCount count))) as Hsub.
  assert (Hr : fixtureOf r ∈ teamFixtures allFixtures teamId (default defaultCount count)).
  { eapply elem_of_sublist; [|exact Hsub]. now apply list_elem_of_fmap_2. }
  unfold teamFixtures in Hr. apply list_elem_of_fmap in Hr as (f & Hf & Hfin).
  pose proof (elem_of_sublist _ _ _ Hfin (slice0_sublist _ _)) as Hsorted.
  rewrite sortByEvent_perm in Hsorted.
  apply list_elem_of_filter in Hsorted as [Hinv Haf].
  unfold involves in Hinv.
  apply andb_true_iff in Hinv as [Hunf Hteam].
  apply negb_true_iff in Hunf. apply orb_true_iff in Hteam.
  exists f. split; [exact Haf|]. split; [exact Hunf|].
  assert (Hg : gameweek r = event f) by (now apply (f_equal up_gameweek) in Hf).
  assert (Ho : opponentTeamId r = if Z.eqb (team_h f) teamId then team_a f else team_h f)
    by (now apply (f_equal up_opponentTeamId) in Hf).
  assert (Hh : isHome r = Z.eqb (team_h f) teamId)
    by (now apply (f_equal up_isHome) in Hf).
  split; [exact Hg|]. rewrite Hh, Ho.
  destruct (Z.eqb (team_h f) teamId) eqn:Eh.
  - apply Z.eqb_eq in Eh. auto.
  - apply Z.eqb_neq in Eh. destruct Hteam as [Ht|Ht]; [discriminate|].
    apply Z.eqb_eq in Ht. auto.
Qed.

End FacadeMore.

Section FacadeWitness.
Import Scorer Facade Spec.

Lemma rating_from_fixture_witness :
  exists r f,
    r ∈ (getTeamUpcomingFixtures Loop.newService (Fulfilled Sample.strengths)
           Sample.upstream 3 (Some 1%Z)).1.1 /\
    f ∈ Sample.allFixtures /\ finished f = false /\ gameweek r = event f /\
    isHome r = true /\ team_h f = 3%Z /\ opponentTeamId r = team_a f.
Proof.
  destruct (getTeamUpcomingFixtures Loop.newService (Fulfilled Sample.strengths)
              Sample.upstream 3 (Some 1%Z)).1.1 as [|r rest] eqn:E;
    [vm_compute in E; discriminate|].
  assert (Hin : r ∈ r :: rest) by apply list_elem_of_here.
  assert (Hhome : isHome r = true) by (vm_compute in E; now injection E as <- _).
  rewrite <- E in Hin.
  destruct (rating_from_fixture Loop.newService (Fulfilled Sample.strengths)
              Sample.upstream 3 (Some 1%Z) Sample.allFixtures _ r eq_refl Hin)
    as (f & Hf & Hfin & Hg & Hv).
  rewrite Hhome in Hv. destruct Hv as [Hh Ho].
  exists r, f. repeat split; try assumption. apply list_elem_of_here.
Defined.

End FacadeWitness.

(** ** The player-centred entry points *)

Section PlayerMore.
Import Scorer Loop Facade Spec PlayerView.

(** The ratings of a whole [getPlayerUpcomingFixtures] call. *)
Lemma Session_getPlayerUpcomingFixtures_result (c : caller) (up : Upstream)
    (summary : error + option (list SummaryFixture)) (players : error + list Player)
    (playerId : Z) (count : option Z) (w : World) :
  (Session.getPlayerUpcomingFixtures c up summary players playerId count w).1 =
  match summary, players with
  | inr data, inr ps =>
      match List.find (fun p => Z.eqb (player_id p) playerId) ps, bootstrap up with
      | Some player, inr teams =>
          match List.find (fun t => String.eqb (team_name t) (player_team player)) teams,
                (Session.awaitStrengths c up w).1, teamsOf (svc w) up with
          | Some playerTeam, Fulfilled m, inr teams' =>
              omap (ratingOf m teams' (computeBounds m))
                (playerFixtures (default [] data) (team_id playerTeam)
                   (default defaultPlayerCount count))
          | _, _, _ => []
          end
      | _, _ => []
      end
  | _, _ => []
  end.
Proof.
  unfold Session.getPlayerUpcomingFixtures.
  destruct summary as [e|data]; [reflexivity|].
  destruct players as [e|ps]; [reflexivity|].
  destruct (List.find _ ps) as [player|]; [|reflexivity].
  destruct (bootstrap up) as [e|teams] eqn:Eb; [reflexivity|].
  destruct (List.find _ teams) as [playerTeam|]; [|reflexivity].
  pose proof (Session_calculateFixtureDifficulty_result c up
                (playerFixtures (default [] data) (team_id playerTeam)
                   (default defaultPlayerCount count)) w) as H.
  destruct (Session.calculateFixtureDifficulty c up _ w) as [r w2].
  simpl in H. subst r.
  destruct (Session.awaitStrengths c up w).1 as [m|e]; [|reflexivity].
  now destruct (teamsOf (svc w) up).
Qed.

(** X19: [getPlayerUpcomingFixtures] rates the player's team's unfinished
    fixtures in the order of the element-summary payload, without sorting
    them: for a non-negative [count] one rating for each of the first
    [count] unfinished fixtures whose opponent has a strength record and
    a bootstrap team, so at most [count] ratings; an omitted [count] is
    5; a player that is not in the player list gets none. *)
Theorem player_fixtures_horizon (c : caller) (up : Upstream)
    (summary : error + option (list SummaryFixture)) (players : error + list Player)
    (playerId : Z) (count : option Z) (w : World) :
  let n := default 5%Z count in
  let ds := (Session.getPlayerUpcomingFixtures c up summary players playerId count w).1 in
  Session.getPlayerUpcomingFixtures c up summary players playerId None w
  = Session.getPlayerUpcomingFixtures c up summary players playerId (Some 5%Z) w /\
  ((0 <= n)%Z -> (length ds <= Z.to_nat n)%nat) /\
  (forall data ps player teams playerTeam,
     summary = inr data -> players = inr ps ->
     List.find (fun p => Z.eqb (player_id p) playerId) ps = Some player ->
     bootstrap up = inr teams ->
     List.find (fun t => String.eqb (team_name t) (player_team player)) teams
       = Some playerTeam ->
     let unfinished := filter (fun f => sf_finished f = false) (default [] data) in
     fixtureOf <$> ds `sublist_of` (toPlayerUpcoming (team_id playerTeam) <$> unfinished) /\
     ((0 <= n)%Z ->
      match (Session.awaitStrengths c up w).1, teamsOf (svc w) up with
      | Fulfilled m, inr teams' =>
          ds = omap (ratingOf m teams' (computeBounds m))
                 (toPlayerUpcoming (team_id playerTeam) <$> take (Z.to_nat n) unfinished)
      | _, _ => ds = []
      end)) /\
  ((forall ps, players = inr ps ->
      List.find (fun p => Z.eqb (player_id p) playerId) ps = None) -> ds = []).
Proof.
  intros n ds.
  pose proof (Session_getPlayerUpcomingFixtures_result c up summary players
                playerId count w) as Hds.
  fold ds in Hds. change (default defaultPlayerCount count) with n in Hds.
  split; [reflexivity|]. split; [|split].
  - intros Hn. rewrite Hds.
    destruct summary as [e|data]; [simpl; lia|].
    destruct players as [e|ps]; [simpl; lia|].
    destruct (List.find _ ps) as [player|]; [|simpl; lia].
    destruct (bootstrap up) as [e|teams]; [simpl; lia|].
    destruct (List.find _ teams) as [pt|]; [|simpl; lia].
    destruct (Session.awaitStrengths c up w).1 as [m|e]; [|simpl; lia].
    destruct (teamsOf (svc w) up) as [e|teams']; [simpl; lia|].
    pose proof (sublist_length _ _ (omap_ratingOf_sublist m teams'
                  (playerFixtures (default [] data) (team_id pt) n))) as Hlen.
    rewrite length_fmap in Hlen.
    assert (Hpf : (length (playerFixtures (default [] data) (team_id pt) n)
                   <= Z.to_nat n)%nat).
    { unfold playerFixtures.
      rewrite slice0_nonneg, length_map, length_take by exact Hn. lia. }
    lia.
  - intros data ps player teams pt -> -> Hp Hb Ht unfinished.
    rewrite Hp, Hb, Ht in Hds.
    split.
    + rewrite Hds.
      destruct (Session.awaitStrengths c up w).1 as [m|e]; [|apply sublist_nil_l].
      destruct (teamsOf (svc w) up) as [e|teams']; [apply sublist_nil_l|].
      etrans; [apply omap_ratingOf_sublist|].
      unfold playerFixtures. apply fmap_sublist, slice0_sublist.
    + intros Hn. unfold playerFixtures in Hds. rewrite slice0_nonneg in Hds by exact Hn.
      destruct (Session.awaitStrengths c up w).1 as [m|e]; [|exact Hds].
      destruct (teamsOf (svc w) up) as [e|teams']; exact Hds.
  - intros Hnone. rewrite Hds.
    destruct summary as [e|data]; [reflexivity|].
    destruct players as [e|ps]; [reflexivity|].
    now rewrite (Hnone ps eq_refl).
Qed.

Lemma player_fixtures_horizon_witness :
  let salah := {| player_id := 11; player_name := "Salah"; player_team := "Everton" |} in
  let everton := {| team_id := 3; team_name := "Everton" |} in
  let sf (gw h a : Z) fin := {| sf_event := Some gw; sf_team_h := h; sf_team_a := a;
                                sf_finished := fin; sf_is_home := None |} in
  let payload := [sf 7%Z 2%Z 3%Z false; sf 1%Z 3%Z 1%Z true; sf 2%Z 3%Z 1%Z false] in
  let summary : error + option (list SummaryFixture) := inr (Some payload) in
  let ds := (Session.getPlayerUpcomingFixtures 1%nat Sample.upstream summary (inr [salah])
               11 None Loop.newWorld).1 in
  (0 <= default 5 None)%Z /\
  (length ds <= 5)%nat /\
  ds = omap (ratingOf Sample.strengths Sample.teams (computeBounds Sample.strengths))
         (toPlayerUpcoming 3 <$> take 5 (filter (fun f => sf_finished f = false) payload)) /\
  gameweek <$> ds = [Some 7%Z; Some 2%Z].
Proof.
  intros salah everton sf payload summary ds.
  assert (Hn : (0 <= default 5 None)%Z) by (vm_compute; discriminate).
  assert (Hm : (Session.awaitStrengths 1%nat Sample.upstream Loop.newWorld).1
               = Fulfilled Sample.strengths) by (vm_compute; reflexivity).
  split; [exact Hn|].
  destruct (player_fixtures_horizon 1%nat Sample.upstream summary (inr [salah]) 11 None
              Loop.newWorld) as (_ & Hlen & Hexact & _).
  destruct (Hexact (Some payload) [salah] salah Sample.teams everton
              eq_refl eq_refl eq_refl eq_refl eq_refl) as [_ Hds].
  specialize (Hds Hn). rewrite Hm in Hds.
  split; [exact (Hlen Hn)|]. split; [exact Hds|].
  vm_compute. reflexivity.
Defined.

(** X20: [getPlayerHistory] remembers what it fetched and nothing else.  A
    failed request gives the empty history and leaves the cache as it
    was, so the next call asks again; a history that was fetched is
    returned from then on whatever the backend answers; the entries of
    other players are not touched. *)
Theorem player_history_memoised {H : Type} (cache : gmap Z (list H))
    (summary : error + option (list H)) (playerId : Z) :
  let history := (getPlayerHistory cache summary playerId).1 in
  let cache' := (getPlayerHistory cache summary playerId).2 in
  (forall e, cache !! playerId = None -> summary = inl e ->
             history = [] /\ cache' = cache) /\
  (forall data, cache !! playerId = None -> summary = inr data ->
     history = default [] data /\
     forall summary', getPlayerHistory cache' summary' playerId = (history, cache')) /\
  (forall stored, cache !! playerId = Some stored -> history = stored /\ cache' = cache) /\
  (forall other, other <> playerId -> cache' !! other = cache !! other).
Proof.
  intros history cache'. unfold history, cache'. clear history cache'.
  destruct (getPlayerHistory cache summary playerId) as [h c'] eqn:E. simpl.
  unfold getPlayerHistory in E.
  destruct (cache !! playerId) as [stored|] eqn:Ec.
  - injection E as <- <-.
    split; [intros e E; discriminate|]. split; [intros data E; discriminate|].
    split; [intros stored' E; injection E as <-; auto|]. reflexivity.
  - destruct summary as [e|data]; injection E as <- <-.
    + split; [auto|]. split; [intros data _ E; discriminate|].
      split; [intros st E; discriminate|]. reflexivity.
    + split; [intros e _ E; discriminate|].
      split; [|split; [intros st E; discriminate|]].
      * intros data' _ E. injection E as <-. split; [reflexivity|].
        intros summary'. unfold getPlayerHistory. now rewrite lookup_insert_eq.
      * intros other Hne. now rewrite lookup_insert_ne.
Qed.

Lemma player_history_memoised_witness :
  let cache' := (getPlayerHistory (∅ : gmap Z (list nat)) (inr (Some [3; 1]%nat)) 11).2 in
  (∅ : gmap Z (list nat)) !! 11%Z = None /\
  getPlayerHistory cache' (inl NetworkError) 11 = ([3; 1]%nat, cache') /\
  getPlayerHistory (∅ : gmap Z (list nat)) (inl NetworkError) 11 = ([], ∅).
Proof.
  intros cache'.
  assert (Hnone : (∅ : gmap Z (list nat)) !! 11%Z = None) by reflexivity.
  split; [exact Hnone|]. split.
  - destruct (player_history_memoised (∅ : gmap Z (list nat)) (inr (Some [3; 1]%nat)) 11)
      as (_ & Hok & _).
    destruct (Hok (Some [3; 1]%nat) Hnone eq_refl) as [_ Hmemo].
    exact (Hmemo (inl NetworkError)).
  - destruct (player_history_memoised (∅ : gmap Z (list nat)) (inl NetworkError) 11)
      as (Hfail & _).
    destruct (Hfail NetworkError Hnone eq_refl) as [H1 H2].
    simpl in H1, H2. now rewrite (surjective_pairing (getPlayerHistory _ _ _)), H1, H2.
Defined.

End PlayerMore.

(** ** The recommendations cache *)

Section RecsMore.
Import Recs.

(** X21: what a successful fetch returns is what the cache serves.  After
    a call that went to the backend and succeeded, every call made less
    than 300000 ms after it (or with an earlier clock) returns the same
    two lists, empty ones included, and leaves the service as it is;
    after [clearCache] the cache answers no call, at whatever time. *)
Theorem recommendations_stored (now now' : Z) (data : RecPayload) (allPlayers : list Player)
    (response' : error + RecPayload) (players' : error + list Player) (st : RecService) :
  cachedAt now st = None ->
  (now' - now < 300000)%Z ->
  let '(result, st') := getRecommendations now (inr data) (inr allPlayers) st in
  getRecommendations now' response' players' st' = (result, st') /\
  cachedAt now' (clearCache st') = None /\
  getRecommendations now' response' players' (clearCache st')
  = getRecommendations now' response' players' newRecService.
Proof.
  intros Hmiss Ht. unfold getRecommendations at 1. rewrite Hmiss.
  assert (E : (now' - now <? CACHE_TTL)%Z = true)
    by (apply Z.ltb_lt; unfold CACHE_TTL; lia).
  split; [|split; reflexivity].
  unfold getRecommendations, cachedAt. simpl. now rewrite E.
Qed.

Lemma recommendations_stored_witness :
  let data := {| payload_buy := Some []; payload_sell := None |} in
  cachedAt 5000 newRecService = None /\
  getRecommendations 304999 (inl NetworkError) (inl NetworkError)
    (getRecommendations 5000 (inr data) (inr []) newRecService).2
  = getRecommendations 5000 (inr data) (inr []) newRecService.
Proof.
  intros data. split; [reflexivity|].
  pose proof (recommendations_stored 5000 304999 data [] (inl NetworkError)
                (inl NetworkError) newRecService eq_refl eq_refl) as H.
  destruct (getRecommendations 5000 (inr data) (inr []) newRecService) as [result st'].
  exact (proj1 H).
Defined.

(** X22: a failed refresh serves nothing and stores nothing.  When the
    cache cannot answer and the backend or the player list fails, both
    lists come back empty, lists still stored but expired are not used,
    the service is unchanged, and every later call goes to the backend
    again. *)
Theorem recommendations_failure (now : Z) (response : error + RecPayload)
    (players : error + list Player) (st : RecService) :
  cachedAt now st = None ->
  (exists e, response = inl e) \/ (exists e, players = inl e) ->
  getRecommendations now response players st = (([], []), st) /\
  (forall now', (now <= now')%Z -> cachedAt now' st = None).
Proof.
  intros Hmiss Hfail. split.
  - unfold getRecommendations. rewrite Hmiss.
    destruct Hfail as [[e ->]|[e ->]]; [reflexivity|now destruct response].
  - intros now' Hle. unfold cachedAt in *.
    destruct (cachedBuy st); [|reflexivity]. destruct (cachedSell st); [|reflexivity].
    destruct (now - cacheTimestamp st <? CACHE_TTL)%Z eqn:E; [discriminate|].
    apply Z.ltb_ge in E.
    destruct (now' - cacheTimestamp st <? CACHE_TTL)%Z eqn:E'; [|reflexivity].
    apply Z.ltb_lt in E'. lia.
Qed.

Lemma recommendations_failure_witness :
  let st := {| cachedBuy := Some []; cachedSell := Some []; cacheTimestamp := 0 |} in
  cachedAt 300000 st = None /\
  getRecommendations 300000 (inl NetworkError) (inr []) st = (([], []), st).
Proof.
  intros st. split; [reflexivity|].
  apply (recommendations_failure 300000 (inl NetworkError) (inr []) st eq_refl).
  left. now exists NetworkError.
Defined.

Lemma playerMap_snoc (l : list Player) (p : Player) :
  playerMap (l ++ [p]) = <[player_id p := p]> (playerMap l).
Proof. unfold playerMap. now rewrite fold_left_app. Qed.

Lemma playerMap_lookup (l : list Player) (k : Z) (p : Player) :
  playerMap l !! k = Some p -> p ∈ l /\ player_id p = k.
Proof.
  induction l as [|q l IH] using rev_ind; [intros H; discriminate|].
  rewrite playerMap_snoc. intros H.
  destruct (decide (player_id q = k)) as [Hid|Hne].
  - rewrite Hid, lookup_insert_eq in H. injection H as <-.
    split; [|exact Hid]. apply elem_of_app. right. apply list_elem_of_here.
  - rewrite lookup_insert_ne in H by exact Hne.
    destruct (IH H) as [Hin Hk]. split; [|exact Hk]. apply elem_of_app. now left.
Qed.

Lemma playerMap_missing (l : list Player) (k : Z) :
  (forall p, p ∈ l -> player_id p <> k) -> playerMap l !! k = None.
Proof.
  intros Hall. destruct (playerMap l !! k) as [p|] eqn:E; [|reflexivity].
  destruct (playerMap_lookup l k p E) as [Hin Hk]. now destruct (Hall p Hin).
Qed.

(** X23: a recommendation is returned only for a known player.  After a
    successful fetch, every buy recommendation carries a player of the
    player list whose id is the one the backend named, with the backend's
    scores and fixtures (none when the payload has none); an entry whose
    player id is not in the list is dropped, so the result is never
    longer than the payload. *)
Theorem recommendations_known_players (now : Z) (data : RecPayload)
    (allPlayers : list Player) (st : RecService) (rec : BuyRecommendation) :
  cachedAt now st = None ->
  let buy := (getRecommendations now (inr data) (inr allPlayers) st).1.1 in
  (rec ∈ buy ->
   exists cached,
     cached ∈ default [] (payload_buy data) /\
     buy_player rec ∈ allPlayers /\
     player_id (buy_player rec) = cb_player_id cached /\
     buyScore rec = buy_score cached /\ breakoutScore rec = breakout_score cached /\
     fixtureEase rec = fixture_ease cached /\
     buy_upcomingFixtures rec = default [] (cb_upcoming_fixtures cached)) /\
  (forall cached,
     (forall p, p ∈ allPlayers -> player_id p <> cb_player_id cached) ->
     toBuy (playerMap allPlayers) cached = None) /\
  (length buy <= length (default [] (payload_buy data)))%nat.
Proof.
  intros Hmiss buy. unfold buy, getRecommendations. rewrite Hmiss. simpl.
  split; [|split].
  - intros Hin. apply list_elem_of_omap in Hin as (cached & Hc & Hrec).
    unfold toBuy in Hrec.
    destruct (playerMap allPlayers !! cb_player_id cached) as [p|] eqn:Ep; [|discriminate].
    injection Hrec as <-. simpl.
    destruct (playerMap_lookup allPlayers _ p Ep) as [Hp Hid].
    exists cached. repeat split; assumption.
  - intros cached Hall. unfold toBuy. now rewrite (playerMap_missing allPlayers _ Hall).
  - generalize (default [] (payload_buy data)). intros l.
    induction l as [|c l IH]; csimpl; [lia|].
    destruct (toBuy (playerMap allPlayers) c); csimpl; lia.
Qed.

Lemma recommendations_known_players_witness :
  let kane := {| player_id := 9; player_name := "Kane"; player_team := "Spurs" |} in
  let entry (id : Z) :=
    {| cb_player_id := id; cb_name := "x"; cb_web_name := "x"; cb_team := "Spurs";
       cb_team_id := 18; cb_position := "FWD"; buy_score := 7.5; breakout_score := 1.2;
       cb_trend_ratio := 1.1; cb_recent_xgi_per90 := 0.9; fixture_ease := 3;
       cb_upcoming_fixtures := None; cb_reason := good_form |} in
  let data := {| payload_buy := Some [entry 404%Z; entry 9%Z]; payload_sell := None |} in
  let buy := (getRecommendations 0 (inr data) (inr [kane]) newRecService).1.1 in
  cachedAt 0 newRecService = None /\
  exists rec, rec ∈ buy /\ buy_player rec = kane /\ buy_upcomingFixtures rec = [] /\
              length buy = 1%nat.
Proof.
  intros kane entry data buy.
  assert (Hmiss : cachedAt 0 newRecService = None) by reflexivity.
  split; [exact Hmiss|].
  destruct buy as [|rec rest] eqn:E; [vm_compute in E; discriminate|].
  assert (Hin : rec ∈ buy) by (rewrite E; apply list_elem_of_here).
  destruct (recommendations_known_players 0 data [kane] newRecService rec Hmiss)
    as (Hknown & _ & _).
  destruct (Hknown Hin) as (cached & _ & Hp & _ & _ & _ & _ & Hf).
  exists rec. split; [apply list_elem_of_here|].
  apply list_elem_of_singleton in Hp.
  split; [exact Hp|]. split.
  - vm_compute in E. injection E as <- _. reflexivity.
  - vm_compute in E. injection E as _ <-. reflexivity.
Defined.

End RecsMore.

(** ** The views *)

Section ViewMore.
Import Scale Facade View.

(** X24: the label and the colour shown for a 1-5 rating follow the raw
    score.  A raw score up to 20 is shown as Very Easy in green, up to 40
    as Easy in lime, up to 60 as Medium in yellow, up to 80 as Hard in
    orange, and above 80 as Very Hard in red. *)
Theorem label_of_raw (raw : Q) :
  let shown := inject_Z (scaleToDifficulty raw) in
  (raw <= 20 ->
   getDifficultyLabel shown = "Very Easy"%string /\
   getDifficultyColor shown = "bg-green-100 text-green-800 border-green-300"%string) /\
  (20 < raw -> raw <= 40 ->
   getDifficultyLabel shown = "Easy"%string /\
   getDifficultyColor shown = "bg-lime-100 text-lime-800 border-lime-300"%string) /\
  (40 < raw -> raw <= 60 ->
   getDifficultyLabel shown = "Medium"%string /\
   getDifficultyColor shown = "bg-yellow-100 text-yellow-800 border-yellow-300"%string) /\
  (60 < raw -> raw <= 80 ->
   getDifficultyLabel shown = "Hard"%string /\
   getDifficultyColor shown = "bg-orange-100 text-orange-800 border-orange-300"%string) /\
  (80 < raw ->
   getDifficultyLabel shown = "Very Hard"%string /\
   getDifficultyColor shown = "bg-red-100 text-red-800 border-red-300"%string).
Proof.
  intros shown. unfold shown. clear shown.
  split; [|split; [|split; [|split]]].
  - intros H. rewrite (scaleToDifficulty_of_bucket raw 1) by (now apply bucket_1).
    split; reflexivity.
  - intros H1 H2. rewrite (scaleToDifficulty_of_bucket raw 2) by (now apply bucket_2).
    split; reflexivity.
  - intros H1 H2. rewrite (scaleToDifficulty_of_bucket raw 3) by (now apply bucket_3).
    split; reflexivity.
  - intros H1 H2. rewrite (scaleToDifficulty_of_bucket raw 4) by (now apply bucket_4).
    split; reflexivity.
  - intros H. rewrite (scaleToDifficulty_of_bucket raw 5) by (now apply bucket_5).
    split; reflexivity.
Qed.

Lemma label_of_raw_witness :
  20 < 20.01 /\ 20.01 <= 40 /\
  getDifficultyLabel (inject_Z (scaleToDifficulty 20.01)) = "Easy"%string.
Proof.
  assert (H1 : 20 < 20.01) by (vm_compute; reflexivity).
  assert (H2 : 20.01 <= 40) by (vm_compute; discriminate).
  split; [exact H1|]. split; [exact H2|].
  destruct (label_of_raw 20.01) as (_ & H & _). exact (proj1 (H H1 H2)).
Defined.

(** X25: [getRelevantDifficulty] shows the attack rating to forwards and
    midfielders, the defense rating to every other named position, and
    the mean of the two when no position (or the empty one) is given; in
    each case the value lies between the two ratings. *)
Theorem relevant_difficulty (playerPosition : option string) (fixture : FixtureDifficulty) :
  let a := inject_Z (attackDifficulty fixture) in
  let d := inject_Z (defenseDifficulty fixture) in
  let shown := getRelevantDifficulty playerPosition fixture in
  (playerPosition = Some "FWD"%string \/ playerPosition = Some "MID"%string ->
   shown = a) /\
  (forall position, playerPosition = Some position ->
     position <> ""%string -> position <> "FWD"%string -> position <> "MID"%string ->
     shown = d) /\
  (playerPosition = None \/ playerPosition = Some ""%string -> shown == (a + d) / 2) /\
  Qmin a d <= shown /\ shown <= Qmax a d.
Proof.
  intros a d shown.
  assert (Hmean : Qmin a d <= (a + d) / 2 /\ (a + d) / 2 <= Qmax a d).
  { pose proof (Q.le_min_l a d). pose proof (Q.le_min_r a d).
    pose proof (Q.le_max_l a d). pose proof (Q.le_max_r a d).
    assert (E : (a + d) / 2 == (a + d) * (1 # 2)) by (field; discriminate).
    rewrite E. split; lra. }
  unfold shown, getRelevantDifficulty. fold a d.
  split; [|split; [|split]].
  - intros [->| ->]; reflexivity.
  - intros position -> H0 H1 H2.
    apply String.eqb_neq in H0, H1, H2. now rewrite H0, H1, H2.
  - intros [->| ->]; reflexivity.
  - destruct playerPosition as [position|]; [|exact Hmean].
    destruct (String.eqb position ""); [exact Hmean|].
    destruct (String.eqb position "FWD" || String.eqb position "MID").
    + split; [apply Q.le_min_l|apply Q.le_max_l].
    + split; [apply Q.le_min_r|apply Q.le_max_r].
Qed.

Lemma relevant_difficulty_witness :
  let fixture := {| gameweek := Some 4%Z; opponentTeamId := 2; opponentTeamName := "Chelsea";
                    isHome := true; attackDifficulty := 2; defenseDifficulty := 5;
                    attackDifficultyRaw := 30; defenseDifficultyRaw := 90 |} in
  getRelevantDifficulty (Some "GKP"%string) fixture = 5 /\
  getRelevantDifficulty (Some "MID"%string) fixture = 2 /\
  getRelevantDifficulty None fixture == 3.5.
Proof.
  intros fixture.
  destruct (relevant_difficulty (Some "GKP"%string) fixture) as (_ & Hd & _).
  destruct (relevant_difficulty (Some "MID"%string) fixture) as (Ha & _).
  destruct (relevant_difficulty None fixture) as (_ & _ & Hm & _).
  split; [apply (Hd "GKP"%string eq_refl); discriminate|].
  split; [apply Ha; now right|].
  rewrite Hm by (now left). reflexivity.
Defined.

Lemma Math_round_half (n : Z) : Math_round (inject_Z n / 2) = ((n + 1) / 2)%Z.
Proof.
  unfold Math_round.
  assert (E : inject_Z n / 2 + 0.5 == (n + 1) # 2).
  { rewrite (Qmake_Qdiv (n + 1) 2), inject_Z_plus.
    change (inject_Z (Z.pos 2)) with 2. change (inject_Z 1) with 1. field. }
  rewrite (Qfloor_comp _ _ E). reflexivity.
Qed.

(** X26: the number in a cell of the league table is the mean of the two
    ratings rounded to an integer, a half rounding up: it is
    [(attack + defense + 1) / 2] in integer division, and lies between
    the two ratings. *)
Theorem avgDifficulty_rounds_up (fixture : FixtureDifficulty) :
  let a := attackDifficulty fixture in
  let d := defenseDifficulty fixture in
  avgDifficulty fixture = ((a + d + 1) / 2)%Z /\
  (Z.min a d <= avgDifficulty fixture <= Z.max a d)%Z.
Proof.
  intros a d. unfold avgDifficulty. fold a d.
  assert (E : Math_round ((inject_Z a + inject_Z d) / 2) = ((a + d + 1) / 2)%Z).
  { rewrite <- Math_round_half. unfold Math_round. apply Qfloor_comp.
    rewrite inject_Z_plus. reflexivity. }
  rewrite E. split; [reflexivity|].
  clearbody a d. clear E.
  pose proof (Z.div_mod (a + d + 1) 2 ltac:(lia)) as Hdm.
  pose proof (Z.mod_pos_bound (a + d + 1) 2 ltac:(lia)) as Hmod.
  lia.
Qed.

(** X27: [toggleTeamVisibility] flips the visibility of one team only:
    the team is hidden afterwards exactly when it was not before, every
    other team keeps its state, and toggling twice restores the set. *)
Theorem toggle_visibility (hiddenTeams : gset Z) (teamId : Z) :
  (teamId ∈ toggleTeamVisibility hiddenTeams teamId <-> teamId ∉ hiddenTeams) /\
  (forall other, other <> teamId ->
     (other ∈ toggleTeamVisibility hiddenTeams teamId <-> other ∈ hiddenTeams)) /\
  toggleTeamVisibility (toggleTeamVisibility hiddenTeams teamId) teamId = hiddenTeams.
Proof.
  assert (Hflip : forall s, teamId ∈ toggleTeamVisibility s teamId <-> teamId ∉ s).
  { intros s. unfold toggleTeamVisibility. destruct (decide (teamId ∈ s)) as [Hin|Hout].
    - rewrite elem_of_difference, elem_of_singleton. tauto.
    - rewrite elem_of_union, elem_of_singleton. tauto. }
  assert (Hkeep : forall s other, other <> teamId ->
            (other ∈ toggleTeamVisibility s teamId <-> other ∈ s)).
  { intros s other Hne. unfold toggleTeamVisibility.
    destruct (decide (teamId ∈ s)) as [Hin|Hout].
    - rewrite elem_of_difference, elem_of_singleton. tauto.
    - rewrite elem_of_union, elem_of_singleton. tauto. }
  split; [apply Hflip|]. split; [apply Hkeep|].
  apply set_eq. intros x. destruct (decide (x = teamId)) as [->|Hne].
  - rewrite Hflip, Hflip. destruct (decide (teamId ∈ hiddenTeams)); tauto.
  - now rewrite !Hkeep.
Qed.

End ViewMore.

Section ViewTables.
Import Scale Facade View.

Lemma sum_bounds (g : FixtureDifficulty -> Z) (l : list FixtureDifficulty) (acc : Q) :
  (forall f, f ∈ l -> (1 <= g f <= 5)%Z) ->
  acc + inject_Z (Z.of_nat (length l))
    <= fold_left (fun sum f => sum + inject_Z (g f)) l acc /\
  fold_left (fun sum f => sum + inject_Z (g f)) l acc
    <= acc + 5 * inject_Z (Z.of_nat (length l)).
Proof.
  revert acc. induction l as [|x l IH]; intros acc Hall.
  - cbn [fold_left length]. change (inject_Z (Z.of_nat 0)) with 0. split; lra.
  - simpl fold_left. simpl length. rewrite Nat2Z.inj_succ, <- Z.add_1_r, inject_Z_plus.
    change (inject_Z 1) with 1.
    destruct (IH (acc + inject_Z (g x))) as [Hlo Hhi].
    { intros f Hf. apply Hall. now apply list_elem_of_further. }
    destruct (Hall x (list_elem_of_here _ _)) as [H1 H5].
    assert (1 <= inject_Z (g x)) by (change 1 with (inject_Z 1); now rewrite <- Zle_Qle).
    assert (inject_Z (g x) <= 5) by (change 5 with (inject_Z 5); now rewrite <- Zle_Qle).
    split; lra.
Qed.

Lemma mean_bounds (sum n : Q) : 0 < n -> n <= sum -> sum <= 5 * n -> 1 <= sum / n /\ sum / n <= 5.
Proof.
  intros Hn Hlo Hhi. split.
  - apply Qle_shift_div_l; [exact Hn|lra].
  - apply Qle_shift_div_r; [exact Hn|lra].
Qed.

(** X28: the average shown for a team is 0 when it has no rating to show,
    and lies between 1 and 5 otherwise, for attack and for defense alike:
    a team without fixtures ranks before every team that has some. *)
Theorem teamAverage_range (fixtures : list FixtureDifficulty) (maxFixtures : Z) :
  (forall f, f ∈ fixtures ->
     (1 <= attackDifficulty f <= 5)%Z /\ (1 <= defenseDifficulty f <= 5)%Z) ->
  (slice0 fixtures maxFixtures = [] -> teamAverage fixtures maxFixtures = (0, 0)) /\
  (slice0 fixtures maxFixtures <> [] ->
   1 <= (teamAverage fixtures maxFixtures).1 /\ (teamAverage fixtures maxFixtures).1 <= 5 /\
   1 <= (teamAverage fixtures maxFixtures).2 /\ (teamAverage fixtures maxFixtures).2 <= 5).
Proof.
  intros Hall. unfold teamAverage.
  set (next := slice0 fixtures maxFixtures).
  assert (Hnext : forall f, f ∈ next ->
            (1 <= attackDifficulty f <= 5)%Z /\ (1 <= defenseDifficulty f <= 5)%Z).
  { intros f Hf. apply Hall. exact (elem_of_sublist _ _ _ Hf (slice0_sublist _ _)). }
  split.
  - intros ->. reflexivity.
  - intros Hne. destruct next as [|x rest] eqn:E; [congruence|].
    rewrite <- E in *. assert (Hlen : (0 < length next)%nat) by (rewrite E; simpl; lia).
    destruct (length next =? 0)%nat eqn:E0; [apply Nat.eqb_eq in E0; lia|].
    assert (Hn : 0 < inject_Z (Z.of_nat (length next))).
    { change 0 with (inject_Z 0). rewrite <- Zlt_Qlt. lia. }
    destruct (sum_bounds attackDifficulty next 0) as [Ha1 Ha2];
      [intros f Hf; now apply Hnext|].
    destruct (sum_bounds defenseDifficulty next 0) as [Hd1 Hd2];
      [intros f Hf; now apply Hnext|].
    simpl fst. simpl snd.
    set (n := inject_Z (Z.of_nat (length next))) in *.
    set (sa := fold_left (fun sum f => sum + inject_Z (attackDifficulty f)) next 0) in *.
    set (sd := fold_left (fun sum f => sum + inject_Z (defenseDifficulty f)) next 0) in *.
    assert (Ha : 1 <= sa / n /\ sa / n <= 5) by (apply mean_bounds; [exact Hn|lra|lra]).
    assert (Hd : 1 <= sd / n /\ sd / n <= 5) by (apply mean_bounds; [exact Hn|lra|lra]).
    tauto.
Qed.

Lemma teamAverage_range_witness :
  let rated (a d : Z) :=
    {| gameweek := Some 1%Z; opponentTeamId := 2; opponentTeamName := "Chelsea"; isHome := true;
       attackDifficulty := a; defenseDifficulty := d;
       attackDifficultyRaw := 50; defenseDifficultyRaw := 50 |} in
  let fixtures := [rated 2%Z 5%Z; rated 3%Z 4%Z; rated 5%Z 1%Z] in
  teamAverage [] 5 = (0, 0) /\
  1 <= (teamAverage fixtures 2).1 /\ (teamAverage fixtures 2).1 <= 5 /\
  (teamAverage fixtures 2).1 == 2.5.
Proof.
  intros rated fixtures.
  destruct (teamAverage_range [] 5) as [Hempty _]; [intros f Hf; inversion Hf|].
  destruct (teamAverage_range fixtures 2) as [_ Hsome].
  { intros f Hf. unfold fixtures in Hf.
    repeat (apply elem_of_cons in Hf as [->|Hf]); try (simpl; lia). inversion Hf. }
  destruct Hsome as (H1 & H2 & _); [discriminate|].
  split; [apply Hempty; reflexivity|]. split; [exact H1|]. split; [exact H2|].
  reflexivity.
Defined.

Lemma setAdd_fold_elem (l acc : list (option Z)) (x : option Z) :
  x ∈ fold_left setAdd l acc <-> x ∈ acc \/ x ∈ l.
Proof.
  revert acc. induction l as [|y l IH]; intros acc; simpl.
  - split; [now left|]. intros [H|H]; [exact H|inversion H].
  - rewrite IH. unfold setAdd. destruct (decide (y ∈ acc)) as [Hy|Hy].
    + rewrite elem_of_cons. split; [tauto|].
      intros [H|[->|H]]; tauto.
    + rewrite elem_of_app, list_elem_of_singleton, elem_of_cons. tauto.
Qed.

Lemma setAdd_fold_NoDup (l acc : list (option Z)) :
  NoDup acc -> NoDup (fold_left setAdd l acc).
Proof.
  revert acc. induction l as [|y l IH]; intros acc Hacc; simpl; [exact Hacc|].
  apply IH. unfold setAdd. destruct (decide (y ∈ acc)) as [Hy|Hy]; [exact Hacc|].
  apply NoDup_app. split; [exact Hacc|]. split; [|apply NoDup_singleton].
  intros x Hx Hx'. apply list_elem_of_singleton in Hx' as ->. contradiction.
Qed.

Lemma insertNumber_perm (x : option Z) (l : list (option Z)) : insertNumber x l ≡ₚ x :: l.
Proof.
  induction l as [|y rest IH]; simpl; [reflexivity|].
  destruct (toNumber x <=? toNumber y)%Z; [reflexivity|].
  rewrite IH. apply Permutation_swap.
Qed.

Lemma sortNumbers_perm (l : list (option Z)) : sortNumbers l ≡ₚ l.
Proof.
  induction l as [|x rest IH]; simpl; [reflexivity|].
  now rewrite insertNumber_perm, IH.
Qed.

Lemma insertNumber_sorted (x : option Z) (l : list (option Z)) :
  StronglySorted Spec.gameweekLe l -> StronglySorted Spec.gameweekLe (insertNumber x l).
Proof.
  intros Hs. induction Hs as [|y rest Hs IH Hall]; simpl.
  - repeat constructor.
  - destruct (toNumber x <=? toNumber y)%Z eqn:E.
    + apply Z.leb_le in E. constructor; [now constructor|].
      constructor; [exact E|].
      eapply Forall_impl; [exact Hall|]. unfold Spec.gameweekLe. intros; lia.
    + apply Z.leb_gt in E. constructor; [exact IH|].
      rewrite Forall_forall. intros z Hz.
      rewrite insertNumber_perm in Hz. apply elem_of_cons in Hz as [->|Hz].
      * unfold Spec.gameweekLe. lia.
      * rewrite Forall_forall in Hall. now apply Hall.
Qed.

Lemma sortNumbers_sorted (l : list (option Z)) :
  StronglySorted Spec.gameweekLe (sortNumbers l).
Proof.
  induction l as [|x rest IH]; simpl; [constructor|now apply insertNumber_sorted].
Qed.

(** Distinct numbers in ascending order are in strictly ascending order. *)
Lemma strictly_sorted (l : list (option Z)) :
  Forall (fun gw => gw <> None) l -> NoDup l -> StronglySorted Spec.gameweekLe l ->
  exists numbers, l = Some <$> numbers /\ StronglySorted Z.lt numbers.
Proof.
  intros Hsome Hnd Hs. revert Hsome Hnd.
  induction Hs as [|x l Hs IH Hall]; intros Hsome Hnd.
  - exists []. split; [reflexivity|constructor].
  - apply NoDup_cons in Hnd as [Hx Hnd].
    apply Forall_cons in Hsome as [Hxs Hsome].
    destruct (IH Hsome Hnd) as (numbers & -> & Hlt).
    destruct x as [k|]; [|congruence].
    exists (k :: numbers). split; [reflexivity|].
    constructor; [exact Hlt|].
    apply Forall_forall. intros y Hy.
    assert (Hin : Some y ∈ Some <$> numbers) by now apply list_elem_of_fmap_2.
    pose proof (proj1 (Forall_forall _ _) Hall _ Hin) as Hle.
    unfold Spec.gameweekLe in Hle. simpl in Hle.
    assert (k <> y) by (intros ->; now apply Hx).
    lia.
Qed.

(** X29: the gameweek columns of the league table are gameweeks of the
    ratings on display, each one once, in ascending order, a rating
    without a gameweek counting as gameweek 0, and at most [maxFixtures]
    of them for a non-negative [maxFixtures].  When every rating has a
    gameweek, the columns are numbers in strictly ascending order. *)
Theorem allGameweeks_columns (teamFixtures : list (list FixtureDifficulty))
    (maxFixtures : Z) :
  let columns := allGameweeks teamFixtures maxFixtures in
  StronglySorted Spec.gameweekLe columns /\
  NoDup columns /\
  (forall gw, gw ∈ columns ->
     exists fixtures f, fixtures ∈ teamFixtures /\ f ∈ fixtures /\ gameweek f = gw) /\
  ((0 <= maxFixtures)%Z -> (length columns <= Z.to_nat maxFixtures)%nat) /\
  ((forall fixtures f, fixtures ∈ teamFixtures -> f ∈ fixtures -> gameweek f <> None) ->
   exists numbers, columns = Some <$> numbers /\ StronglySorted Z.lt numbers).
Proof.
  intros columns. unfold allGameweeks in columns.
  set (all := gameweek <$> concat teamFixtures) in columns.
  set (sorted := sortNumbers (fold_left setAdd all [])) in columns.
  assert (Hperm : sorted ≡ₚ fold_left setAdd all []) by apply sortNumbers_perm.
  assert (Hsub : columns `sublist_of` sorted) by apply slice0_sublist.
  assert (Hsorted : StronglySorted Spec.gameweekLe columns).
  { apply (StronglySorted_sublist _ _ sorted Hsub). apply sortNumbers_sorted. }
  assert (Hnd : NoDup columns).
  { apply (sublist_NoDup columns sorted); [|exact Hsub]. rewrite Hperm.
    apply setAdd_fold_NoDup. constructor. }
  assert (Hfrom : forall gw, gw ∈ columns ->
            exists fixtures f, fixtures ∈ teamFixtures /\ f ∈ fixtures /\ gameweek f = gw).
  { intros gw Hgw.
    pose proof (elem_of_sublist _ _ _ Hgw Hsub) as Hs.
    rewrite Hperm in Hs. apply setAdd_fold_elem in Hs as [Hs|Hs]; [inversion Hs|].
    unfold all in Hs. apply list_elem_of_fmap in Hs as (f & -> & Hf).
    apply list_elem_of_In, in_concat in Hf as (fixtures & Hfs & Hin).
    exists fixtures, f. repeat split; now apply list_elem_of_In. }
  split; [exact Hsorted|]. split; [exact Hnd|]. split; [exact Hfrom|]. split.
  - intros Hn. unfold columns. rewrite slice0_nonneg by exact Hn.
    rewrite length_take. lia.
  - intros Hall. apply strictly_sorted; [|exact Hnd|exact Hsorted].
    rewrite Forall_forall. intros gw Hgw.
    destruct (Hfrom gw Hgw) as (fixtures & f & Hfs & Hf & <-).
    now apply (Hall fixtures f).
Qed.

Lemma allGameweeks_columns_witness :
  let rated (gw : option Z) :=
    {| gameweek := gw; opponentTeamId := 2; opponentTeamName := "Chelsea"; isHome := true;
       attackDifficulty := 3; defenseDifficulty := 3;
       attackDifficultyRaw := 50; defenseDifficultyRaw := 50 |} in
  let shown := [[rated (Some 9%Z); rated (Some 7%Z)]; [];
                [rated (Some 8%Z); rated (Some 7%Z); rated (Some 12%Z)]] in
  let postponed := [[rated (Some 9%Z); rated None]; [rated (Some 0%Z); rated None]] in
  (0 <= 3)%Z /\ allGameweeks shown 3 = [Some 7%Z; Some 8%Z; Some 9%Z] /\
  (length (allGameweeks shown 3) <= 3)%nat /\
  (exists numbers, allGameweeks shown 3 = Some <$> numbers /\ StronglySorted Z.lt numbers) /\
  allGameweeks postponed 3 = [None; Some 0%Z; Some 9%Z].
Proof.
  intros rated shown postponed.
  assert (Hn : (0 <= 3)%Z) by lia.
  assert (Hall : forall fixtures f, fixtures ∈ shown -> f ∈ fixtures -> gameweek f <> None).
  { intros fixtures f Hfs Hf. unfold shown in Hfs.
    repeat (apply elem_of_cons in Hfs as [->|Hfs]);
      try (repeat (apply elem_of_cons in Hf as [->|Hf]); try discriminate);
      try inversion Hf; inversion Hfs. }
  destruct (allGameweeks_columns shown 3) as (_ & _ & _ & Hlen & Hnum).
  split; [exact Hn|]. split; [vm_compute; reflexivity|].
  split; [exact (Hlen Hn)|]. split; [exact (Hnum Hall)|].
  vm_compute. reflexivity.
Defined.

Lemma batchesFrom_concat {A} (teams : list A) (fuel i : nat) :
  (length teams <= i + fuel)%nat ->
  concat (batchesFrom fuel batchSize i teams) = drop i teams.
Proof.
  revert i. induction fuel as [|fuel IH]; intros i Hfuel; simpl.
  - symmetry. apply drop_ge. lia.
  - destruct (i <? length teams)%nat eqn:E.
    + simpl. rewrite IH by (unfold batchSize; lia).
      rewrite <- (take_drop batchSize (drop i teams)) at 2.
      now rewrite drop_drop.
    + apply Nat.ltb_ge in E. symmetry. now apply drop_ge.
Qed.

Lemma batchesFrom_sizes {A} (teams : list A) (fuel i : nat) :
  Forall (fun b => (1 <= length b <= batchSize)%nat) (batchesFrom fuel batchSize i teams).
Proof.
  revert i. induction fuel as [|fuel IH]; intros i; simpl; [constructor|].
  destruct (i <? length teams)%nat eqn:E; [|constructor].
  apply Nat.ltb_lt in E. constructor; [|apply IH].
  rewrite length_take, length_drop. unfold batchSize. lia.
Qed.

(** X30: [loadAllTeamFixtures] asks for every team exactly once, batch by
    batch: the batches, put end to end, are the list of teams, and each
    batch holds between one and three teams. *)
Theorem batches_partition {A} (teams : list A) :
  concat (batches teams) = teams /\
  Forall (fun b => (1 <= length b <= 3)%nat) (batches teams).
Proof.
  unfold batches. split.
  - rewrite batchesFrom_concat by lia. reflexivity.
  - apply batchesFrom_sizes.
Qed.

End ViewTables.
